(** * Streaming ingestion service: batching, bounded write concurrency,
      failure isolation

    A shallow embedding of [src/infrastructure/ingestion/ingestion.service.ts].

    The service is asynchronous JavaScript running on one event loop.  The
    embedding makes the event loop explicit: a [State] holds the store shared
    with the outside world (the promises created by [saveBatch], the log), the
    position of the [for] loop of [ingestAll] and the suspended frame of the
    running [ingestSource] call.  An [Event] is either the coroutine resuming
    at its current [await] ([Resume]), the repository settling one write
    ([Settle]), or Node reporting the end of a stream pipeline
    ([PipelineDone]).  Every interleaving of these events is an execution. *)

From stdpp Require Import base list strings pretty.
From Stdlib Require Import ZArith Lia.

Local Open Scope string_scope.
Local Open Scope nat_scope.
Local Open Scope list_scope.

(** ** JavaScript values

    The service looks at a value only through its truthiness, [instanceof
    Error], [typeof v === 'string'], [String(v)] and [JSON.stringify(v)];
    values are modelled up to these observations.

    - [JUndefined], [JNull], [JBool], [JNaN], [JStr]: the primitive values
      of these kinds.
    - [JNum z]: the number [z], an integer between [-MAX_SAFE_INTEGER] and
      [MAX_SAFE_INTEGER]; a [z] beyond stands for the nearest of the two
      bounds ([safe_integer]).
    - [JError message stack]: an instance of [Error] or of one of its
      subclasses, with strings for [message] and [stack].
    - [JObj json str]: any other truthy value that [String] can convert: an
      object, a function, a symbol, a number that is not a safe integer.
      [str] is what [String(v)] returns (["[object Object]"] unless the
      value has its own [toString]); [json] is what a template literal prints
      of [JSON.stringify(v)], [None] when that call throws, as on a circular
      structure.
    - [JOpaque json thrown]: an object on which [String(v)] throws [thrown]:
      [Object.create(null)], on which it throws a [TypeError], or an object
      whose [toString] throws. *)

Inductive JsValue : Type :=
  | JUndefined
  | JNull
  | JBool (b : bool)
  | JNum (z : Z)
  | JNaN
  | JStr (s : string)
  | JError (message stack : string)
  | JObj (json : option string) (str : string)
  | JOpaque (json : option string) (thrown : JsValue).

Global Instance JsValue_eq_dec : EqDecision JsValue.
Proof. solve_decision. Defined.

(** [ToBoolean]: what [!mapped] tests. *)
Definition truthy (v : JsValue) : bool :=
  match v with
  | JUndefined | JNull | JNaN => false
  | JBool b => b
  | JNum z => negb (z =? 0)%Z
  | JStr s => negb (String.eqb s "")
  | JError _ _ | JObj _ _ | JOpaque _ _ => true
  end.

(** How a call ends: it returns a value or throws one. *)
Inductive Completion (A : Type) : Type :=
  | Normal (a : A)
  | Throw (e : JsValue).
Arguments Normal {A} a.
Arguments Throw {A} e.

Definition MAX_SAFE_INTEGER : Z := 9007199254740991.

(** The number [JNum z] stands for. *)
Definition safe_integer (z : Z) : Z :=
  Z.max (- MAX_SAFE_INTEGER) (Z.min MAX_SAFE_INTEGER z).

(** [String(v)], which throws on the objects that cannot be converted.  On
    an instance of [Error] it is given for the class [Error] itself; the
    service does not call it there. *)
Definition ToString (v : JsValue) : Completion string :=
  match v with
  | JUndefined => Normal "undefined"
  | JNull => Normal "null"
  | JBool true => Normal "true"
  | JBool false => Normal "false"
  | JNum z => Normal (pretty (safe_integer z))
  | JNaN => Normal "NaN"
  | JStr s => Normal s
  | JError message _ =>
      Normal (if String.eqb message "" then "Error"
              else "Error: " +:+ message)
  | JObj _ str => Normal str
  | JOpaque _ thrown => Throw thrown
  end.

(** ** Collaborators *)

(** [Logger]: one entry per call of [log], [debug] or [error]. *)
Inductive LogEntry : Type :=
  | LogInfo (message : string)
  | LogDebug (message : string)
  | LogError (message : string) (stack : option string).

(** [IngestionSource]; [mapper] stands for [mapper.map], which may return
    any value (line 80 casts the type away) or throw. *)
Record IngestionSource : Type := {
  name : string;
  url : string;
  mapper : JsValue → Completion JsValue;
}.

(** What the stream obtained for a URL will deliver: the values the JSON
    parser yields one by one, how the iteration ends after them (the iterator
    reports completion or rejects), and how [finished(responseStream)]
    settles. *)
Record ResponseStream : Type := {
  elements : list JsValue;
  iterator_end : Completion unit;
  finished_result : Completion unit;
}.

(** One call of [repository.saveAll]: it throws before returning a promise,
    or returns a promise that later fulfils or rejects. *)
Inductive SaveAll : Type :=
  | SaveAllThrows (error : JsValue)
  | SaveAllResolves
  | SaveAllRejects (error : JsValue).

Inductive PromiseState : Type :=
  | Pending
  | Fulfilled
  | Rejected (reason : JsValue).

Global Instance SaveAll_eq_dec : EqDecision SaveAll.
Proof. solve_decision. Defined.

Global Instance PromiseState_eq_dec : EqDecision PromiseState.
Proof. solve_decision. Defined.

(** One call of [saveBatch]: its argument, what [saveAll] was asked to do
    with it ([None] when [saveAll] was not called), and the state of the
    promise the call returned.  [save_source] remembers which call of
    [ingestSource] (counted from 0 in registration order) dispatched it; the
    code keeps no such tag, it is there to state properties per source. *)
Record Save : Type := {
  save_source : nat;
  save_batch : list JsValue;
  save_call : option SaveAll;
  save_promise : PromiseState;
}.

(** The mutable world outside the coroutine.  A promise is referred to by its
    index in [saves]. *)
Record Store : Type := {
  saves : list Save;
  log : list LogEntry;
}.

Definition logger (entries : list LogEntry) (σ : Store) : Store :=
  {| saves := saves σ; log := log σ ++ entries |}.

(** ** The frame of [ingestSource] *)

(** The [await] at which [ingestSource] is suspended. *)
Inductive Await : Type :=
  | AwaitNext        (* line 77: the next element of [jsonStream] *)
  | AwaitThrottle    (* line 92: [flushPending] inside the loop *)
  | AwaitDrain       (* line 102: [flushPending] after the loop *)
  | AwaitFinished.   (* line 103: [finished(responseStream)] *)

Record Running : Type := {
  r_source : IngestionSource;
  r_stream : ResponseStream;
  r_input : list JsValue;        (* elements not yet yielded *)
  batch : list JsValue;
  pendingSaves : list nat;
  r_await : Await;
}.

(** What one resumption of [ingestSource] leads to. *)
Inductive Control : Type :=
  | Continue (r : Running)
  | Return
  | Raise (e : JsValue).

(** ** The state of [ingestAll] *)

Record State : Type := {
  store : Store;
  queue : list IngestionSource;          (* sources the loop has not reached *)
  current : option Running;              (* the awaited [ingestSource] call *)
  outcomes : list (Completion unit);     (* how the earlier calls ended *)
  pipelines : list string;               (* pipelines whose callback is due *)
  thrown : option JsValue;               (* what [ingestAll] rejected with *)
}.

Inductive Event : Type :=
  | Resume
  | Settle (id : nat)
  | PipelineDone (i : nat) (err : JsValue).

Definition registerSource (source : IngestionSource)
    (sources : list IngestionSource) : list IngestionSource :=
  sources ++ [source].

Definition initial (sources : list IngestionSource) : State :=
  {| store := {| saves := []; log := [] |};
     queue := sources; current := None; outcomes := []; pipelines := [];
     thrown := None |}.

(** [ingestAll] has returned: no call is awaited, the loop is over and
    nothing was thrown out of it. *)
Definition returned (st : State) : Prop :=
  current st = None ∧ queue st = [] ∧ thrown st = None.

(** [ingestAll] has rejected with [e]: its [catch] clause threw. *)
Definition rejected (st : State) (e : JsValue) : Prop :=
  current st = None ∧ thrown st = Some e.

(** [ingestAll] is over. *)
Definition over (st : State) : Prop :=
  returned st ∨ ∃ e, rejected st e.

Section IngestionService.

Variable BATCH_SIZE : nat.
Variable MAX_CONCURRENT_BATCHES : nat.

(** The injected dependencies.  [httpClient] is [getStream]; [repository]
    is [saveAll], which may behave differently at each call: its first
    argument is the index the call gets in [saves]. *)
Variable httpClient : string → Completion ResponseStream.
Variable repository : nat → list JsValue → SaveAll.

(** *** [saveBatch], lines 108-121 *)

(** The [catch] clause, lines 114-120: it logs the failure, or throws what
    [String(error)] throws. *)
Definition saveBatch_catch (error : JsValue) : Completion LogEntry :=
  match error with
  | JError message _ =>
      Normal (LogError ("Failed to save batch: " +:+ message) None)
  | _ =>
      match ToString error with
      | Normal s => Normal (LogError ("Failed to save batch: " +:+ s) None)
      | Throw e => Throw e
      end
  end.

(** How a [saveBatch] call ends once its [catch] clause has run: it has
    logged and its promise is fulfilled, or the clause threw and its promise
    is rejected. *)
Definition saveBatch_caught (error : JsValue)
    : PromiseState * list LogEntry :=
  match saveBatch_catch error with
  | Normal entry => (Fulfilled, [entry])
  | Throw e => (Rejected e, [])
  end.

(** The call up to its [await]: the promise it returns is the new last
    entry of [saves]. *)
Definition saveBatch (src : nat) (batch : list JsValue) (σ : Store)
    : Store * nat :=
  let id := length (saves σ) in
  let entry call promise :=
    {| save_source := src; save_batch := batch;
       save_call := call; save_promise := promise |} in
  if length batch =? 0 then
    ({| saves := saves σ ++ [entry None Fulfilled]; log := log σ |}, id)
  else
    match repository id batch with
    | SaveAllThrows error =>
        let '(promise, entries) := saveBatch_caught error in
        ({| saves := saves σ ++ [entry (Some (SaveAllThrows error)) promise];
            log := log σ ++ entries |}, id)
    | call =>
        ({| saves := saves σ ++ [entry (Some call) Pending];
            log := log σ |}, id)
    end.

(** The rest of the call, once the promise of [saveAll] has settled. *)
Definition saveBatch_resume (s : Save) : option (Save * list LogEntry) :=
  let settled promise :=
    {| save_source := save_source s; save_batch := save_batch s;
       save_call := save_call s; save_promise := promise |} in
  match save_promise s, save_call s with
  | Pending, Some SaveAllResolves =>
      Some (settled Fulfilled,
            [LogDebug ("Saved batch of " +:+ pretty (length (save_batch s))
                       +:+ " records")])
  | Pending, Some (SaveAllRejects error) =>
      let '(promise, entries) := saveBatch_caught error in
      Some (settled promise, entries)
  | _, _ => None
  end.

(** *** [flushPending], lines 123-126 *)

Definition settled (σ : Store) (id : nat) : bool :=
  match saves σ !! id with
  | Some s => match save_promise s with Pending => false | _ => true end
  | None => true
  end.

(** [Promise.allSettled(pending)] has fulfilled: every promise of the list
    is fulfilled or rejected. *)
Definition allSettled (σ : Store) (pending : list nat) : bool :=
  forallb (settled σ) pending.

(** The call returns the emptied list once [allSettled] holds, and stays
    suspended ([None]) until then; it has no way to throw. *)
Definition flushPending (σ : Store) (pending : list nat)
    : option (list nat) :=
  if allSettled σ pending then Some [] else None.

(** *** [ingestSource], lines 48-106 *)

(** The callback given to [pipeline], lines 61-75. *)
Definition pipelineCallback (name : string) (err : JsValue)
    : list LogEntry :=
  match err with
  | JError message _ =>
      [LogError ("Stream error for " +:+ name +:+ ": " +:+ message) None]
  | JUndefined | JNull => []
  | _ =>
      let msg :=
        match err with
        | JStr s => s
        | JBool true => "true"
        | JBool false => "false"
        | JNum z => pretty (safe_integer z)
        | JNaN => "null"
        | JObj (Some json) _ | JOpaque (Some json) _ => json
        | _ => "[unserializable error]"
        end in
      [LogError ("Stream error for " +:+ name +:+ ": " +:+ msg) None]
  end.

(** Lines 53-59, after [getStream] has delivered the stream. *)
Definition start (source : IngestionSource) (responseStream : ResponseStream)
    : Running :=
  {| r_source := source; r_stream := responseStream;
     r_input := elements responseStream;
     batch := []; pendingSaves := []; r_await := AwaitNext |}.

(** [pendingSaves.push(this.saveBatch(taken))]. *)
Definition submit (src : nat) (taken : list JsValue) (σ : Store)
    (pendingSaves : list nat) : Store * list nat :=
  let '(σ', promise) := saveBatch src taken σ in
  (σ', pendingSaves ++ [promise]).

(** One resumption of an [ingestSource] call, up to its next [await], its
    return or its throw.  [None]: the promises awaited have not all
    settled. *)
Definition ingestSource (src : nat) (σ : Store) (r : Running)
    : option (Store * Control) :=
  let frame input batch pendingSaves await :=
    {| r_source := r_source r; r_stream := r_stream r; r_input := input;
       batch := batch; pendingSaves := pendingSaves; r_await := await |} in
  match r_await r with
  | AwaitNext =>
      match r_input r with
      | value :: rest =>
          match mapper (r_source r) value with
          | Throw e => Some (σ, Raise e)
          | Normal mapped =>
              if negb (truthy mapped) then
                Some (σ, Continue (frame rest (batch r) (pendingSaves r) AwaitNext))
              else
                let batch := batch r ++ [mapped] in
                if BATCH_SIZE <=? length batch then
                  let '(σ', pendingSaves) :=
                    submit src (take BATCH_SIZE batch) σ (pendingSaves r) in
                  let batch := drop BATCH_SIZE batch in
                  if MAX_CONCURRENT_BATCHES <=? length pendingSaves then
                    Some (σ', Continue (frame rest batch pendingSaves AwaitThrottle))
                  else
                    Some (σ', Continue (frame rest batch pendingSaves AwaitNext))
                else
                  Some (σ, Continue (frame rest batch (pendingSaves r) AwaitNext))
          end
      | [] =>
          match iterator_end (r_stream r) with
          | Throw e => Some (σ, Raise e)
          | Normal _ =>
              if 0 <? length (batch r) then
                let '(σ', pendingSaves) :=
                  submit src (take (length (batch r)) (batch r)) σ
                    (pendingSaves r) in
                Some (σ', Continue (frame [] (drop (length (batch r)) (batch r))
                                      pendingSaves AwaitDrain))
              else
                Some (σ, Continue (frame [] (batch r) (pendingSaves r) AwaitDrain))
          end
      end
  | AwaitThrottle =>
      match flushPending σ (pendingSaves r) with
      | Some pendingSaves =>
          Some (σ, Continue (frame (r_input r) (batch r) pendingSaves AwaitNext))
      | None => None
      end
  | AwaitDrain =>
      match flushPending σ (pendingSaves r) with
      | Some pendingSaves =>
          Some (σ, Continue (frame (r_input r) (batch r) pendingSaves AwaitFinished))
      | None => None
      end
  | AwaitFinished =>
      match finished_result (r_stream r) with
      | Throw e => Some (σ, Raise e)
      | Normal _ =>
          Some (logger [LogInfo ("✅ Finished ingestion for "
                                 +:+ name (r_source r))] σ, Return)
      end
  end.

(** *** [ingestAll], lines 32-46 *)

(** The [catch] clause, lines 36-44: it logs the failure, or throws what
    [String(error)] throws. *)
Definition ingestAll_catch (source : IngestionSource) (error : JsValue)
    : Completion LogEntry :=
  match error with
  | JError _ stack =>
      Normal (LogError ("Failed ingestion for " +:+ name source) (Some stack))
  | _ =>
      match ToString error with
      | Normal s =>
          Normal (LogError ("Failed ingestion for " +:+ name source +:+ ": "
                            +:+ s) None)
      | Throw e => Throw e
      end
  end.

(** The call for [source] has thrown [error] and the [catch] clause has
    run: the failure is logged and the loop goes on with [queue], or the
    clause threw and [ingestAll] rejects, leaving [queue] alone. *)
Definition caught (st : State) (σ : Store) (queue : list IngestionSource)
    (source : IngestionSource) (error : JsValue) : State :=
  match ingestAll_catch source error with
  | Normal entry =>
      {| store := logger [entry] σ; queue := queue; current := None;
         outcomes := outcomes st ++ [Throw error];
         pipelines := pipelines st; thrown := thrown st |}
  | Throw e =>
      {| store := σ; queue := queue; current := None;
         outcomes := outcomes st ++ [Throw error];
         pipelines := pipelines st; thrown := Some e |}
  end.

(** One resumption of [ingestAll] (event [Resume]): the loop takes the next
    source and starts its [ingestSource] call, or the awaited call goes on; a
    call that returns or throws hands control back to the loop, the throw
    being caught.  [None]: [ingestAll] is over, or the awaited call waits for
    promises that have not settled. *)
Definition ingestAll (st : State) : option State :=
  match current st with
  | None =>
      match thrown st, queue st with
      | Some _, _ | None, [] => None
      | None, source :: rest =>
          let σ := logger [LogInfo ("Starting ingestion for " +:+ name source)]
                     (store st) in
          match httpClient (url source) with
          | Throw e => Some (caught st σ rest source e)
          | Normal responseStream =>
              Some {| store := σ; queue := rest;
                      current := Some (start source responseStream);
                      outcomes := outcomes st;
                      pipelines := pipelines st ++ [name source];
                      thrown := thrown st |}
          end
      end
  | Some r =>
      match ingestSource (length (outcomes st)) (store st) r with
      | None => None
      | Some (σ, Continue r') =>
          Some {| store := σ; queue := queue st; current := Some r';
                  outcomes := outcomes st; pipelines := pipelines st;
                  thrown := thrown st |}
      | Some (σ, Return) =>
          Some {| store := σ; queue := queue st; current := None;
                  outcomes := outcomes st ++ [Normal ()];
                  pipelines := pipelines st; thrown := thrown st |}
      | Some (σ, Raise e) => Some (caught st σ (queue st) (r_source r) e)
      end
  end.

(** The repository settles write [id]; [saveBatch] runs to its end. *)
Definition settle (id : nat) (st : State) : option State :=
  match saves (store st) !! id with
  | None => None
  | Some s =>
      match saveBatch_resume s with
      | None => None
      | Some (s', entries) =>
          Some {| store := {| saves := <[id := s']> (saves (store st));
                              log := log (store st) ++ entries |};
                  queue := queue st; current := current st;
                  outcomes := outcomes st; pipelines := pipelines st;
                  thrown := thrown st |}
      end
  end.

(** Node calls the callback of the [i]-th open pipeline with [err]. *)
Definition pipelineDone (i : nat) (err : JsValue) (st : State)
    : option State :=
  match pipelines st !! i with
  | None => None
  | Some name =>
      Some {| store := logger (pipelineCallback name err) (store st);
              queue := queue st; current := current st;
              outcomes := outcomes st;
              pipelines := delete i (pipelines st);
              thrown := thrown st |}
  end.

Definition step (st : State) (ev : Event) : option State :=
  match ev with
  | Resume => ingestAll st
  | Settle id => settle id st
  | PipelineDone i err => pipelineDone i err st
  end.

(** An execution: the events happen one after the other, each enabled in
    the state it happens in. *)
Fixpoint exec (st : State) (evs : list Event) : option State :=
  match evs with
  | [] => Some st
  | ev :: evs =>
      match step st ev with
      | Some st' => exec st' evs
      | None => None
      end
  end.

(** One schedule among all: the coroutine runs whenever it can; when it
    waits in [flushPending], the first unsettled write of [pendingSaves]
    settles. *)
Definition next_event (st : State) : option Event :=
  match ingestAll st with
  | Some _ => Some Resume
  | None =>
      match current st with
      | Some r =>
          Settle <$> List.find (λ id, negb (settled (store st) id))
                       (pendingSaves r)
      | None => None
      end
  end.

Fixpoint run (fuel : nat) (st : State) : State :=
  match fuel with
  | 0 => st
  | S fuel =>
      match next_event st with
      | Some ev =>
          match step st ev with
          | Some st' => run fuel st'
          | None => st
          end
      | None => st
      end
  end.

End IngestionService.


(** ** The service as configured, lines 19-20 *)

Module IngestionService.

Definition BATCH_SIZE : nat := 5000.
Definition MAX_CONCURRENT_BATCHES : nat := 3.

Definition ingestSource := ingestSource BATCH_SIZE MAX_CONCURRENT_BATCHES.
Definition ingestAll := ingestAll BATCH_SIZE MAX_CONCURRENT_BATCHES.
Definition step := step BATCH_SIZE MAX_CONCURRENT_BATCHES.
Definition exec := exec BATCH_SIZE MAX_CONCURRENT_BATCHES.
Definition run := run BATCH_SIZE MAX_CONCURRENT_BATCHES.

End IngestionService.

(** ** Vocabulary of the properties *)

(** The records a source yields: the truthy values its mapper returns on the
    elements, in stream order. *)
Definition records (source : IngestionSource) (elements : list JsValue)
    : list JsValue :=
  flat_map (λ value,
    match mapper source value with
    | Normal mapped => if truthy mapped then [mapped] else []
    | Throw _ => []
    end) elements.

(** The arguments of the [saveAll] calls made for source [k], in call
    order. *)
Definition written (k : nat) (l : list Save) : list (list JsValue) :=
  save_batch <$> filter (λ s, save_source s = k ∧ is_Some (save_call s)) l.

(** The batches of source [k] that the repository has taken: [saveAll]
    fulfilled and [saveBatch] ran to its end. *)
Definition stored (k : nat) (l : list Save) : list (list JsValue) :=
  save_batch <$>
    filter (λ s, save_source s = k ∧ save_call s = Some SaveAllResolves
                 ∧ save_promise s = Fulfilled) l.

(** The writes of source [k] have all been resolved: the promise of none
    of them is pending. *)
Definition resolved (k : nat) (l : list Save) : Prop :=
  Forall (λ s, save_source s = k → save_promise s ≠ Pending) l.

(** The promises of [pending] that have not settled. *)
Definition unresolved (σ : Store) (pending : list nat) : list nat :=
  filter (λ id, settled σ id = false) pending.

(** A sequence of batches as the batcher of size [size] cuts it: no batch is
    empty or longer than [size], and only the last may be shorter. *)
Definition batched {A} (size : nat) (bs : list (list A)) : Prop :=
  Forall (λ b, 0 < length b ≤ size) bs ∧
  ∀ i b, bs !! i = Some b → S i < length bs → length b = size.

(** [recs] cut into the batches [bs]: nothing lost, nothing twice, the order
    kept; every batch full but possibly the last, which is short exactly when
    the number of records is not a multiple of [size]. *)
Definition cut_into {A} (size : nat) (recs : list A) (bs : list (list A))
    : Prop :=
  concat bs = recs ∧
  Forall (λ b, 0 < length b ≤ size) bs ∧
  (∀ i b, bs !! i = Some b → S i < length bs → length b = size) ∧
  (length recs `mod` size = 0 → Forall (λ b, length b = size) bs) ∧
  (length recs `mod` size ≠ 0 →
     ∃ b, last bs = Some b ∧ length b = length recs `mod` size).

(** How a call of [ingestSource] ends when nothing is looked at but its own
    source: the first throw of the mapper on the elements still to come, else
    the end of the iteration, else the result of [finished]. *)
Fixpoint ingest_outcome (source : IngestionSource) (stream : ResponseStream)
    (input : list JsValue) : Completion unit :=
  match input with
  | value :: rest =>
      match mapper source value with
      | Throw e => Throw e
      | Normal _ => ingest_outcome source stream rest
      end
  | [] =>
      match iterator_end stream with
      | Throw e => Throw e
      | Normal _ => finished_result stream
      end
  end.

Definition ingestSource_outcome (httpClient : string → Completion ResponseStream)
    (source : IngestionSource) : Completion unit :=
  match httpClient (url source) with
  | Throw e => Throw e
  | Normal stream => ingest_outcome source stream (elements stream)
  end.

(** The failure of the call for a source, if that call fails, is one that
    the [catch] clause of [ingestAll] can log. *)
Definition loggable (httpClient : string → Completion ResponseStream)
    (source : IngestionSource) : Prop :=
  match ingestSource_outcome httpClient source with
  | Normal _ => True
  | Throw e =>
      match ingestAll_catch source e with
      | Normal _ => True
      | Throw _ => False
      end
  end.

(** The promise of a [saveBatch] call is pending only while the promise of
    [saveAll] is, and it is rejected only with what the [catch] clause threw
    on the error of [saveAll]. *)
Definition promise_wf (s : Save) : Prop :=
  match save_promise s with
  | Pending => ∀ e, save_call s ≠ Some (SaveAllThrows e)
  | Fulfilled => True
  | Rejected reason =>
      ∃ error,
        (save_call s = Some (SaveAllThrows error)
         ∨ save_call s = Some (SaveAllRejects error))
        ∧ saveBatch_catch error = Throw reason
  end.

(** What the call for source [k] may do to the store: add writes of its own
    and log. *)
Definition extends (k : nat) (σ σ' : Store) : Prop :=
  ∃ new entries,
    saves σ' = saves σ ++ new ∧ log σ' = log σ ++ entries ∧
    Forall (λ s, save_source s = k) new.

(** A bound on the number of events [run] needs. *)
Definition await_cost (a : Await) : nat :=
  match a with
  | AwaitNext => 4
  | AwaitThrottle => 5
  | AwaitDrain => 2
  | AwaitFinished => 1
  end.

Definition frame_cost (r : Running) : nat :=
  3 * length (r_input r) + await_cost (r_await r).

Definition is_pending (s : Save) : bool :=
  match save_promise s with Pending => true | _ => false end.

Definition in_flight (l : list Save) : nat :=
  length (List.filter is_pending l).

Definition source_cost (httpClient : string → Completion ResponseStream)
    (source : IngestionSource) : nat :=
  match httpClient (url source) with
  | Throw _ => 1
  | Normal stream => 5 + 3 * length (elements stream)
  end.

Definition fuel (httpClient : string → Completion ResponseStream)
    (st : State) : nat :=
  sum_list (source_cost httpClient <$> queue st)
  + from_option frame_cost 0 (current st)
  + in_flight (saves (store st)).

(** ** The invariant of the executions *)

Section Invariant.

Variable BATCH_SIZE : nat.
Variable MAX_CONCURRENT_BATCHES : nat.
Variable httpClient : string → Completion ResponseStream.
Variable repository : nat → list JsValue → SaveAll.
Variable sources : list IngestionSource.

(** Every entry of [saves]: a batch within the size limit, given to
    [saveAll]. *)
Definition save_wf (id : nat) (s : Save) : Prop :=
  0 < length (save_batch s) ≤ BATCH_SIZE ∧
  save_call s = Some (repository id (save_batch s)) ∧
  promise_wf s.

(** Inside the loop: the full batches written so far and the buffer make up
    the records of the elements consumed. *)
Definition loop_inv (k : nat) (l : list Save) (r : Running) : Prop :=
  ∃ consumed,
    elements (r_stream r) = consumed ++ r_input r ∧
    concat (written k l) ++ batch r = records (r_source r) consumed ∧
    Forall (λ b, length b = BATCH_SIZE) (written k l) ∧
    length (batch r) < BATCH_SIZE ∧
    ingest_outcome (r_source r) (r_stream r) (r_input r)
    = ingest_outcome (r_source r) (r_stream r) (elements (r_stream r)).

(** After the loop. *)
Definition end_inv (k : nat) (l : list Save) (r : Running) : Prop :=
  r_input r = [] ∧ batch r = [] ∧
  concat (written k l) = records (r_source r) (elements (r_stream r)) ∧
  batched BATCH_SIZE (written k l) ∧
  finished_result (r_stream r)
  = ingest_outcome (r_source r) (r_stream r) (elements (r_stream r)).

Definition frame_inv (k : nat) (l : list Save) (r : Running) : Prop :=
  httpClient (url (r_source r)) = Normal (r_stream r) ∧
  (∀ id s, l !! id = Some s → save_source s = k →
           id ∈ pendingSaves r ∨ save_promise s ≠ Pending) ∧
  match r_await r with
  | AwaitNext =>
      length (pendingSaves r) < MAX_CONCURRENT_BATCHES ∧ loop_inv k l r
  | AwaitThrottle =>
      length (pendingSaves r) = MAX_CONCURRENT_BATCHES ∧ loop_inv k l r
  | AwaitDrain =>
      length (pendingSaves r) ≤ MAX_CONCURRENT_BATCHES ∧ end_inv k l r
  | AwaitFinished =>
      pendingSaves r = [] ∧ end_inv k l r
  end.

(** A call that is over: it ended as its source alone determines; what the
    [catch] clause made of a throw is in the log; after a return the records
    of the source have been written in batches and every write is
    resolved. *)
Definition done_inv (k : nat) (o : Completion unit) (σ : Store) : Prop :=
  ∃ source,
    sources !! k = Some source ∧
    o = ingestSource_outcome httpClient source ∧
    match o with
    | Throw e =>
        ∀ entry, ingestAll_catch source e = Normal entry → entry ∈ log σ
    | Normal _ =>
        ∃ stream,
          httpClient (url source) = Normal stream ∧
          concat (written k (saves σ)) = records source (elements stream) ∧
          batched BATCH_SIZE (written k (saves σ)) ∧
          resolved k (saves σ)
    end.

Record invariant (st : State) : Prop := {
  inv_order :
    ∃ done, sources = done ++ option_list (r_source <$> current st) ++ queue st
            ∧ length done = length (outcomes st);
  inv_saves :
    ∀ id s, saves (store st) !! id = Some s →
      save_wf id s ∧
      save_source s < length (outcomes st) + length (option_list (current st));
  inv_frame :
    ∀ r, current st = Some r →
      frame_inv (length (outcomes st)) (saves (store st)) r;
  inv_done :
    ∀ k o, outcomes st !! k = Some o → done_inv k o (store st);
  inv_thrown :
    match thrown st with
    | None =>
        ∀ k source, k < length (outcomes st) → sources !! k = Some source →
          loggable httpClient source
    | Some e' =>
        current st = None ∧
        ∃ k source e,
          length (outcomes st) = S k ∧ sources !! k = Some source ∧
          ingestSource_outcome httpClient source = Throw e ∧
          ingestAll_catch source e = Throw e' ∧
          ∀ j source, j < k → sources !! j = Some source →
            loggable httpClient source
    end;
}.

End Invariant.

(** ** Sources, streams and repositories to run the service on *)

Module Example.

Definition record : JsValue := JObj (Some "{}") "[object Object]".

(** A mapper that throws on [null], skips strings and keeps the rest. *)
Definition map_record (raw : JsValue) : Completion JsValue :=
  match raw with
  | JNull => Throw (JError "bad record" "at map")
  | JStr _ => Normal JNull
  | _ => Normal raw
  end.

Definition source_A := {| name := "A"; url := "a"; mapper := map_record |}.
Definition source_B := {| name := "B"; url := "b"; mapper := map_record |}.
Definition source_C := {| name := "C"; url := "c"; mapper := map_record |}.
Definition source_D := {| name := "D"; url := "d"; mapper := map_record |}.

Definition hang_up : JsValue := JError "socket hang up" "at socket".

Definition stream (elements : list JsValue) : ResponseStream :=
  {| elements := elements; iterator_end := Normal ();
     finished_result := Normal () |}.

(** Behind [a]: [size] records, then an element the mapper throws on.
    Behind [b]: two records around an element to skip.  Behind [c]: four
    times [size] records.  Behind [d]: one record, then the connection
    breaks: the iterator rejects and so does [finished]. *)
Definition httpClient (size : nat) (url : string)
    : Completion ResponseStream :=
  if String.eqb url "a" then
    Normal (stream (repeat record size ++ [JNull]))
  else if String.eqb url "b" then
    Normal (stream [record; JStr "skip"; record])
  else if String.eqb url "c" then
    Normal (stream (repeat record size ++ repeat record size
                    ++ repeat record size ++ repeat record size))
  else if String.eqb url "d" then
    Normal {| elements := [record]; iterator_end := Throw hang_up;
              finished_result := Throw hang_up |}
  else Throw (JError "no such host" "at getStream").

Definition accepting (id : nat) (batch : list JsValue) : SaveAll :=
  SaveAllResolves.

(** The first write is refused. *)
Definition refusing (id : nat) (batch : list JsValue) : SaveAll :=
  if id =? 0 then SaveAllRejects (JStr "write refused") else SaveAllResolves.

(** The write of a full batch of [record]s for source [k]. *)
Definition write (k size : nat) (promise : PromiseState) : Save :=
  {| save_source := k; save_batch := repeat record size;
     save_call := Some SaveAllResolves; save_promise := promise |}.

(** Source [C] run, with no write settled, until its third batch is
    written. *)
Definition three_batches (size : nat) : list Event :=
  Resume :: repeat Resume size ++ repeat Resume size ++ repeat Resume size.

Definition frame_C (size : nat) (input : list JsValue) (pending : list nat)
    (await : Await) : Running :=
  {| r_source := source_C;
     r_stream := stream (repeat record size ++ repeat record size
                         ++ repeat record size ++ repeat record size);
     r_input := input; batch := []; pendingSaves := pending;
     r_await := await |}.

Definition throttled (size : nat) : State :=
  {| store := {| saves := [write 0 size Pending; write 0 size Pending;
                           write 0 size Pending];
                 log := [LogInfo "Starting ingestion for C"] |};
     queue := [];
     current := Some (frame_C size (repeat record size) [0; 1; 2]
                        AwaitThrottle);
     outcomes := []; pipelines := ["C"]; thrown := None |}.

(** From there the three writes settle, the call resumes and the fourth
    batch is written. *)
Definition fourth_batch (size : nat) : list Event :=
  [Settle 0; Settle 1; Settle 2; Resume] ++ repeat Resume size.

Definition saved (size : nat) : LogEntry :=
  LogDebug ("Saved batch of " +:+ pretty (length (repeat record size))
            +:+ " records").

Definition fourth_written (size : nat) : State :=
  {| store := {| saves := [write 0 size Fulfilled; write 0 size Fulfilled;
                           write 0 size Fulfilled; write 0 size Pending];
                 log := [LogInfo "Starting ingestion for C";
                         saved size; saved size; saved size] |};
     queue := [];
     current := Some (frame_C size [] [3] AwaitNext);
     outcomes := []; pipelines := ["C"]; thrown := None |}.

(** Sources [A] and [B], run with no write settled until the mapper has
    thrown on the last element of [A] and the loop has taken [B]. *)
Definition mapper_throws (size : nat) : list Event :=
  Resume :: repeat Resume size ++ [Resume; Resume].

Definition abandoned (size : nat) : State :=
  {| store := {| saves := [write 0 size Pending];
                 log := [LogInfo "Starting ingestion for A";
                         LogError "Failed ingestion for A" (Some "at map");
                         LogInfo "Starting ingestion for B"] |};
     queue := [];
     current :=
       Some {| r_source := source_B;
               r_stream := stream [record; JStr "skip"; record];
               r_input := [record; JStr "skip"; record];
               batch := []; pendingSaves := []; r_await := AwaitNext |};
     outcomes := [Throw (JError "bad record" "at map")];
     pipelines := ["A"; "B"]; thrown := None |}.

End Example.

(** ** The loop of [ingestSource] on its own

    What the [for await] loop of lines 77-95 and the flush of lines 98-100 do
    to a stream when nothing else runs: the records pushed to the buffer, the
    way the loop is left, the batches handed to [saveBatch]. *)

(** The records the loop pushes: the truthy values of the mapper on the
    elements that come before its first throw. *)
Fixpoint ingested (source : IngestionSource) (input : list JsValue)
    : list JsValue :=
  match input with
  | value :: rest =>
      match mapper source value with
      | Throw _ => []
      | Normal mapped =>
          (if truthy mapped then [mapped] else []) ++ ingested source rest
      end
  | [] => []
  end.

(** How the loop is left: by the first throw of the mapper, else as the
    iterator ends. *)
Fixpoint iteration (source : IngestionSource) (stream : ResponseStream)
    (input : list JsValue) : Completion unit :=
  match input with
  | value :: rest =>
      match mapper source value with
      | Throw e => Throw e
      | Normal _ => iteration source stream rest
      end
  | [] => iterator_end stream
  end.

(** The batches handed to [saveBatch], from the elements still to come and
    the buffer: one each time the buffer reaches [BATCH_SIZE], and the rest
    of the buffer once the iterator has reported completion; a throw ends the
    call with the buffer as it is. *)
Fixpoint batches (BATCH_SIZE : nat) (source : IngestionSource)
    (stream : ResponseStream) (input batch : list JsValue)
    : list (list JsValue) :=
  match input with
  | value :: rest =>
      match mapper source value with
      | Throw _ => []
      | Normal mapped =>
          if negb (truthy mapped) then
            batches BATCH_SIZE source stream rest batch
          else
            let batch := batch ++ [mapped] in
            if BATCH_SIZE <=? length batch then
              take BATCH_SIZE batch
              :: batches BATCH_SIZE source stream rest (drop BATCH_SIZE batch)
            else batches BATCH_SIZE source stream rest batch
      end
  | [] =>
      match iterator_end stream with
      | Throw _ => []
      | Normal _ =>
          if 0 <? length batch then [take (length batch) batch] else []
      end
  end.

(** The batches of one call of [ingestSource]. *)
Definition saveAll_calls (BATCH_SIZE : nat)
    (httpClient : string → Completion ResponseStream)
    (source : IngestionSource) : list (list JsValue) :=
  match httpClient (url source) with
  | Throw _ => []
  | Normal stream => batches BATCH_SIZE source stream (elements stream) []
  end.

(** The batches a suspended call has still to hand over. *)
Definition upcoming (BATCH_SIZE : nat) (r : Running) : list (list JsValue) :=
  match r_await r with
  | AwaitNext | AwaitThrottle =>
      batches BATCH_SIZE (r_source r) (r_stream r) (r_input r) (batch r)
  | AwaitDrain | AwaitFinished => []
  end.

(** The arguments of all the [saveAll] calls made, in call order. *)
Definition calls (l : list Save) : list (list JsValue) :=
  save_batch <$> filter (λ s, is_Some (save_call s)) l.

(** ** The log, level by level *)

Definition is_info (entry : LogEntry) : bool :=
  match entry with LogInfo _ => true | _ => false end.

Definition is_debug (entry : LogEntry) : bool :=
  match entry with LogDebug _ => true | _ => false end.

Definition starting (source : IngestionSource) : LogEntry :=
  LogInfo ("Starting ingestion for " +:+ name source).

Definition finishing (source : IngestionSource) : LogEntry :=
  LogInfo ("✅ Finished ingestion for " +:+ name source).

(** What one source leaves in the log at level [log]. *)
Definition info_entries (httpClient : string → Completion ResponseStream)
    (source : IngestionSource) : list LogEntry :=
  starting source ::
  match ingestSource_outcome httpClient source with
  | Normal _ => [finishing source]
  | Throw _ => []
  end.

(** The writes the repository has fulfilled, and what [saveBatch] logs for
    one of them (line 113). *)
Definition accepted (l : list Save) : list Save :=
  filter (λ s, save_call s = Some SaveAllResolves
               ∧ save_promise s = Fulfilled) l.

Definition saved_entry (s : Save) : LogEntry :=
  LogDebug ("Saved batch of " +:+ pretty (length (save_batch s))
            +:+ " records").

(** An entry at level [error]. *)
Definition silent (entry : LogEntry) : Prop :=
  is_info entry = false ∧ is_debug entry = false.

(** A write as [saveBatch] leaves it on return, for source [k]: handed to
    [saveAll] and not fulfilled by it yet. *)
Definition fresh (k : nat) (s : Save) : Prop :=
  save_source s = k ∧ is_Some (save_call s) ∧
  ¬ (save_call s = Some SaveAllResolves ∧ save_promise s = Fulfilled).

(** The writes of source [k] that are still unresolved. *)
Definition unobserved (k : nat) (l : list Save) : list Save :=
  filter (λ s, save_source s = k ∧ save_promise s = Pending) l.

(** What the [catch] clause of [ingestAll] adds to the log for a source that
    failed with [e], and what [ingestAll] has rejected with after it. *)
Definition caught_entries (source : IngestionSource) (e : JsValue)
    : list LogEntry :=
  match ingestAll_catch source e with
  | Normal entry => [entry]
  | Throw _ => []
  end.

Definition caught_thrown (source : IngestionSource) (e : JsValue)
    (thrown : option JsValue) : option JsValue :=
  match ingestAll_catch source e with
  | Normal _ => thrown
  | Throw e' => Some e'
  end.

(** ** Sizes *)

(** The records the running call holds: those in its buffer and those of
    the batches whose promises are in [pendingSaves]. *)
Definition held (σ : Store) (r : Running) : nat :=
  length (batch r)
  + sum_list ((λ id, from_option (λ s, length (save_batch s)) 0
                       (saves σ !! id)) <$> pendingSaves r).

(** The events an execution has still room for. *)
Definition work (httpClient : string → Completion ResponseStream)
    (st : State) : nat :=
  fuel httpClient st + length (pipelines st) + length (queue st).

(** ** More sources to run the service on *)

Module Edge.

Definition source_E :=
  {| name := "E"; url := "e"; mapper := Example.map_record |}.
Definition source_F :=
  {| name := "F"; url := "f"; mapper := Example.map_record |}.
Definition source_G :=
  {| name := "G"; url := "g"; mapper := Example.map_record |}.

(** Behind [e]: two records, after which the iterator reports completion
    and [finished] rejects.  Behind [g]: two elements to skip.  Nothing
    behind [f].  The other sources are those of [Example], with two records
    behind [a]. *)
Definition httpClient (url : string) : Completion ResponseStream :=
  if String.eqb url "e" then
    Normal {| elements := [Example.record; Example.record];
              iterator_end := Normal ();
              finished_result := Throw Example.hang_up |}
  else if String.eqb url "g" then
    Normal (Example.stream [JStr "x"; JStr "y"])
  else Example.httpClient 2 url.

(** An object without a prototype, [Object.create(null)]: [JSON.stringify]
    prints it as an empty object, and [String] throws a [TypeError] on
    it. *)
Definition no_primitive : JsValue :=
  JError "Cannot convert object to primitive value" "at String".

Definition bare : JsValue := JOpaque (Some "{}") no_primitive.

(** A mapper that passes the records on and throws [bare] on [null]. *)
Definition map_bare (value : JsValue) : Completion JsValue :=
  match value with
  | JNull => Throw bare
  | _ => Normal value
  end.

(** Source [H] reads what [A] reads: two records, then [null]. *)
Definition source_H := {| name := "H"; url := "a"; mapper := map_bare |}.

(** A repository whose first [saveAll] call rejects with [bare], and one
    whose first call throws it. *)
Definition rejecting (id : nat) (batch : list JsValue) : SaveAll :=
  if id =? 0 then SaveAllRejects bare else SaveAllResolves.

Definition throwing (id : nat) (batch : list JsValue) : SaveAll :=
  if id =? 0 then SaveAllThrows bare else SaveAllResolves.

End Edge.

(** * Properties *)

(** ** Lists of batches *)

Lemma records_app source l1 l2 :
  records source (l1 ++ l2) = records source l1 ++ records source l2.
Proof. unfold records. apply flat_map_app. Qed.

Lemma written_app k l1 l2 : written k (l1 ++ l2) = written k l1 ++ written k l2.
Proof. unfold written. by rewrite filter_app, fmap_app. Qed.

Lemma written_other k l :
  (∀ s, s ∈ l → save_source s ≠ k) → written k l = [].
Proof.
  induction l as [|s l IH]; intros Hl; [done|].
  unfold written. rewrite filter_cons_False.
  - apply IH. intros s' Hs'. apply Hl. by right.
  - intros [Hk _]. by apply (Hl s); [left|].
Qed.

Lemma written_singleton k s :
  save_source s = k → is_Some (save_call s) → written k [s] = [save_batch s].
Proof. intros Hk Hc. unfold written. by rewrite filter_cons_True. Qed.

(** Settling a write changes neither what was written nor for whom. *)
Lemma written_insert k l id s s' :
  l !! id = Some s →
  save_source s' = save_source s → save_batch s' = save_batch s →
  save_call s' = save_call s →
  written k (<[id := s']> l) = written k l.
Proof.
  intros Hid Hsrc Hb Hc. revert id Hid.
  induction l as [|x l IH]; intros [|id] Hid; simplify_eq/=; [|].
  - unfold written. rewrite !filter_cons, Hsrc, Hc.
    case_decide; simpl; by rewrite ?Hb.
  - unfold written in *. rewrite !filter_cons.
    case_decide; simpl; by rewrite IH.
Qed.

Lemma resolved_app k l1 l2 : resolved k l1 → resolved k l2 → resolved k (l1 ++ l2).
Proof. unfold resolved. by rewrite Forall_app. Qed.

Lemma resolved_insert k l id s' :
  resolved k l → save_promise s' ≠ Pending → resolved k (<[id := s']> l).
Proof. unfold resolved. intros Hl Hs'. apply Forall_insert; auto. Qed.

Lemma batched_full {A} size (bs : list (list A)) :
  0 < size → Forall (λ b, length b = size) bs → batched size bs.
Proof.
  intros Hsize Hbs. split.
  - eapply Forall_impl; [exact Hbs|]. simpl. lia.
  - intros i b Hi _. by eapply (Forall_lookup_1 _ _ _ _ Hbs).
Qed.

Lemma batched_snoc {A} size (bs : list (list A)) b :
  Forall (λ b, length b = size) bs → 0 < length b ≤ size →
  batched size (bs ++ [b]).
Proof.
  intros Hbs Hb. split.
  - apply Forall_app. split; [|by constructor].
    eapply Forall_impl; [exact Hbs|]. simpl. lia.
  - intros i b' Hi Hlen. rewrite length_app in Hlen. simpl in Hlen.
    rewrite lookup_app_l in Hi by lia.
    by eapply (Forall_lookup_1 _ _ _ _ Hbs).
Qed.

(** The sizes of the batches add up: all but the last are full. *)
Lemma batched_length {A} size (bs : list (list A)) b :
  batched size (bs ++ [b]) →
  length (concat (bs ++ [b])) = size * length bs + length b.
Proof.
  intros [_ Hfull]. rewrite concat_app, length_app. simpl.
  rewrite length_app. simpl. rewrite Nat.add_0_r. f_equal.
  assert (Forall (λ b', length b' = size) bs) as Hbs.
  { apply Forall_lookup_2. intros i b' Hi. apply (Hfull i).
    - by apply lookup_app_l_Some.
    - apply lookup_lt_Some in Hi. rewrite length_app. simpl. lia. }
  clear Hfull. induction Hbs as [|b' bs Hb' _ IH]; simpl; [lia|].
  rewrite length_app, IH, Hb'. lia.
Qed.

(** The sizes of the batches, from the number of records. *)
Lemma batched_sizes {A} size (bs : list (list A)) :
  batched size bs →
  (length (concat bs) `mod` size = 0 →
     Forall (λ b, length b = size) bs) ∧
  (length (concat bs) `mod` size ≠ 0 →
     ∃ b, last bs = Some b ∧
          length b = length (concat bs) `mod` size).
Proof.
  intros Hbs. destruct bs as [|b0 bs0] using rev_ind.
  { simpl. rewrite Nat.Div0.mod_0_l. by split. }
  clear IHbs0. rename b0 into b, bs0 into bs.
  pose proof (batched_length _ _ _ Hbs) as Hlen.
  destruct Hbs as [Hall Hfull].
  apply Forall_app in Hall as [_ Hb]. apply Forall_inv in Hb.
  simpl in Hb.
  assert (Forall (λ b', length b' = size) bs) as Hbs.
  { apply Forall_lookup_2. intros i b' Hi. apply (Hfull i).
    - by apply lookup_app_l_Some.
    - apply lookup_lt_Some in Hi. rewrite length_app. simpl. lia. }
  rewrite Hlen, last_snoc.
  rewrite (Nat.add_comm _ (length b)), (Nat.mul_comm size).
  rewrite Nat.Div0.mod_add.
  destruct (decide (length b = size)) as [Heq|Hne].
  - rewrite Heq, Nat.Div0.mod_same. split; [|done].
    intros _. apply Forall_app. split; [done|by constructor].
  - rewrite Nat.mod_small by lia. split; [lia|]. intros _. by exists b.
Qed.

(** ** What one step does to the store *)

Section Writes.

Variable repository : nat → list JsValue → SaveAll.

Local Abbreviation saveBatch := (saveBatch repository).

(** [saveBatch] adds one entry to [saves]; a non-empty batch goes to
    [saveAll], and the promise returned is pending or fulfilled. *)
Lemma saveBatch_spec src b σ σ' id :
  saveBatch src b σ = (σ', id) →
  id = length (saves σ) ∧
  ∃ s entries,
    saves σ' = saves σ ++ [s] ∧ log σ' = log σ ++ entries ∧
    save_source s = src ∧ save_batch s = b ∧ promise_wf s ∧
    (0 < length b → save_call s = Some (repository id b)).
Proof.
  unfold saveBatch, promise_wf. intros Hsave.
  destruct (length b =? 0) eqn:Hlen.
  - simplify_eq. split; [done|]. eexists _, []. simpl.
    rewrite app_nil_r. apply Nat.eqb_eq in Hlen. repeat split; lia.
  - destruct (repository (length (saves σ)) b) eqn:Hrepo.
    + unfold saveBatch_caught in Hsave.
      destruct (saveBatch_catch error) as [entry|reason] eqn:Hcatch;
        simplify_eq; (split; [done|]).
      * eexists _, [_]. simpl. by rewrite Hrepo.
      * eexists _, []. simpl. rewrite app_nil_r, Hrepo.
        split_and!; try done. exists error. split; [by left|done].
    + simplify_eq. split; [done|].
      eexists _, []. simpl. by rewrite app_nil_r, Hrepo.
    + simplify_eq. split; [done|].
      eexists _, []. simpl. by rewrite app_nil_r, Hrepo.
Qed.

Lemma extends_refl k σ : extends k σ σ.
Proof. exists [], []. by rewrite !app_nil_r. Qed.

Lemma extends_logger k entries σ : extends k σ (logger entries σ).
Proof. exists [], entries. simpl. by rewrite app_nil_r. Qed.

End Writes.


Section Steps.

Variable BATCH_SIZE : nat.
Variable MAX_CONCURRENT_BATCHES : nat.
Variable httpClient : string → Completion ResponseStream.
Variable repository : nat → list JsValue → SaveAll.
Variable sources : list IngestionSource.

Hypothesis BATCH_SIZE_pos : 0 < BATCH_SIZE.
Hypothesis MAX_CONCURRENT_BATCHES_pos : 0 < MAX_CONCURRENT_BATCHES.

Local Abbreviation saveBatch := (saveBatch repository).
Local Abbreviation submit := (submit repository).
Local Abbreviation ingestSource :=
  (ingestSource BATCH_SIZE MAX_CONCURRENT_BATCHES repository).
Local Abbreviation ingestAll :=
  (ingestAll BATCH_SIZE MAX_CONCURRENT_BATCHES httpClient repository).
Local Abbreviation step :=
  (step BATCH_SIZE MAX_CONCURRENT_BATCHES httpClient repository).
Local Abbreviation exec :=
  (exec BATCH_SIZE MAX_CONCURRENT_BATCHES httpClient repository).
Local Abbreviation save_wf := (save_wf BATCH_SIZE repository).
Local Abbreviation frame_inv :=
  (frame_inv BATCH_SIZE MAX_CONCURRENT_BATCHES httpClient).
Local Abbreviation done_inv := (done_inv BATCH_SIZE httpClient sources).
Local Abbreviation invariant :=
  (invariant BATCH_SIZE MAX_CONCURRENT_BATCHES httpClient repository sources).

(** A write submitted by the call for source [k]. *)
Lemma saveBatch_frame k b σ σ' id (pending : list nat) :
  saveBatch k b σ = (σ', id) →
  0 < length b ≤ BATCH_SIZE →
  (∀ id s, saves σ !! id = Some s → save_wf id s) →
  (∀ id s, saves σ !! id = Some s → save_source s = k →
           id ∈ pending ∨ save_promise s ≠ Pending) →
  extends k σ σ' ∧
  (∀ id s, saves σ' !! id = Some s → save_wf id s) ∧
  written k (saves σ') = written k (saves σ) ++ [b] ∧
  (∀ id' s, saves σ' !! id' = Some s → save_source s = k →
            id' ∈ pending ++ [id] ∨ save_promise s ≠ Pending).
Proof.
  intros Hsave Hb Hwf Hpend.
  apply saveBatch_spec in Hsave
    as (-> & s & entries & Hsaves & Hlog & Hsrc & Hbatch & Hprom & Hcall).
  specialize (Hcall ltac:(lia)).
  split; [|split; [|split]].
  - exists [s], entries. by repeat constructor.
  - intros id s' Hid. rewrite Hsaves in Hid.
    apply lookup_app_Some in Hid as [Hid|[Hge Hid]]; [by apply Hwf|].
    apply list_lookup_singleton_Some in Hid as [Hid ->].
    assert (id = length (saves σ)) as -> by lia.
    unfold save_wf. by rewrite Hbatch.
  - rewrite Hsaves, written_app, written_singleton; by rewrite ?Hbatch, ?Hcall.
  - intros id s' Hid Hk. rewrite Hsaves in Hid.
    apply lookup_app_Some in Hid as [Hid|[Hge Hid]].
    + destruct (Hpend _ _ Hid Hk); [left|by right].
      apply elem_of_app. by left.
    + apply list_lookup_singleton_Some in Hid as [Hid ->].
      left. apply elem_of_app. right. apply list_elem_of_singleton. lia.
Qed.

(** Once [allSettled] holds the list can be emptied: its writes are
    resolved. *)
Lemma allSettled_resolved k σ (pending : list nat) :
  allSettled σ pending = true →
  (∀ id s, saves σ !! id = Some s → save_wf id s) →
  (∀ id s, saves σ !! id = Some s → save_source s = k →
           id ∈ pending ∨ save_promise s ≠ Pending) →
  ∀ id s, saves σ !! id = Some s → save_source s = k →
          id ∈ [] ∨ save_promise s ≠ Pending.
Proof.
  intros Hall Hwf Hpend id s Hid Hk. right.
  destruct (Hpend _ _ Hid Hk) as [Hin|]; [|done].
  unfold allSettled in Hall. rewrite forallb_forall in Hall.
  apply list_elem_of_In, Hall in Hin. unfold settled in Hin.
  rewrite Hid in Hin. by destruct (save_promise s).
Qed.

Lemma ingest_outcome_cons source stream value rest mapped :
  mapper source value = Normal mapped →
  ingest_outcome source stream (value :: rest)
  = ingest_outcome source stream rest.
Proof. intros Hmap. simpl. by rewrite Hmap. Qed.

Lemma records_snoc source consumed value mapped :
  mapper source value = Normal mapped →
  records source (consumed ++ [value])
  = records source consumed ++ (if truthy mapped then [mapped] else []).
Proof.
  intros Hmap. rewrite records_app. unfold records at 2. simpl.
  by rewrite Hmap, app_nil_r.
Qed.

(** One resumption of [ingestSource] keeps the invariant of its frame, and
    a call that ends has done what [done_inv] asks. *)
Lemma ingestSource_invariant k σ r σ' ctl :
  (∀ id s, saves σ !! id = Some s → save_wf id s) →
  frame_inv k (saves σ) r →
  ingestSource k σ r = Some (σ', ctl) →
  extends k σ σ' ∧
  (∀ id s, saves σ' !! id = Some s → save_wf id s) ∧
  match ctl with
  | Continue r' =>
      r_source r' = r_source r ∧ frame_inv k (saves σ') r'
  | Return =>
      ingest_outcome (r_source r) (r_stream r) (elements (r_stream r))
      = Normal () ∧
      concat (written k (saves σ'))
      = records (r_source r) (elements (r_stream r)) ∧
      batched BATCH_SIZE (written k (saves σ')) ∧
      resolved k (saves σ')
  | Raise e =>
      ingest_outcome (r_source r) (r_stream r) (elements (r_stream r))
      = Throw e
  end.
Proof.
  intros Hwf (Hhttp & Hpend & Hawait) Hstep.
  unfold ingestSource in Hstep.
  destruct (r_await r) eqn:Haw.
  - (* awaiting the next element *)
    destruct Hawait as (Hlen & consumed & Hel & Hrec & Hfull & Hbatch & Hout).
    destruct (r_input r) as [|value rest] eqn:Hin.
    + (* the iteration is over *)
      rewrite app_nil_r in Hel. subst consumed. simpl in Hout.
      destruct (iterator_end (r_stream r)) as [[]|e] eqn:Hend; simplify_eq.
      2:{ split; [apply extends_refl|]. by split. }
      destruct (0 <? length (batch r)) eqn:Hnonempty.
      * apply Nat.ltb_lt in Hnonempty.
        unfold submit in Hstep.
        destruct (saveBatch _ _ _) as [σ1 id] eqn:Hsave. simplify_eq.
        rewrite firstn_all in Hsave.
        eapply saveBatch_frame in Hsave as (Hext & Hwf' & Hwr & Hpend');
          [|lia|done..].
        split; [done|]. split; [done|]. split; [done|].
        unfold frame_inv, end_inv; simpl.
        rewrite Hwr, concat_app, length_app, drop_all; simpl.
        rewrite app_nil_r.
        split_and!; [done|done|lia|done|done|done| |done].
        apply batched_snoc; [done|lia].
      * apply Nat.ltb_ge in Hnonempty.
        assert (batch r = []) as Hnil by (apply length_zero_iff_nil; lia).
        simplify_eq. rewrite Hnil, app_nil_r in Hrec.
        split; [apply extends_refl|]. split; [done|]. split; [done|].
        unfold frame_inv, end_inv; simpl.
        split_and!; [done|done|lia|done|done|done| |done].
        by apply batched_full.
    + (* the next element *)
      destruct (mapper (r_source r) value) as [mapped|e] eqn:Hmap.
      2:{ simplify_eq. split; [apply extends_refl|]. split; [done|].
          rewrite <- Hout. simpl. by rewrite Hmap. }
      assert (elements (r_stream r) = (consumed ++ [value]) ++ rest) as Hel'
        by by rewrite <- app_assoc.
      pose proof (records_snoc _ consumed _ _ Hmap) as Hsnoc.
      erewrite ingest_outcome_cons in Hout by done.
      destruct (truthy mapped) eqn:Htruthy; simpl in Hstep.
      * destruct (BATCH_SIZE <=? length (batch r ++ [mapped])) eqn:Hfullb.
        -- apply Nat.leb_le in Hfullb. rewrite length_app in Hfullb.
           simpl in Hfullb.
           unfold submit in Hstep.
           destruct (saveBatch _ _ _) as [σ1 id] eqn:Hsave.
           eapply saveBatch_frame in Hsave as (Hext & Hwf' & Hwr & Hpend');
             [| |done..].
           2:{ rewrite length_take, length_app. simpl. lia. }
           assert (loop_inv BATCH_SIZE k (saves σ1)
             {| r_source := r_source r; r_stream := r_stream r;
                r_input := rest;
                batch := drop BATCH_SIZE (batch r ++ [mapped]);
                pendingSaves := pendingSaves r ++ [id];
                r_await := AwaitNext |}) as Hloop.
           { exists (consumed ++ [value]). simpl.
             rewrite Hwr, concat_app. simpl.
             rewrite (app_nil_r (take _ _)), <- (app_assoc (concat _)).
             rewrite take_drop, app_assoc, Hrec, Hsnoc.
             rewrite length_drop, length_app. simpl.
             split_and!; [done|done| |lia|done].
             apply Forall_app. split; [done|]. constructor; [|done].
             rewrite length_take, length_app. simpl. lia. }
           destruct (MAX_CONCURRENT_BATCHES <=? length (pendingSaves r ++ [id]))
             eqn:Hceil; simplify_eq;
             (split; [done|]); (split; [done|]); (split; [done|]);
             unfold frame_inv; simpl;
             (split; [done|]); (split; [done|]); (split; [|exact Hloop]).
           ++ apply Nat.leb_le in Hceil. rewrite length_app in *.
              simpl in *. lia.
           ++ by apply Nat.leb_gt in Hceil.
        -- apply Nat.leb_gt in Hfullb. simplify_eq.
           split; [apply extends_refl|]. split; [done|]. split; [done|].
           unfold frame_inv; simpl.
           split_and!; [done|done|done|].
           exists (consumed ++ [value]). simpl.
           by rewrite app_assoc, Hrec, Hsnoc.
      * simplify_eq.
        split; [apply extends_refl|]. split; [done|]. split; [done|].
        unfold frame_inv; simpl.
        split_and!; [done|done|done|].
        exists (consumed ++ [value]). simpl.
        by rewrite Hsnoc, app_nil_r.
  - (* awaiting the flush inside the loop *)
    unfold flushPending in Hstep.
    destruct (allSettled σ (pendingSaves r)) eqn:Hall; simplify_eq.
    destruct Hawait as (Hlen & consumed & Hloop).
    split; [apply extends_refl|]. split; [done|]. split; [done|].
    unfold frame_inv; simpl.
    split; [done|]. split; [by eapply allSettled_resolved|].
    split; [done|]. by exists consumed.
  - (* awaiting the flush after the loop *)
    unfold flushPending in Hstep.
    destruct (allSettled σ (pendingSaves r)) eqn:Hall; simplify_eq.
    destruct Hawait as (Hlen & Hin & Hnil & Hrec & Hbatched & Hout).
    split; [apply extends_refl|]. split; [done|]. split; [done|].
    unfold frame_inv, end_inv; simpl.
    split; [done|]. split; [by eapply allSettled_resolved|]. done.
  - (* awaiting the end of the response stream *)
    destruct Hawait as (Hnone & Hin & Hnil & Hrec & Hbatched & Hout).
    destruct (finished_result (r_stream r)) as [[]|e] eqn:Hfin; simplify_eq.
    + split; [apply extends_logger|]. split; [done|]. simpl.
      split_and!; [done|done|done|].
      apply Forall_lookup_2. intros id s Hid Hk.
      destruct (Hpend _ _ Hid Hk) as [Hin'|]; [|done].
      rewrite Hnone in Hin'. by apply elem_of_nil in Hin'.
    + split; [apply extends_refl|]. by split.
Qed.

(** What is known of a call that is over stays true while later calls
    run. *)
Lemma done_inv_extends k k' o σ σ' :
  k' ≠ k → extends k σ σ' → done_inv k' o σ → done_inv k' o σ'.
Proof.
  intros Hk (new & entries & Hsaves & Hlog & Hnew) (source & Hsrc & Ho & Hdone).
  exists source. split; [done|]. split; [done|].
  destruct o as [[]|e].
  - destruct Hdone as (stream & Hhttp & Hrec & Hbatched & Hres).
    assert (written k' new = []) as Hnil.
    { apply written_other. intros s Hs.
      rewrite Forall_forall in Hnew. rewrite (Hnew s Hs). lia. }
    exists stream. rewrite Hsaves, written_app, Hnil, app_nil_r.
    split_and!; [done..|].
    apply resolved_app; [done|].
    eapply Forall_impl; [exact Hnew|]. simpl. intros s <- ?. done.
  - intros entry Hentry. rewrite Hlog. apply elem_of_app. left. by apply Hdone.
Qed.

Lemma done_inv_logger k o entries σ :
  done_inv k o σ → done_inv k o (logger entries σ).
Proof.
  intros Hdone. apply (done_inv_extends (S k) k o σ); [lia| |done].
  apply extends_logger.
Qed.

Lemma frame_inv_insert k l r id s s' :
  l !! id = Some s →
  save_source s' = save_source s → save_batch s' = save_batch s →
  save_call s' = save_call s → save_promise s' ≠ Pending →
  frame_inv k l r → frame_inv k (<[id := s']> l) r.
Proof.
  intros Hid Hsrc Hb Hc Hprom (Hhttp & Hpend & Hawait).
  split; [done|]. split.
  - intros id' s0 Hid' Hk.
    apply list_lookup_insert_Some in Hid' as [(-> & -> & _)|[Hne Hid']].
    + by right.
    + by eapply Hpend.
  - unfold loop_inv, end_inv in *.
    by rewrite (written_insert _ _ _ _ _ Hid Hsrc Hb Hc).
Qed.

Lemma done_inv_insert k o σ id s s' entries :
  saves σ !! id = Some s →
  save_source s' = save_source s → save_batch s' = save_batch s →
  save_call s' = save_call s → save_promise s' ≠ Pending →
  done_inv k o σ →
  done_inv k o {| saves := <[id := s']> (saves σ); log := log σ ++ entries |}.
Proof.
  intros Hid Hsrc Hb Hc Hprom (source & Hs & Ho & Hdone).
  exists source. split; [done|]. split; [done|]. simpl.
  destruct o as [[]|e].
  - destruct Hdone as (stream & Hhttp & Hrec & Hbatched & Hres).
    exists stream. rewrite (written_insert _ _ _ _ _ Hid Hsrc Hb Hc).
    split_and!; [done..|]. by apply resolved_insert.
  - intros entry Hentry. apply elem_of_app. left. by apply Hdone.
Qed.

(** The rest of a [saveBatch] call: the promise it returned settles, as
    fulfilled unless the [catch] clause throws. *)
Lemma saveBatch_resume_spec s s' entries :
  saveBatch_resume s = Some (s', entries) →
  save_promise s = Pending ∧
  save_source s' = save_source s ∧ save_batch s' = save_batch s ∧
  save_call s' = save_call s ∧ save_promise s' ≠ Pending ∧
  (promise_wf s → promise_wf s').
Proof.
  unfold saveBatch_resume, saveBatch_caught, promise_wf. intros Hres.
  destruct (save_promise s) eqn:Hprom; try done.
  destruct (save_call s) as [[error|     |error]|] eqn:Hcall; try done.
  - simplify_eq. by simpl.
  - destruct (saveBatch_catch error) as [entry|reason] eqn:Hcatch;
      simplify_eq; simpl; split_and!; try done.
    intros _. exists error. split; [by right|done].
Qed.

(** The writes the repository can settle. *)
Lemma settle_spec id st st' :
  settle id st = Some st' →
  ∃ s s' entries,
    saves (store st) !! id = Some s ∧ save_promise s = Pending ∧
    saveBatch_resume s = Some (s', entries) ∧
    save_source s' = save_source s ∧ save_batch s' = save_batch s ∧
    save_call s' = save_call s ∧ save_promise s' ≠ Pending ∧
    st' = {| store := {| saves := <[id := s']> (saves (store st));
                         log := log (store st) ++ entries |};
             queue := queue st; current := current st;
             outcomes := outcomes st; pipelines := pipelines st;
             thrown := thrown st |}.
Proof.
  unfold settle. intros Hsettle.
  destruct (saves (store st) !! id) as [s|] eqn:Hid; [|done].
  destruct (saveBatch_resume s) as [[s' entries]|] eqn:Hres; [|done].
  simplify_eq. exists s, s', entries.
  destruct (saveBatch_resume_spec _ _ _ Hres) as (? & ? & ? & ? & ? & _).
  by split_and!.
Qed.

Lemma invariant_initial : invariant (initial sources).
Proof.
  split; simpl.
  - by exists [].
  - intros id s Hid. by rewrite lookup_nil in Hid.
  - done.
  - intros k o Hk. by rewrite lookup_nil in Hk.
  - intros k source Hk. lia.
Qed.

Lemma invariant_settle id st st' :
  invariant st → settle id st = Some st' → invariant st'.
Proof.
  intros [Hord Hsaves Hframe Hdone Hthrown] Hsettle.
  apply settle_spec in Hsettle
    as (s & s' & entries & Hid & Hpend & Hres & Hsrc & Hb & Hc & Hprom & ->).
  split; simpl.
  - done.
  - intros id' s0 Hid'.
    apply list_lookup_insert_Some in Hid' as [(-> & -> & _)|[Hne Hid']];
      [|by apply Hsaves].
    destruct (Hsaves _ _ Hid) as [(Hlen & Hcall & Hwf) Htag].
    destruct (saveBatch_resume_spec _ _ _ Hres) as (_ & _ & _ & _ & _ & Hwf').
    unfold save_wf. rewrite Hsrc, Hb, Hc. split; [|done].
    split; [done|]. split; [done|]. by apply Hwf'.
  - intros r Hr. by eapply frame_inv_insert; [..|apply Hframe].
  - intros k o Hk. by eapply done_inv_insert; [..|apply Hdone].
  - done.
Qed.

Lemma invariant_pipelineDone i err st st' :
  invariant st → pipelineDone i err st = Some st' → invariant st'.
Proof.
  intros [Hord Hsaves Hframe Hdone Hthrown]. unfold pipelineDone.
  destruct (pipelines st !! i); [|done]. intros; simplify_eq.
  split; simpl; [done..| |done].
  intros k o Hk. by apply done_inv_logger, Hdone.
Qed.

Lemma extends_tags k n σ σ' :
  extends k σ σ' → k < n →
  (∀ id s, saves σ !! id = Some s → save_source s < n) →
  ∀ id s, saves σ' !! id = Some s → save_source s < n.
Proof.
  intros (new & entries & Hsaves & _ & Hnew) Hk Hold id s Hid.
  rewrite Hsaves in Hid. apply lookup_app_Some in Hid as [Hid|[_ Hid]].
  - by eapply Hold.
  - rewrite Forall_lookup in Hnew. by rewrite (Hnew _ _ Hid).
Qed.

(** What the [catch] clause of [ingestAll] leaves: the call is over with a
    throw; the entry is logged, or [ingestAll] has rejected. *)
Lemma caught_spec st σ queue source e :
  ∃ entries thrown',
    caught st σ queue source e
    = {| store := logger entries σ; queue := queue; current := None;
         outcomes := outcomes st ++ [Throw e]; pipelines := pipelines st;
         thrown := thrown' |} ∧
    match ingestAll_catch source e with
    | Normal entry => entries = [entry] ∧ thrown' = thrown st
    | Throw e' => entries = [] ∧ thrown' = Some e'
    end.
Proof.
  unfold caught. destruct (ingestAll_catch source e) as [entry|e'].
  - by exists [entry], (thrown st).
  - exists [], (Some e'). split; [|done]. unfold logger. simpl.
    rewrite app_nil_r. by destruct σ.
Qed.

Lemma caught_eq st σ queue source e :
  caught st σ queue source e
  = {| store := logger (caught_entries source e) σ; queue := queue;
       current := None; outcomes := outcomes st ++ [Throw e];
       pipelines := pipelines st;
       thrown := caught_thrown source e (thrown st) |}.
Proof.
  unfold caught, caught_entries, caught_thrown.
  destruct (ingestAll_catch source e); [done|].
  unfold logger. simpl. rewrite app_nil_r. by destruct σ.
Qed.


Lemma outcomes_caught st σ queue source e :
  outcomes (caught st σ queue source e) = outcomes st ++ [Throw e].
Proof. unfold caught. by destruct (ingestAll_catch source e). Qed.

Lemma current_caught st σ queue source e :
  current (caught st σ queue source e) = None.
Proof. unfold caught. by destruct (ingestAll_catch source e). Qed.

Lemma queue_caught st σ queue' source e :
  queue (caught st σ queue' source e) = queue'.
Proof. unfold caught. by destruct (ingestAll_catch source e). Qed.

Lemma pipelines_caught st σ queue source e :
  pipelines (caught st σ queue source e) = pipelines st.
Proof. unfold caught. by destruct (ingestAll_catch source e). Qed.

Lemma log_caught st σ queue source e :
  log (store (caught st σ queue source e))
  = log σ ++ match ingestAll_catch source e with
             | Normal entry => [entry]
             | Throw _ => []
             end.
Proof.
  unfold caught. destruct (ingestAll_catch source e); simpl; [done|].
  by rewrite app_nil_r.
Qed.

(** [ingestAll] takes no step once it has rejected. *)
Lemma ingestAll_thrown st st' :
  invariant st → ingestAll st = Some st' → thrown st = None.
Proof.
  intros [_ _ _ _ Hthrown] Hres. unfold ingestAll in Hres.
  destruct (thrown st) as [e'|]; [|done].
  destruct Hthrown as (Hcur & _). by rewrite Hcur in Hres.
Qed.

(** The invariant once the call for the source at the head has thrown. *)
Lemma invariant_caught st σ done source rest e :
  sources = done ++ source :: rest →
  length done = length (outcomes st) →
  thrown st = None →
  (∀ k source, k < length (outcomes st) → sources !! k = Some source →
     loggable httpClient source) →
  (∀ id s, saves σ !! id = Some s →
     save_wf id s ∧ save_source s < length (outcomes st) + 1) →
  (∀ k o, outcomes st !! k = Some o → done_inv k o σ) →
  ingestSource_outcome httpClient source = Throw e →
  invariant (caught st σ rest source e).
Proof.
  intros Hord Hlen Hnone Hlog Hsaves Hdone Hout.
  assert (sources !! length (outcomes st) = Some source) as Hsrc.
  { rewrite Hord. by apply list_lookup_middle. }
  destruct (caught_spec st σ rest source e)
    as (entries & thrown' & -> & Hcatch).
  split; simpl.
  - exists (done ++ [source]).
    rewrite <- app_assoc, length_app, length_app. simpl. split; [done|lia].
  - intros id s Hid. rewrite length_app. simpl. rewrite Nat.add_0_r.
    by apply Hsaves.
  - done.
  - intros k o Hk.
    apply lookup_snoc_Some in Hk as [[_ Hk]|[-> <-]];
      [by apply done_inv_logger, Hdone|].
    exists source. split; [done|]. split; [done|].
    intros entry Hentry. simpl. rewrite Hentry in Hcatch.
    destruct Hcatch as [-> _]. apply elem_of_app. right. by left.
  - rewrite length_app. simpl.
    destruct (ingestAll_catch source e) as [entry|e'] eqn:Hentry.
    + destruct Hcatch as [_ ->]. rewrite Hnone.
      intros k source' Hk Hk'.
      destruct (decide (k = length (outcomes st))) as [->|Hne].
      * rewrite Hsrc in Hk'. simplify_eq.
        unfold loggable. by rewrite Hout, Hentry.
      * apply (Hlog k); [lia|done].
    + destruct Hcatch as [_ ->]. split; [done|].
      exists (length (outcomes st)), source, e.
      split_and!; [lia|done..].
Qed.

Lemma invariant_resume st st' :
  invariant st → ingestAll st = Some st' → invariant st'.
Proof.
  intros Hinv Hres. pose proof (ingestAll_thrown _ _ Hinv Hres) as Hnone.
  destruct Hinv as [(done & Hord & Hlen) Hsaves Hframe Hdone Hthrown].
  rewrite Hnone in Hthrown.
  unfold ingestAll in Hres. rewrite Hnone in Hres.
  destruct (current st) as [r|] eqn:Hcur; simpl in *.
  - (* the running call goes on *)
    specialize (Hframe r eq_refl).
    assert (sources !! length (outcomes st) = Some (r_source r)) as Hsrc.
    { rewrite Hord. by apply list_lookup_middle. }
    destruct (ingestSource _ _ _) as [[σ' ctl]|] eqn:Hstep; [|done].
    apply ingestSource_invariant in Hstep as (Hext & Hwf' & Hctl);
      [|intros id s Hid; by destruct (Hsaves _ _ Hid)|done].
    assert (∀ id s, saves σ' !! id = Some s →
                    save_source s < length (outcomes st) + 1) as Htags.
    { eapply extends_tags; [done|lia|].
      intros id s Hid. by destruct (Hsaves _ _ Hid). }
    assert (∀ k o, outcomes st !! k = Some o → done_inv k o σ') as Hdone'.
    { intros k o Hk. eapply done_inv_extends; [|done|by apply Hdone].
      apply lookup_lt_Some in Hk. lia. }
    destruct Hframe as (Hhttp & _).
    destruct ctl as [r'| |e]; injection Hres as <-.
    + split; simpl.
      * exists done. destruct Hctl as [-> _]. done.
      * intros id s Hid. split; [by apply Hwf'|by eapply Htags].
      * intros ? [= <-]. apply Hctl.
      * done.
      * done.
    + split; simpl.
      * exists (done ++ [r_source r]).
        rewrite <- app_assoc, length_app, length_app. simpl.
        split; [done|lia].
      * intros id s Hid. split; [by apply Hwf'|].
        rewrite length_app. simpl. rewrite Nat.add_0_r. by eapply Htags.
      * done.
      * intros k o Hk.
        apply lookup_snoc_Some in Hk as [[_ Hk]|[-> <-]]; [by apply Hdone'|].
        destruct Hctl as (Hout & Hrec & Hbatched & Hresolved).
        exists (r_source r). split; [done|]. split.
        { unfold ingestSource_outcome. by rewrite Hhttp, Hout. }
        by exists (r_stream r).
      * rewrite length_app. simpl. intros k source Hk Hk'.
        destruct (decide (k = length (outcomes st))) as [->|Hne].
        -- rewrite Hsrc in Hk'. simplify_eq.
           unfold loggable, ingestSource_outcome.
           destruct Hctl as (Hout & _). by rewrite Hhttp, Hout.
        -- apply (Hthrown k); [lia|done].
    + eapply invariant_caught; try done.
      * intros id s Hid. split; [by apply Hwf'|by eapply Htags].
      * unfold ingestSource_outcome. by rewrite Hhttp, Hctl.
  - (* the loop takes the next source *)
    destruct (queue st) as [|source rest] eqn:Hq; [done|].
    assert (sources !! length (outcomes st) = Some source) as Hsrc.
    { rewrite Hord. by apply list_lookup_middle. }
    assert (∀ id s, saves (store st) !! id = Some s →
                    save_source s ≠ length (outcomes st)) as Htags.
    { intros id s Hid. destruct (Hsaves _ _ Hid). lia. }
    destruct (httpClient (url source)) as [responseStream|e] eqn:Hhttp;
      injection Hres as <-.
    + split; simpl.
      * by exists done.
      * intros id s Hid. destruct (Hsaves _ _ Hid). split; [done|lia].
      * intros ? [= <-]. split; [done|]. split.
        { intros id s Hid Hk. by destruct (Htags _ _ Hid). }
        simpl. split; [done|]. exists []. simpl.
        rewrite written_other.
        -- by split_and!.
        -- intros s Hs. apply list_elem_of_lookup in Hs as [id Hid].
           by eapply Htags.
      * intros k o Hk. by apply done_inv_logger, Hdone.
      * done.
    + eapply invariant_caught; try done.
      * intros id s Hid. simpl in Hid. destruct (Hsaves _ _ Hid).
        split; [done|lia].
      * intros k o Hk. by apply done_inv_logger, Hdone.
      * unfold ingestSource_outcome. by rewrite Hhttp.
Qed.

Lemma invariant_step st ev st' :
  invariant st → step st ev = Some st' → invariant st'.
Proof.
  destruct ev; simpl.
  - apply invariant_resume.
  - apply invariant_settle.
  - apply invariant_pipelineDone.
Qed.

(** The invariant holds in every state of every execution. *)
Lemma invariant_exec st evs st' :
  invariant st → exec st evs = Some st' → invariant st'.
Proof.
  revert st. induction evs as [|ev evs IH]; intros st Hinv Hexec; simpl in *.
  - by simplify_eq.
  - destruct (step st ev) as [st1|] eqn:Hstep; [|done].
    eapply IH; [|done]. by eapply invariant_step.
Qed.

Lemma exec_app st evs1 evs2 :
  exec st (evs1 ++ evs2) = exec st evs1 ≫= λ st1, exec st1 evs2.
Proof.
  revert st. induction evs1 as [|ev evs1 IH]; intros st; simpl; [done|].
  by destruct (step st ev).
Qed.

(** ** Progress: the scheduler brings every execution to its end *)

Local Abbreviation next_event :=
  (next_event BATCH_SIZE MAX_CONCURRENT_BATCHES httpClient repository).
Local Abbreviation run :=
  (run BATCH_SIZE MAX_CONCURRENT_BATCHES httpClient repository).
Local Abbreviation fuel := (fuel httpClient).

Lemma in_flight_snoc l s : in_flight (l ++ [s]) ≤ in_flight l + 1.
Proof.
  unfold in_flight. rewrite List.filter_app, length_app. simpl.
  destruct (is_pending s); simpl; lia.
Qed.

Lemma in_flight_insert l id s s' :
  l !! id = Some s → is_pending s = true → is_pending s' = false →
  in_flight (<[id := s']> l) + 1 = in_flight l.
Proof.
  unfold in_flight. intros Hid Hs Hs'. revert id Hid.
  induction l as [|x l IH]; intros [|id] Hid; simplify_eq/=.
  - rewrite Hs, Hs'. simpl. lia.
  - destruct (is_pending x); simpl; rewrite <- (IH id); auto.
Qed.

Lemma saveBatch_in_flight k b σ σ' id :
  saveBatch k b σ = (σ', id) →
  in_flight (saves σ') ≤ in_flight (saves σ) + 1.
Proof.
  intros Hsave. apply saveBatch_spec in Hsave as (_ & s & ? & -> & _).
  apply in_flight_snoc.
Qed.

Lemma ingestSource_fuel k σ r σ' ctl :
  ingestSource k σ r = Some (σ', ctl) →
  match ctl with Continue r' => frame_cost r' | _ => 0 end
  + in_flight (saves σ')
  < frame_cost r + in_flight (saves σ).
Proof.
  unfold ingestSource, flushPending, submit, frame_cost.
  intros Hstep.
  repeat case_match; simplify_eq; simpl;
    repeat match goal with
           | H : saveBatch _ _ _ = _ |- _ => apply saveBatch_in_flight in H
           | H : r_input _ = _ |- _ => rewrite H
           | H : r_await _ = _ |- _ => rewrite H
           end; simpl; lia.
Qed.

Lemma fuel_caught st σ queue source e :
  fuel (caught st σ queue source e)
  = sum_list (source_cost httpClient <$> queue) + in_flight (saves σ).
Proof.
  destruct (caught_spec st σ queue source e) as (entries & thrown' & -> & _).
  unfold fuel. simpl. lia.
Qed.

Lemma resume_fuel st st' :
  ingestAll st = Some st' → fuel st' < fuel st.
Proof.
  unfold ingestAll. intros Hres.
  destruct (current st) as [r|] eqn:Hcur.
  - destruct (ingestSource _ _ _) as [[σ' ctl]|] eqn:Hstep; [|done].
    apply ingestSource_fuel in Hstep.
    destruct ctl; injection Hres as <-; rewrite ?fuel_caught;
      unfold fuel; rewrite Hcur; simpl in *; lia.
  - destruct (thrown st); [done|].
    destruct (queue st) as [|source rest] eqn:Hq; [done|].
    unfold fuel at 2. rewrite Hcur, Hq.
    change (sum_list (source_cost httpClient <$> source :: rest))
      with (source_cost httpClient source
            + sum_list (source_cost httpClient <$> rest)).
    pose proof (eq_refl (source_cost httpClient source)) as Hcost.
    unfold source_cost at 1 in Hcost.
    destruct (httpClient (url source)); injection Hres as <-;
      rewrite ?fuel_caught; unfold fuel, frame_cost, in_flight;
      cbn -[source_cost Nat.mul];
      generalize (sum_list (source_cost httpClient <$> rest)); lia.
Qed.

(** A write that [flushPending] waits for can settle. *)
Lemma settle_fuel id st :
  invariant st → settled (store st) id = false →
  ∃ st', settle id st = Some st' ∧ fuel st' < fuel st.
Proof.
  intros [_ Hsaves _ _ _]. unfold settled, settle.
  destruct (saves (store st) !! id) as [s|] eqn:Hid; [|done].
  destruct (Hsaves _ _ Hid) as [(_ & Hcall & Hprom) _].
  destruct (save_promise s) eqn:Hpending; try done. intros _.
  assert (∃ s' entries, saveBatch_resume s = Some (s', entries))
    as (s' & entries & Hres).
  { unfold promise_wf, saveBatch_resume in *. rewrite Hpending in *.
    rewrite Hcall in *.
    destruct (repository id (save_batch s)) as [e| |e];
      [by destruct (Hprom e)|by eauto|].
    destruct (saveBatch_caught e). by eauto. }
  rewrite Hres. eexists; split; [done|]. unfold fuel. simpl.
  destruct (saveBatch_resume_spec _ _ _ Hres) as (_ & _ & _ & _ & Hs' & _).
  pose proof (in_flight_insert (saves (store st)) id s s' Hid) as Hin.
  unfold is_pending in Hin. rewrite Hpending in Hin.
  destruct (save_promise s'); [done|..]; specialize (Hin eq_refl eq_refl); lia.
Qed.

(** When the scheduler has nothing to do, [ingestAll] is over. *)
Lemma next_event_None st : next_event st = None → over st.
Proof.
  unfold next_event, over, returned, rejected.
  destruct (ingestAll st) eqn:Hres; [done|].
  unfold ingestAll in Hres.
  destruct (current st) as [r|] eqn:Hcur.
  - destruct (List.find _ _) eqn:Hfind; [done|]. intros _.
    destruct (ingestSource _ _ _) as [[? []]|] eqn:Hstep;
      try done.
    unfold ingestSource, flushPending, allSettled in Hstep.
    assert (forallb (settled (store st)) (pendingSaves r) = true) as Hall.
    { apply forallb_forall. intros id Hid.
      eapply find_none in Hfind; [|done]. by apply negb_false_iff. }
    rewrite Hall in Hstep. by repeat case_match.
  - intros _. destruct (thrown st) as [e'|]; [right; by exists e'|].
    left. destruct (queue st); [done|]. by case_match.
Qed.

Lemma next_event_Some st ev :
  invariant st → next_event st = Some ev →
  ∃ st', step st ev = Some st' ∧ fuel st' < fuel st.
Proof.
  unfold next_event. intros Hinv Hnext.
  destruct (ingestAll st) as [st'|] eqn:Hres.
  - simplify_eq. exists st'. split; [done|]. by apply resume_fuel.
  - destruct (current st) as [r|]; [|done].
    destruct (List.find _ _) as [id|] eqn:Hfind; simplify_eq/=.
    apply find_some in Hfind as [_ Hid].
    apply settle_fuel; [done|]. by apply negb_true_iff.
Qed.

Lemma run_over n st :
  invariant st → fuel st ≤ n → over (run n st).
Proof.
  revert st. induction n as [|n IH]; intros st Hinv Hfuel; simpl.
  - destruct (next_event st) as [ev|] eqn:Hnext;
      [|by apply next_event_None].
    apply next_event_Some in Hnext as (? & _ & ?); [lia|done].
  - destruct (next_event st) as [ev|] eqn:Hnext;
      [|by apply next_event_None].
    apply next_event_Some in Hnext as (st' & Hstep & Hlt); [|done].
    rewrite Hstep. apply IH; [by eapply invariant_step|lia].
Qed.

(** What the scheduler does is an execution. *)
Lemma run_exec n st : ∃ evs, exec st evs = Some (run n st).
Proof.
  revert st. induction n as [|n IH]; intros st; simpl; [by exists []|].
  destruct (next_event st) as [ev|]; [|by exists []].
  destruct (step st ev) as [st'|] eqn:Hstep; [|by exists []].
  destruct (IH st') as [evs Hevs]. exists (ev :: evs). simpl.
  by rewrite Hstep.
Qed.

(** From every state of an execution, [ingestAll] can run to its end. *)
Lemma exec_ends st :
  invariant st → ∃ evs st', exec st evs = Some st' ∧ over st'.
Proof.
  intros Hinv. destruct (run_exec (fuel st) st) as [evs Hevs].
  exists evs, (run (fuel st) st). split; [done|]. by apply run_over.
Qed.

(** ** Consequences of the invariant *)

(** [ingestAll] rejects only where the [catch] clause throws: when the
    failure of every source can be logged, it is over only by returning. *)
Lemma over_returned st :
  invariant st → Forall (loggable httpClient) sources → over st →
  returned st.
Proof.
  intros [_ _ _ _ Hthrown] Hall [Hret|[e' [Hcur Hrej]]]; [done|].
  rewrite Hrej in Hthrown.
  destruct Hthrown as (_ & k & source & e & _ & Hk & Hout & Hcatch & _).
  rewrite Forall_lookup in Hall. specialize (Hall _ _ Hk).
  unfold loggable in Hall. by rewrite Hout, Hcatch in Hall.
Qed.

Lemma returned_outcomes st :
  invariant st → returned st → length (outcomes st) = length sources.
Proof.
  intros [(done & Hord & Hlen) _ _ _ _] (Hcur & Hq & _).
  rewrite Hord, Hcur, Hq. simpl. rewrite app_nil_r. done.
Qed.


(** A resumption in the loop after which the loop goes on: either nothing
    is written and [pendingSaves] is as before, or one batch is written, its
    promise is pushed to [pendingSaves], and the call waits next in the
    [flushPending] of the loop exactly when [pendingSaves] has reached
    [MAX_CONCURRENT_BATCHES]. *)
Lemma ingestSource_loop k σ r σ' r' :
  r_await r = AwaitNext →
  ingestSource k σ r = Some (σ', Continue r') →
  r_await r' ≠ AwaitDrain →
  saves σ' = saves σ ∧ pendingSaves r' = pendingSaves r
  ∧ r_await r' = AwaitNext ∨
  (∃ s, saves σ' = saves σ ++ [s] ∧ save_source s = k
        ∧ is_Some (save_call s)) ∧
  pendingSaves r' = pendingSaves r ++ [length (saves σ)] ∧
  r_await r' = (if MAX_CONCURRENT_BATCHES <=? length (pendingSaves r')
                then AwaitThrottle else AwaitNext).
Proof.
  unfold ingestSource, submit. intros -> Hcall Hloop.
  destruct (r_input r) as [|value rest].
  { destruct (iterator_end (r_stream r)) as [[]|e]; [|done].
    destruct (0 <? length (batch r)); [|by simplify_eq].
    destruct (saveBatch _ _ _). by simplify_eq. }
  destruct (mapper (r_source r) value) as [mapped|e]; [|done].
  destruct (negb (truthy mapped)); [left; by simplify_eq|].
  destruct (BATCH_SIZE <=? length (batch r ++ [mapped])) eqn:Hfull;
    [|left; by simplify_eq].
  apply Nat.leb_le in Hfull.
  destruct (saveBatch _ _ _) as [σ1 id] eqn:Hsave.
  apply saveBatch_spec in Hsave
    as (-> & s & entries & Hsaves & _ & Hk & _ & _ & Hsome).
  right.
  assert (is_Some (save_call s)) as Hc.
  { rewrite Hsome; [done|]. rewrite length_take. lia. }
  destruct (MAX_CONCURRENT_BATCHES <=? _) eqn:Hmax; simplify_eq; simpl;
    rewrite Hmax; eauto 10.
Qed.

End Steps.


(** ** How a call ends *)

(** A call returns exactly when its mapper throws on no element, the
    iteration ends normally and so does the response stream. *)
Lemma ingest_outcome_Normal source stream input :
  ingest_outcome source stream input = Normal () ↔
  Forall (λ value, ∃ mapped, mapper source value = Normal mapped) input ∧
  iterator_end stream = Normal () ∧ finished_result stream = Normal ().
Proof.
  induction input as [|value rest IH]; simpl.
  - destruct (iterator_end stream) as [[]|e].
    + split; [by intros ->|by intros (_ & _ & ->)].
    + split; [done|by intros (_ & ? & _)].
  - destruct (mapper source value) as [mapped|e] eqn:Hmap.
    + rewrite IH, Forall_cons. split; [|tauto].
      intros (? & ? & ?). split_and!; eauto.
    + split; [done|]. intros (Hall & _). apply Forall_cons in Hall.
      destruct Hall as [[mapped Hmapped] _]. by rewrite Hmap in Hmapped.
Qed.

(** The callback of a pipeline does nothing but log. *)
Lemma pipelineDone_only_logs i err st st' :
  pipelineDone i err st = Some st' →
  ∃ name,
    pipelines st !! i = Some name ∧
    log (store st') = log (store st) ++ pipelineCallback name err ∧
    saves (store st') = saves (store st) ∧ queue st' = queue st ∧
    current st' = current st ∧ outcomes st' = outcomes st.
Proof.
  unfold pipelineDone. destruct (pipelines st !! i) as [name|]; [|done].
  intros [= <-]. by exists name.
Qed.

(** ** What is stored *)

(** A promise that is settled while [saveAll] fulfilled is fulfilled. *)
Lemma promise_wf_accepted s :
  promise_wf s → save_call s = Some SaveAllResolves →
  save_promise s ≠ Pending → save_promise s = Fulfilled.
Proof.
  unfold promise_wf. intros Hwf Hcall Hprom.
  destruct (save_promise s) as [| |reason]; [done..|].
  destruct Hwf as (error & [Hc|Hc] & _); by rewrite Hcall in Hc.
Qed.

(** Once the writes of a source are resolved, what is stored of it is what
    the repository accepted. *)
Lemma stored_resolved k l :
  Forall promise_wf l → resolved k l →
  stored k l
  = save_batch <$>
      filter (λ s, save_source s = k ∧ save_call s = Some SaveAllResolves) l.
Proof.
  unfold stored, resolved. intros Hwf Hres. f_equal.
  induction Hres as [|s l Hs _ IH]; [done|].
  apply Forall_cons in Hwf as [Hwf Hwfs].
  rewrite !filter_cons, IH by done.
  destruct (decide (save_source s = k)) as [Hk|Hk].
  - destruct (decide (save_call s = Some SaveAllResolves)) as [Hc|Hc].
    + rewrite !decide_True; [done..|].
      split_and!; [done..|]. apply promise_wf_accepted; auto.
    + rewrite !decide_False; [done|by intros [_ ?]|by intros (_ & ? & _)].
  - rewrite !decide_False; [done|by intros [? _]|by intros (? & _)].
Qed.

(** If the repository accepted them all, everything written is stored. *)
Lemma stored_written k l :
  Forall promise_wf l → resolved k l →
  Forall (λ s, save_source s = k → save_call s = Some SaveAllResolves) l →
  stored k l = written k l.
Proof.
  intros Hwf Hres Hacc. rewrite stored_resolved by done.
  unfold written. f_equal. clear Hwf.
  induction Hacc as [|s l Hs _ IH]; [done|].
  apply Forall_cons in Hres as [_ Hres].
  rewrite !filter_cons, IH by done.
  destruct (decide (save_source s = k)) as [Hk|Hk].
  - rewrite !decide_True; [done|by rewrite (Hs Hk)|by rewrite (Hs Hk)].
  - rewrite !decide_False; [done|by intros [? _]|by intros [? _]].
Qed.

(** ** Settling a write never blocks the coroutine *)

Lemma settled_insert σ id s' entries id' :
  save_promise s' ≠ Pending →
  settled σ id' = true →
  settled {| saves := <[id := s']> (saves σ); log := entries |} id' = true.
Proof.
  unfold settled. simpl. intros Hs' Hold.
  destruct (<[id := s']> (saves σ) !! id') as [s0|] eqn:Hid'; [|done].
  apply list_lookup_insert_Some in Hid' as [(-> & -> & _)|[_ Hid']].
  - by destruct (save_promise s0).
  - by rewrite Hid' in Hold.
Qed.

Lemma ingestSource_enabled BATCH_SIZE MAX_CONCURRENT_BATCHES repository
    k σ σ' r :
  (∀ id, settled σ id = true → settled σ' id = true) →
  is_Some (ingestSource BATCH_SIZE MAX_CONCURRENT_BATCHES repository k σ r) →
  is_Some (ingestSource BATCH_SIZE MAX_CONCURRENT_BATCHES repository k σ' r).
Proof.
  intros Hmono [res Hres]. unfold ingestSource, flushPending, submit in *.
  assert (allSettled σ (pendingSaves r) = true →
          allSettled σ' (pendingSaves r) = true) as Hall.
  { unfold allSettled. rewrite !forallb_forall. auto. }
  destruct (r_await r); [by repeat case_match|..|by repeat case_match];
    (destruct (allSettled σ (pendingSaves r)); [|done]);
    by rewrite Hall.
Qed.

Lemma resume_after_settle BATCH_SIZE MAX_CONCURRENT_BATCHES httpClient
    repository id st st' :
  settle id st = Some st' →
  is_Some (ingestAll BATCH_SIZE MAX_CONCURRENT_BATCHES httpClient repository st) →
  is_Some (ingestAll BATCH_SIZE MAX_CONCURRENT_BATCHES httpClient repository st').
Proof.
  intros Hsettle.
  apply settle_spec in Hsettle
    as (s & s' & entries & _ & _ & _ & _ & _ & _ & Hprom & ->).
  unfold ingestAll. simpl. destruct (current st) as [r|].
  - intros Hsome.
    destruct (ingestSource_enabled BATCH_SIZE MAX_CONCURRENT_BATCHES
                repository (length (outcomes st)) (store st)
                {| saves := <[id := s']> (saves (store st));
                   log := log (store st) ++ entries |} r) as [[σ' ctl] ->].
    + intros id'. by apply settled_insert.
    + destruct (ingestSource _ _ _ _ _ _) as [[? ?]|]; [done|].
      by destruct Hsome.
    + by destruct ctl.
  - destruct (thrown st); [done|].
    destruct (queue st); [done|]. by destruct (httpClient _).
Qed.


(** ** Running through a stream of records *)

Section Batches.

Variable BATCH_SIZE : nat.
Variable MAX_CONCURRENT_BATCHES : nat.
Variable httpClient : string → Completion ResponseStream.
Variable repository : nat → list JsValue → SaveAll.

Local Abbreviation ingestAll :=
  (ingestAll BATCH_SIZE MAX_CONCURRENT_BATCHES httpClient repository).
Local Abbreviation exec :=
  (exec BATCH_SIZE MAX_CONCURRENT_BATCHES httpClient repository).

(** A record that does not fill the batch is buffered. *)
Lemma resume_push st r value rest mapped :
  current st = Some r → r_await r = AwaitNext →
  r_input r = value :: rest →
  mapper (r_source r) value = Normal mapped → truthy mapped = true →
  length (batch r) + 1 < BATCH_SIZE →
  ingestAll st
  = Some {| store := store st; queue := queue st;
            current := Some {| r_source := r_source r; r_stream := r_stream r;
                               r_input := rest;
                               batch := batch r ++ [mapped];
                               pendingSaves := pendingSaves r;
                               r_await := AwaitNext |};
            outcomes := outcomes st; pipelines := pipelines st;
            thrown := thrown st |}.
Proof.
  intros Hcur Haw Hin Hmap Htruthy Hlen.
  unfold ingestAll, ingestSource. rewrite Hcur, Haw, Hin, Hmap, Htruthy.
  cbn [negb].
  destruct (BATCH_SIZE <=? length (batch r ++ [mapped])) eqn:Hfull; [|done].
  apply Nat.leb_le in Hfull. rewrite length_app in Hfull. simpl in Hfull. lia.
Qed.

(** The record that fills the batch has it written. *)
Lemma resume_submit st r value rest mapped :
  current st = Some r → r_await r = AwaitNext →
  r_input r = value :: rest →
  mapper (r_source r) value = Normal mapped → truthy mapped = true →
  length (batch r) + 1 = BATCH_SIZE →
  (∀ e, repository (length (saves (store st))) (batch r ++ [mapped])
        ≠ SaveAllThrows e) →
  ingestAll st
  = Some {| store :=
              {| saves :=
                   saves (store st)
                   ++ [{| save_source := length (outcomes st);
                          save_batch := batch r ++ [mapped];
                          save_call :=
                            Some (repository (length (saves (store st)))
                                    (batch r ++ [mapped]));
                          save_promise := Pending |}];
                 log := log (store st) |};
            queue := queue st;
            current :=
              Some {| r_source := r_source r; r_stream := r_stream r;
                      r_input := rest; batch := [];
                      pendingSaves :=
                        pendingSaves r ++ [length (saves (store st))];
                      r_await :=
                        if MAX_CONCURRENT_BATCHES
                           <=? length (pendingSaves r
                                       ++ [length (saves (store st))])
                        then AwaitThrottle else AwaitNext |};
            outcomes := outcomes st; pipelines := pipelines st;
            thrown := thrown st |}.
Proof.
  intros Hcur Haw Hin Hmap Htruthy Hlen Hasync.
  unfold ingestAll, ingestSource. rewrite Hcur, Haw, Hin, Hmap, Htruthy.
  cbn [negb].
  assert (length (batch r ++ [mapped]) = BATCH_SIZE) as Hfull
    by (rewrite length_app; simpl; lia).
  rewrite Hfull, Nat.leb_refl, take_ge, drop_ge by lia.
  unfold submit, saveBatch. rewrite Hfull.
  destruct (BATCH_SIZE =? 0) eqn:Hzero; [apply Nat.eqb_eq in Hzero; lia|].
  destruct (repository _ _) as [e| |e] eqn:Hrepo;
    [by destruct (Hasync e)|..];
    by destruct (MAX_CONCURRENT_BATCHES <=? _).
Qed.

Lemma exec_pushes n st r value rest :
  current st = Some r → r_await r = AwaitNext →
  r_input r = repeat value n ++ rest →
  mapper (r_source r) value = Normal value → truthy value = true →
  length (batch r) + n < BATCH_SIZE →
  exec st (repeat Resume n)
  = Some {| store := store st; queue := queue st;
            current := Some {| r_source := r_source r; r_stream := r_stream r;
                               r_input := rest;
                               batch := batch r ++ repeat value n;
                               pendingSaves := pendingSaves r;
                               r_await := AwaitNext |};
            outcomes := outcomes st; pipelines := pipelines st;
            thrown := thrown st |}.
Proof.
  revert st r. induction n as [|n IH]; intros st r Hcur Haw Hin Hmap Htr Hlen.
  - destruct st, r. simpl in *. subst. by rewrite app_nil_r.
  - simpl in *.
    rewrite (resume_push st r value (repeat value n ++ rest) value)
      by (done || lia).
    rewrite (IH _ {| r_source := r_source r; r_stream := r_stream r;
                     r_input := repeat value n ++ rest;
                     batch := batch r ++ [value];
                     pendingSaves := pendingSaves r;
                     r_await := AwaitNext |}); simpl; try done.
    + by rewrite <- app_assoc.
    + rewrite length_app. simpl. lia.
Qed.

(** A whole batch of copies of one record. *)
Lemma exec_batch st r value rest :
  0 < BATCH_SIZE →
  current st = Some r → r_await r = AwaitNext → batch r = [] →
  r_input r = repeat value BATCH_SIZE ++ rest →
  mapper (r_source r) value = Normal value → truthy value = true →
  (∀ e, repository (length (saves (store st))) (repeat value BATCH_SIZE)
        ≠ SaveAllThrows e) →
  exec st (repeat Resume BATCH_SIZE)
  = Some {| store :=
              {| saves :=
                   saves (store st)
                   ++ [{| save_source := length (outcomes st);
                          save_batch := repeat value BATCH_SIZE;
                          save_call :=
                            Some (repository (length (saves (store st)))
                                    (repeat value BATCH_SIZE));
                          save_promise := Pending |}];
                 log := log (store st) |};
            queue := queue st;
            current :=
              Some {| r_source := r_source r; r_stream := r_stream r;
                      r_input := rest; batch := [];
                      pendingSaves :=
                        pendingSaves r ++ [length (saves (store st))];
                      r_await :=
                        if MAX_CONCURRENT_BATCHES
                           <=? length (pendingSaves r
                                       ++ [length (saves (store st))])
                        then AwaitThrottle else AwaitNext |};
            outcomes := outcomes st; pipelines := pipelines st;
            thrown := thrown st |}.
Proof.
  intros Hpos Hcur Haw Hnil Hin Hmap Htr Hasync.
  assert (∀ A (x : A),
            repeat x BATCH_SIZE = repeat x (BATCH_SIZE - 1) ++ [x]) as Hsnoc.
  { intros. rewrite <- repeat_cons.
    by replace BATCH_SIZE with (S (BATCH_SIZE - 1)) at 1 by lia. }
  rewrite !Hsnoc. rewrite Hsnoc in Hin. rewrite (Hsnoc _ value) in Hasync.
  rewrite <- app_assoc in Hin. simpl in Hin.
  rewrite exec_app.
  rewrite (exec_pushes (BATCH_SIZE - 1) st r value (value :: rest))
    by (done || rewrite Hnil; simpl; lia).
  simpl. rewrite Hnil. simpl.
  rewrite (resume_submit _
             {| r_source := r_source r; r_stream := r_stream r;
                r_input := value :: rest;
                batch := repeat value (BATCH_SIZE - 1);
                pendingSaves := pendingSaves r; r_await := AwaitNext |}
             value rest value); simpl; try done.
  rewrite repeat_length. lia.
Qed.

End Batches.


(** ** Two runs with full batches *)

(** Three batches of source [C] are written before any write settles: the
    call waits in the [flushPending] of the loop. *)
Lemma three_batches_throttled size :
  0 < size →
  exec size 3 (Example.httpClient size) Example.accepting
    (initial [Example.source_C]) (Example.three_batches size)
  = Some (Example.throttled size).
Proof.
  intros Hsize. unfold Example.three_batches.
  change (exec size 3 (Example.httpClient size) Example.accepting
            (initial [Example.source_C]) (Resume :: ?evs))
    with (exec size 3 (Example.httpClient size) Example.accepting
            {| store := {| saves := [];
                           log := [LogInfo "Starting ingestion for C"] |};
               queue := [];
               current :=
                 Some (start Example.source_C
                         (Example.stream
                            (repeat Example.record size
                             ++ repeat Example.record size
                             ++ repeat Example.record size
                             ++ repeat Example.record size)));
               outcomes := []; pipelines := ["C"]; thrown := None |} evs).
  rewrite exec_app.
  erewrite exec_batch; [|done|reflexivity..|done].
  simpl. rewrite exec_app.
  erewrite exec_batch; [|done|reflexivity..|done].
  simpl.
  erewrite exec_batch; [|done|reflexivity..|done].
  reflexivity.
Qed.

(** Once the three writes have settled the call resumes, and the fourth
    batch is written with [pendingSaves] empty: no [flushPending] follows
    it. *)
Lemma fourth_batch_not_throttled size :
  0 < size →
  exec size 3 (Example.httpClient size) Example.accepting
    (Example.throttled size) (Example.fourth_batch size)
  = Some (Example.fourth_written size).
Proof.
  intros Hsize. unfold Example.fourth_batch.
  change (exec size 3 (Example.httpClient size) Example.accepting
            (Example.throttled size)
            ([Settle 0; Settle 1; Settle 2; Resume] ++ ?evs))
    with (exec size 3 (Example.httpClient size) Example.accepting
            {| store :=
                 {| saves := [Example.write 0 size Fulfilled;
                              Example.write 0 size Fulfilled;
                              Example.write 0 size Fulfilled];
                    log := [LogInfo "Starting ingestion for C";
                            Example.saved size; Example.saved size;
                            Example.saved size] |};
               queue := [];
               current := Some (Example.frame_C size
                                  (repeat Example.record size) [] AwaitNext);
               outcomes := []; pipelines := ["C"]; thrown := None |} evs).
  erewrite exec_batch;
    [|done|reflexivity..|simpl; by rewrite app_nil_r|done|done|done].
  reflexivity.
Qed.

(** The mapper throws on the element of source [A] that follows its first
    full batch: the loop goes on to source [B] with the write of that batch
    unresolved. *)
Lemma mapper_throws_abandoned size :
  0 < size →
  exec size 3 (Example.httpClient size) Example.accepting
    (initial [Example.source_A; Example.source_B]) (Example.mapper_throws size)
  = Some (Example.abandoned size).
Proof.
  intros Hsize. unfold Example.mapper_throws.
  change (exec size 3 (Example.httpClient size) Example.accepting
            (initial [Example.source_A; Example.source_B]) (Resume :: ?evs))
    with (exec size 3 (Example.httpClient size) Example.accepting
            {| store := {| saves := [];
                           log := [LogInfo "Starting ingestion for A"] |};
               queue := [Example.source_B];
               current :=
                 Some (start Example.source_A
                         (Example.stream
                            (repeat Example.record size ++ [JNull])));
               outcomes := []; pipelines := ["A"]; thrown := None |} evs).
  rewrite exec_app.
  erewrite exec_batch; [|done|reflexivity..|done].
  reflexivity.
Qed.

(** ** Where the [catch] clauses throw *)

(** The [catch] clauses throw exactly on the values that [String] cannot
    convert, and what they throw is what [String] throws. *)
Lemma saveBatch_catch_Throw error reason :
  saveBatch_catch error = Throw reason ↔ ∃ json, error = JOpaque json reason.
Proof.
  split.
  - destruct error as [| |[]| | | | | |json thrown]; simpl; try done.
    intros [= <-]. by exists json.
  - by intros [json ->].
Qed.

Lemma ingestAll_catch_Throw source error reason :
  ingestAll_catch source error = Throw reason ↔
  ∃ json, error = JOpaque json reason.
Proof.
  split.
  - destruct error as [| |[]| | | | | |json thrown]; simpl; try done.
    intros [= <-]. by exists json.
  - by intros [json ->].
Qed.

(** Once [ingestAll] has rejected no source is taken any more. *)
Lemma exec_rejected BATCH_SIZE MAX_CONCURRENT_BATCHES httpClient repository
    st evs st' e :
  rejected st e →
  exec BATCH_SIZE MAX_CONCURRENT_BATCHES httpClient repository st evs
  = Some st' →
  rejected st' e ∧ queue st' = queue st ∧ outcomes st' = outcomes st.
Proof.
  revert st. induction evs as [|ev evs IH]; intros st Hrej Hexec; simpl in *.
  - by simplify_eq.
  - destruct (step _ _ _ _ st ev) as [st1|] eqn:Hstep; [|done].
    assert (rejected st1 e ∧ queue st1 = queue st
            ∧ outcomes st1 = outcomes st) as (Hrej1 & <- & <-).
    { destruct Hrej as [Hcur Hthrown]. destruct ev as [|id|i err]; simpl in *.
      - unfold ingestAll in Hstep. by rewrite Hcur, Hthrown in Hstep.
      - apply settle_spec in Hstep as (? & ? & ? & _ & _ & _ & _ & _ & _ & _ & ->).
        by split_and!.
      - unfold pipelineDone in Hstep.
        destruct (pipelines st !! i); by simplify_eq. }
    by apply IH.
Qed.

(** * The service as configured *)

Lemma BATCH_SIZE_pos : 0 < IngestionService.BATCH_SIZE.
Proof. unfold IngestionService.BATCH_SIZE. lia. Qed.

Lemma MAX_CONCURRENT_BATCHES_pos : 0 < IngestionService.MAX_CONCURRENT_BATCHES.
Proof. unfold IngestionService.MAX_CONCURRENT_BATCHES. lia. Qed.

(** The invariant of the executions of the service. *)
Lemma service_invariant httpClient repository sources evs st :
  IngestionService.exec httpClient repository (initial sources) evs = Some st →
  invariant IngestionService.BATCH_SIZE IngestionService.MAX_CONCURRENT_BATCHES
    httpClient repository sources st.
Proof.
  apply invariant_exec, invariant_initial;
    auto using BATCH_SIZE_pos, MAX_CONCURRENT_BATCHES_pos.
Qed.

(** From every state of an execution [ingestAll] can run to its end. *)
Lemma service_ends httpClient repository sources st :
  invariant IngestionService.BATCH_SIZE IngestionService.MAX_CONCURRENT_BATCHES
    httpClient repository sources st →
  ∃ evs st',
    IngestionService.exec httpClient repository st evs = Some st' ∧
    invariant IngestionService.BATCH_SIZE
      IngestionService.MAX_CONCURRENT_BATCHES httpClient repository sources
      st' ∧
    over st' ∧ (Forall (loggable httpClient) sources → returned st').
Proof.
  intros Hinv.
  destruct (exec_ends _ _ _ _ _ BATCH_SIZE_pos MAX_CONCURRENT_BATCHES_pos
              _ Hinv) as (evs & st' & Hexec & Hover).
  pose proof (invariant_exec _ _ _ _ _ BATCH_SIZE_pos
                MAX_CONCURRENT_BATCHES_pos _ _ _ Hinv Hexec) as Hinv'.
  exists evs, st'. split_and!; try done.
  intros Hall. by eapply over_returned.
Qed.

(** A call that is over ended as its source alone determines. *)
Lemma outcome_determined httpClient repository sources st k source o :
  invariant IngestionService.BATCH_SIZE IngestionService.MAX_CONCURRENT_BATCHES
    httpClient repository sources st →
  sources !! k = Some source → outcomes st !! k = Some o →
  o = ingestSource_outcome httpClient source.
Proof.
  intros Hinv Hk Ho.
  destruct (inv_done _ _ _ _ _ _ Hinv _ _ Ho) as (source' & Hk' & -> & _).
  by simplify_eq.
Qed.

(** When [ingestAll] has returned every source has had its call. *)
Lemma returned_all httpClient repository sources st k source :
  invariant IngestionService.BATCH_SIZE IngestionService.MAX_CONCURRENT_BATCHES
    httpClient repository sources st →
  returned st → sources !! k = Some source →
  outcomes st !! k = Some (ingestSource_outcome httpClient source).
Proof.
  intros Hinv Hret Hk.
  assert (is_Some (outcomes st !! k)) as [o Ho].
  { apply lookup_lt_is_Some.
    rewrite (returned_outcomes _ _ _ _ _ _ Hinv Hret).
    by eapply lookup_lt_Some. }
  by rewrite Ho, (outcome_determined _ _ _ _ _ _ _ Hinv Hk Ho).
Qed.

(** How [ingestAll] reports the failure of a call: in the log, under the
    name of the source; or, where [String] throws on the value, by rejecting
    with what [String] threw, the failed call being the last one. *)
Lemma failure_is_reported httpClient repository sources st k source e :
  invariant IngestionService.BATCH_SIZE IngestionService.MAX_CONCURRENT_BATCHES
    httpClient repository sources st →
  sources !! k = Some source → outcomes st !! k = Some (Throw e) →
  match e with
  | JError _ stack =>
      LogError ("Failed ingestion for " +:+ name source) (Some stack)
      ∈ log (store st)
  | _ =>
      match ToString e with
      | Normal str =>
          LogError ("Failed ingestion for " +:+ name source +:+ ": " +:+ str)
            None ∈ log (store st)
      | Throw e' => rejected st e' ∧ length (outcomes st) = S k
      end
  end.
Proof.
  intros Hinv Hk Ho.
  destruct (inv_done _ _ _ _ _ _ Hinv _ _ Ho) as (source' & Hk' & Hout & Hlog).
  simplify_eq.
  destruct e as [| |[]| | | | | |json e']; try (by apply Hlog).
  simpl. pose proof (inv_thrown _ _ _ _ _ _ Hinv) as Hthrown.
  assert (¬ loggable httpClient source) as Hnot.
  { unfold loggable. rewrite <- Hout. simpl. tauto. }
  destruct (thrown st) as [e''|] eqn:Hrej.
  - destruct Hthrown
      as (Hcur & k' & source' & e0 & Hlen & Hk' & Hout' & Hcatch & Hbefore).
    apply lookup_lt_Some in Ho as Hlt.
    destruct (decide (k = k')) as [->|Hne].
    + rewrite Hk in Hk'. injection Hk' as <-.
      rewrite Hout' in Hout. injection Hout as <-.
      simpl in Hcatch. injection Hcatch as ->. by split.
    + destruct Hnot. apply (Hbefore k); [lia|done].
  - destruct Hnot. apply (Hthrown k); [|done]. by eapply lookup_lt_Some.
Qed.


(** ** C8: no empty batch *)

(** C8.  In every execution, every [saveBatch] call was given a batch that is
    not empty and has at most [BATCH_SIZE] records, and it handed that batch
    to [saveAll]: [saveAll] is never called with an empty sequence, be it for
    a full batch or for the rest flushed at the end of the stream. *)
Theorem saveAll_batches_not_empty httpClient repository sources evs st id s :
  IngestionService.exec httpClient repository (initial sources) evs = Some st →
  saves (store st) !! id = Some s →
  save_call s = Some (repository id (save_batch s)) ∧
  0 < length (save_batch s) ≤ IngestionService.BATCH_SIZE.
Proof.
  intros Hexec Hid. apply service_invariant in Hexec as [_ Hsaves _ _ _].
  by destruct (Hsaves _ _ Hid) as [(Hlen & Hcall & _) _].
Qed.

(** Source [B] up to the flush of its two records. *)
Lemma saveAll_batches_not_empty_witness :
  let st := IngestionService.run (Example.httpClient 2) Example.accepting 5
              (initial [Example.source_B]) in
  let s := {| save_source := 0;
              save_batch := [Example.record; Example.record];
              save_call := Some SaveAllResolves; save_promise := Pending |} in
  IngestionService.exec (Example.httpClient 2) Example.accepting
    (initial [Example.source_B]) (repeat Resume 5) = Some st ∧
  saves (store st) !! 0 = Some s ∧
  save_call s = Some (Example.accepting 0 (save_batch s)) ∧
  0 < length (save_batch s) ≤ IngestionService.BATCH_SIZE.
Proof.
  split; [vm_compute; reflexivity|]. split; [vm_compute; reflexivity|].
  apply (saveAll_batches_not_empty (Example.httpClient 2) Example.accepting
           [Example.source_B] (repeat Resume 5)
           (IngestionService.run (Example.httpClient 2) Example.accepting 5
              (initial [Example.source_B])) 0);
    vm_compute; reflexivity.
Defined.

(** ** C4: the writes in flight are bounded *)



(** ** C10: falsy values of the mapper are skipped *)

(** C10.  When the mapper returns a falsy value on the next element (these
    are [undefined], [null], [false], [0], [NaN] and the empty string), the
    element is consumed and nothing else changes: no record enters a batch,
    nothing is written, nothing is thrown.  When it returns a truthy value,
    that very value is appended to the buffer, of which the resumption may
    then write a batch: what is written and what stays in the buffer are the
    old buffer followed by the value. *)
Theorem falsy_mapped_values_are_skipped repository k σ r value rest mapped :
  r_await r = AwaitNext →
  r_input r = value :: rest →
  mapper (r_source r) value = Normal mapped →
  (truthy mapped = false ↔
     mapped = JUndefined ∨ mapped = JNull ∨ mapped = JBool false ∨
     mapped = JNum 0 ∨ mapped = JNaN ∨ mapped = JStr "") ∧
  (truthy mapped = false →
     IngestionService.ingestSource repository k σ r
     = Some (σ, Continue {| r_source := r_source r; r_stream := r_stream r;
                            r_input := rest; batch := batch r;
                            pendingSaves := pendingSaves r;
                            r_await := AwaitNext |})) ∧
  (truthy mapped = true →
     ∃ σ' r' new,
       IngestionService.ingestSource repository k σ r
       = Some (σ', Continue r') ∧
       r_input r' = rest ∧ saves σ' = saves σ ++ new ∧
       concat (save_batch <$> new) ++ batch r' = batch r ++ [mapped]).
Proof.
  intros Haw Hin Hmap. split_and!.
  - split.
    + destruct mapped as [| |[]|z| |s| | |]; simpl; try done; auto 10.
      * intros Hz. apply negb_false_iff, Z.eqb_eq in Hz. subst. auto 10.
      * intros Hs. apply negb_false_iff, String.eqb_eq in Hs. subst. auto 10.
    + by intros [->|[->|[->|[->|[->| ->]]]]].
  - intros Hfalsy. unfold IngestionService.ingestSource, ingestSource.
    by rewrite Haw, Hin, Hmap, Hfalsy.
  - intros Htruthy. unfold IngestionService.ingestSource, ingestSource.
    rewrite Haw, Hin, Hmap, Htruthy. cbn [negb].
    destruct (IngestionService.BATCH_SIZE <=? length (batch r ++ [mapped]))
      eqn:Hfull.
    + unfold submit.
      destruct (saveBatch _ _ _ _) as [σ' id] eqn:Hsave.
      apply saveBatch_spec in Hsave
        as (_ & s & entries & Hsaves & _ & _ & Hbatch & _).
      destruct (IngestionService.MAX_CONCURRENT_BATCHES
                <=? length (pendingSaves r ++ [id]));
        eexists _, _, [s]; (split; [reflexivity|]);
        cbn [r_input batch fmap list_fmap concat];
        by rewrite Hbatch, app_nil_r, take_drop.
    + eexists _, _, []. split; [reflexivity|].
      cbn [r_input batch fmap list_fmap concat]. by rewrite app_nil_r.
Qed.

(** The frame of source [B] at its first element, a record, and at its
    second, which the mapper turns into [null]. *)
Lemma falsy_mapped_values_are_skipped_witness :
  let σ := {| saves := []; log := [] |} in
  let r := {| r_source := Example.source_B;
              r_stream := Example.stream
                            [Example.record; JStr "skip"; Example.record];
              r_input := [JStr "skip"; Example.record];
              batch := [Example.record]; pendingSaves := [];
              r_await := AwaitNext |} in
  r_await r = AwaitNext ∧
  r_input r = [JStr "skip"; Example.record] ∧
  mapper (r_source r) (JStr "skip") = Normal JNull ∧
  IngestionService.ingestSource Example.accepting 0 σ r
  = Some (σ, Continue {| r_source := r_source r; r_stream := r_stream r;
                         r_input := [Example.record]; batch := batch r;
                         pendingSaves := pendingSaves r;
                         r_await := AwaitNext |}).
Proof.
  split; [reflexivity|]. split; [reflexivity|]. split; [reflexivity|].
  apply (falsy_mapped_values_are_skipped Example.accepting 0 _ _
           (JStr "skip") [Example.record] JNull); reflexivity.
Defined.

(** ** C9: the promise of [saveBatch] *)

(** C9 fails on the code when [saveAll] fails with a value that [String]
    cannot convert.  Source [B] hands its two records to a repository whose
    [saveAll] throws an object without a prototype.  The [catch] clause of
    [saveBatch] then throws at [String(error)] (line 118): the promise that
    [saveBatch] returned is rejected, with the [TypeError], and nothing is
    logged of the failure.  [Promise.allSettled] absorbs the rejection, so the
    call for [B] returns and the log shows a run without any failure. *)
Lemma saveBatch_promise_rejects :
  let httpClient := Example.httpClient 2 in
  let st := IngestionService.run httpClient Edge.throwing 5
              (initial [Example.source_B]) in
  let st' := IngestionService.run httpClient Edge.throwing 7
               (initial [Example.source_B]) in
  IngestionService.exec httpClient Edge.throwing (initial [Example.source_B])
    (repeat Resume 5) = Some st ∧
  saves (store st)
  = [{| save_source := 0; save_batch := [Example.record; Example.record];
        save_call := Some (SaveAllThrows Edge.bare);
        save_promise := Rejected Edge.no_primitive |}] ∧
  log (store st) = [LogInfo "Starting ingestion for B"] ∧
  IngestionService.exec httpClient Edge.throwing (initial [Example.source_B])
    (repeat Resume 7) = Some st' ∧
  returned st' ∧ outcomes st' = [Normal ()] ∧
  saves (store st') = saves (store st) ∧
  log (store st')
  = [LogInfo "Starting ingestion for B";
     LogInfo "✅ Finished ingestion for B"].
Proof.
  split; [vm_compute; reflexivity|]. split; [vm_compute; reflexivity|].
  split; [vm_compute; reflexivity|]. split; [vm_compute; reflexivity|].
  split; [vm_compute; by split_and!|].
  split; [vm_compute; reflexivity|]. split; vm_compute; reflexivity.
Qed.

(** ** C6: a refused batch *)

(** C6 fails on the code when the repository rejects a write with a value
    that [String] cannot convert.  The write of the two records of source
    [B] is rejected with an object without a prototype: the [catch] clause of
    [saveBatch] throws at [String(error)] (line 118) before it has logged
    anything, so settling the write leaves the log as it was and the promise
    of [saveBatch] rejected.  The call for [B] goes on and returns; the loss
    of the batch shows nowhere in the log. *)
Lemma rejected_write_is_not_logged :
  let httpClient := Example.httpClient 2 in
  let st := IngestionService.run httpClient Edge.rejecting 5
              (initial [Example.source_B]) in
  let s promise :=
    {| save_source := 0; save_batch := [Example.record; Example.record];
       save_call := Some (SaveAllRejects Edge.bare);
       save_promise := promise |} in
  IngestionService.exec httpClient Edge.rejecting (initial [Example.source_B])
    (repeat Resume 5) = Some st ∧
  saves (store st) = [s Pending] ∧
  (∃ st',
     IngestionService.step httpClient Edge.rejecting st (Settle 0)
     = Some st' ∧
     saves (store st') = [s (Rejected Edge.no_primitive)] ∧
     log (store st') = log (store st)) ∧
  ∃ st'',
    IngestionService.exec httpClient Edge.rejecting st
      (Settle 0 :: repeat Resume 2) = Some st'' ∧
    returned st'' ∧ outcomes st'' = [Normal ()] ∧
    stored 0 (saves (store st'')) = [] ∧
    log (store st'')
    = [LogInfo "Starting ingestion for B";
       LogInfo "✅ Finished ingestion for B"].
Proof.
  split; [vm_compute; reflexivity|]. split; [vm_compute; reflexivity|].
  split.
  - eexists. split; [vm_compute; reflexivity|]. by split.
  - eexists. split; [vm_compute; reflexivity|].
    split; [vm_compute; by split_and!|]. by split_and!.
Qed.

(** ** C5: one source at a time *)

(** C5 fails on the code when a source fails with a value that [String]
    cannot convert.  Sources [H] and [B] are registered in this order; the
    mapper of [H] throws an object without a prototype on the third element.
    [ingestAll] catches it, and its [catch] clause throws at [String(error)]
    (line 41): [ingestAll] rejects with the [TypeError], the failure of [H]
    is not logged, and [B] is never taken, whatever happens next. *)
Lemma unprintable_failure_stops_ingestAll :
  let httpClient := Example.httpClient 2 in
  let sources := registerSource Example.source_B
                   (registerSource Edge.source_H []) in
  let st := IngestionService.run httpClient Example.accepting 4
              (initial sources) in
  IngestionService.exec httpClient Example.accepting (initial sources)
    (repeat Resume 4) = Some st ∧
  rejected st Edge.no_primitive ∧
  outcomes st = [Throw Edge.bare] ∧
  log (store st) = [LogInfo "Starting ingestion for H"] ∧
  ∀ evs st',
    IngestionService.exec httpClient Example.accepting st evs = Some st' →
    rejected st' Edge.no_primitive ∧ queue st' = [Example.source_B] ∧
    outcomes st' = [Throw Edge.bare].
Proof.
  split; [vm_compute; reflexivity|]. split; [vm_compute; by split|].
  split; [vm_compute; reflexivity|]. split; [vm_compute; reflexivity|].
  intros evs st' Hexec.
  eapply exec_rejected in Hexec as (Hrej & -> & ->); [|vm_compute; by split].
  done.
Qed.

(** ** C2: what the throttle waits for *)

Lemma allSettled_unresolved σ pending :
  allSettled σ pending = true ↔ unresolved σ pending = [].
Proof.
  unfold allSettled, unresolved.
  induction pending as [|id pending IH]; [done|].
  simpl. rewrite filter_cons, andb_true_iff, IH.
  destruct (settled σ id).
  - rewrite decide_False by done. split; [by intros [_ ?]|done].
  - rewrite decide_True by done. split; [by intros [? _]|done].
Qed.

(** C2, as stated, fails.  Source [C] has three batches written and none
    settled, so the call waits in the [flushPending] of the loop; then the
    first write settles.  Two registered writes are unresolved, fewer than
    [MAX_CONCURRENT_BATCHES], and yet the call cannot resume. *)
Lemma throttle_resumes_below_ceiling_counterexample :
  ∃ st r,
    IngestionService.exec (Example.httpClient IngestionService.BATCH_SIZE)
      Example.accepting (initial [Example.source_C])
      (Example.three_batches IngestionService.BATCH_SIZE ++ [Settle 0])
    = Some st ∧
    current st = Some r ∧ r_await r = AwaitThrottle ∧
    unresolved (store st) (pendingSaves r) = [1; 2] ∧
    length (unresolved (store st) (pendingSaves r))
    < IngestionService.MAX_CONCURRENT_BATCHES ∧
    IngestionService.ingestAll (Example.httpClient IngestionService.BATCH_SIZE)
      Example.accepting st = None.
Proof.
  unfold IngestionService.exec. rewrite exec_app.
  unfold IngestionService.MAX_CONCURRENT_BATCHES.
  rewrite three_batches_throttled by apply BATCH_SIZE_pos.
  eexists _, _. split; [reflexivity|]. split; [reflexivity|].
  split; [reflexivity|]. split; [reflexivity|]. split; [simpl; lia|].
  reflexivity.
Qed.

(** C2, amended.  The loop runs on only while [pendingSaves] holds fewer
    than [MAX_CONCURRENT_BATCHES] promises.  A resumption after which the
    loop goes on either writes nothing and leaves [pendingSaves] alone, or
    writes one batch and pushes its promise to [pendingSaves]; the call then
    waits in the [flushPending] of the loop exactly when that has brought
    their number to [MAX_CONCURRENT_BATCHES].  While it waits there no write
    is submitted.  It resumes when all the promises of [pendingSaves] have
    settled, not before, whatever the order in which they settle: each
    unresolved one can be settled at any time.  When it resumes,
    [pendingSaves] is emptied, the loop goes on where it was, and every write
    the source has submitted so far is resolved. *)
Theorem throttle_waits_for_every_write httpClient repository sources evs st r :
  IngestionService.exec httpClient repository (initial sources) evs = Some st →
  current st = Some r →
  (r_await r = AwaitNext →
     length (pendingSaves r) < IngestionService.MAX_CONCURRENT_BATCHES ∧
     (∀ st' r',
        IngestionService.ingestAll httpClient repository st = Some st' →
        current st' = Some r' → r_await r' ≠ AwaitDrain →
        saves (store st') = saves (store st)
        ∧ pendingSaves r' = pendingSaves r ∧ r_await r' = AwaitNext ∨
        (∃ s, saves (store st') = saves (store st) ++ [s]
              ∧ save_source s = length (outcomes st)
              ∧ is_Some (save_call s)) ∧
        pendingSaves r' = pendingSaves r ++ [length (saves (store st))] ∧
        r_await r'
        = (if IngestionService.MAX_CONCURRENT_BATCHES
              <=? length (pendingSaves r')
           then AwaitThrottle else AwaitNext))) ∧
  (r_await r = AwaitThrottle →
     length (pendingSaves r) = IngestionService.MAX_CONCURRENT_BATCHES ∧
     (is_Some (IngestionService.ingestAll httpClient repository st) ↔
      unresolved (store st) (pendingSaves r) = []) ∧
     (∀ id, id ∈ unresolved (store st) (pendingSaves r) →
            is_Some (IngestionService.step httpClient repository st
                       (Settle id))) ∧
     (∀ st', IngestionService.ingestAll httpClient repository st = Some st' →
             store st' = store st ∧
             current st'
             = Some {| r_source := r_source r; r_stream := r_stream r;
                       r_input := r_input r; batch := batch r;
                       pendingSaves := []; r_await := AwaitNext |} ∧
             resolved (length (outcomes st)) (saves (store st'))) ∧
     (∀ ev st', IngestionService.step httpClient repository st ev = Some st' →
                length (saves (store st')) = length (saves (store st)))).
Proof.
  intros Hexec Hcur.
  pose proof (service_invariant _ _ _ _ _ Hexec) as Hinv.
  pose proof (inv_frame _ _ _ _ _ _ Hinv _ Hcur) as (_ & Hpend & Hawait).
  split; intros Haw; rewrite Haw in Hawait; destruct Hawait as [Hlen _].
  { split; [done|]. intros st' r' Hres Hcur' Hloop.
    unfold IngestionService.ingestAll, ingestAll in Hres. rewrite Hcur in Hres.
    destruct (ingestSource _ _ _ _ _ _) as [[σ' ctl]|] eqn:Hcall; [|done].
    destruct ctl as [r0| |e]; injection Hres as <-; simpl in Hcur';
      [|done|by rewrite current_caught in Hcur'].
    injection Hcur' as ->.
    exact (ingestSource_loop _ _ _ BATCH_SIZE_pos MAX_CONCURRENT_BATCHES_pos
             _ _ _ _ _ Haw Hcall Hloop). }
  assert (IngestionService.ingestAll httpClient repository st
          = if allSettled (store st) (pendingSaves r)
            then Some {| store := store st; queue := queue st;
                         current :=
                           Some {| r_source := r_source r;
                                   r_stream := r_stream r;
                                   r_input := r_input r; batch := batch r;
                                   pendingSaves := []; r_await := AwaitNext |};
                         outcomes := outcomes st; pipelines := pipelines st;
                         thrown := thrown st |}
            else None) as Hres.
  { unfold IngestionService.ingestAll, ingestAll, ingestSource, flushPending.
    rewrite Hcur, Haw. by destruct (allSettled _ _). }
  split_and!.
  - done.
  - rewrite Hres, <- allSettled_unresolved.
    destruct (allSettled _ _); split; (done || by intros []).
  - intros id Hid. apply list_elem_of_filter in Hid as [Hid _].
    destruct (settle_fuel _ _ _ _ _ BATCH_SIZE_pos MAX_CONCURRENT_BATCHES_pos
                id st Hinv Hid) as (st' & Hsettle & _).
    by exists st'.
  - intros st'. rewrite Hres.
    destruct (allSettled _ _) eqn:Hall; [|done]. intros [= <-]. simpl.
    split; [done|]. split; [done|].
    apply Forall_lookup_2. intros id s Hid Hk.
    destruct (allSettled_resolved IngestionService.BATCH_SIZE repository
                (length (outcomes st)) (store st) (pendingSaves r) Hall)
      with id s as [Hnil|]; try done.
    + intros id' s' Hid'. by destruct (inv_saves _ _ _ _ _ _ Hinv _ _ Hid').
    + by apply elem_of_nil in Hnil.
  - intros [|id|i err] st' Hstep; simpl in Hstep.
    + fold (IngestionService.ingestAll httpClient repository st) in Hstep.
      rewrite Hres in Hstep. destruct (allSettled _ _); by simplify_eq.
    + apply settle_spec in Hstep
        as (? & ? & ? & _ & _ & _ & _ & _ & _ & _ & ->).
      simpl. by rewrite length_insert.
    + apply pipelineDone_only_logs in Hstep as (? & _ & _ & -> & _). done.
Qed.

(** Source [C] with its three batches written and none settled. *)
Lemma throttle_waits_for_every_write_witness :
  let st := Example.throttled IngestionService.BATCH_SIZE in
  IngestionService.exec (Example.httpClient IngestionService.BATCH_SIZE)
    Example.accepting (initial [Example.source_C])
    (Example.three_batches IngestionService.BATCH_SIZE) = Some st ∧
  (∃ r, current st = Some r ∧ r_await r = AwaitThrottle ∧
        length (pendingSaves r) = IngestionService.MAX_CONCURRENT_BATCHES ∧
        unresolved (store st) (pendingSaves r) = [0; 1; 2]) ∧
  ¬ is_Some (IngestionService.ingestAll
               (Example.httpClient IngestionService.BATCH_SIZE)
               Example.accepting st) ∧
  is_Some (IngestionService.step
             (Example.httpClient IngestionService.BATCH_SIZE)
             Example.accepting st (Settle 2)).
Proof.
  pose proof (three_batches_throttled IngestionService.BATCH_SIZE
                BATCH_SIZE_pos) as Hexec.
  split; [exact Hexec|].
  destruct (throttle_waits_for_every_write
              (Example.httpClient IngestionService.BATCH_SIZE)
              Example.accepting [Example.source_C]
              (Example.three_batches IngestionService.BATCH_SIZE)
              (Example.throttled IngestionService.BATCH_SIZE) _ Hexec
              eq_refl) as [_ Hthrottle].
  destruct (Hthrottle eq_refl) as (Hlen & Hresume & Hsettle & _).
  split; [|split].
  - eexists. split; [reflexivity|]. split; [reflexivity|].
    split; [exact Hlen|reflexivity].
  - intros Hsome. apply Hresume in Hsome. discriminate Hsome.
  - apply Hsettle. right. right. left.
Defined.

(** ** C3: the writes in flight when a source fails *)

(** C3 fails on the code when the call for a source throws while writes are
    in flight.  Source [A] has one full batch written when its mapper throws
    on the next element: the call is over, the failure is logged, the loop has
    taken source [B], and the write of [A] is still unresolved; nothing will
    await it.  [ingestAll] can even return with it unresolved. *)
Lemma failed_source_leaves_write_unresolved :
  let httpClient := Example.httpClient IngestionService.BATCH_SIZE in
  let sources := [Example.source_A; Example.source_B] in
  let st := Example.abandoned IngestionService.BATCH_SIZE in
  let st' := IngestionService.run httpClient Example.accepting 7 st in
  IngestionService.exec httpClient Example.accepting (initial sources)
    (Example.mapper_throws IngestionService.BATCH_SIZE) = Some st ∧
  outcomes st = [Throw (JError "bad record" "at map")] ∧
  r_source <$> current st = Some Example.source_B ∧
  save_source <$> saves (store st) !! 0 = Some 0 ∧
  save_promise <$> saves (store st) !! 0 = Some Pending ∧
  IngestionService.exec httpClient Example.accepting st
    (repeat Resume 4 ++ [Settle 1] ++ repeat Resume 2) = Some st' ∧
  returned st' ∧
  outcomes st' = [Throw (JError "bad record" "at map"); Normal ()] ∧
  save_promise <$> saves (store st') !! 0 = Some Pending.
Proof.
  split.
  { unfold IngestionService.exec, IngestionService.MAX_CONCURRENT_BATCHES.
    apply mapper_throws_abandoned, BATCH_SIZE_pos. }
  split; [reflexivity|]. split; [reflexivity|]. split; [reflexivity|].
  split; [reflexivity|]. split; [vm_compute; reflexivity|].
  split; [vm_compute; by split_and!|].
  split; vm_compute; reflexivity.
Qed.

(** ** C7: a transport error, the callback of the pipeline and the loop *)

(** How the loop of [ingestSource] is left: for the flush after it, when the
    iterator has reported completion; or by a throw, of the mapper on the
    next element or of the iterator. *)
Lemma ingestSource_loop_exit repository k σ r σ' ctl :
  r_await r = AwaitNext →
  IngestionService.ingestSource repository k σ r = Some (σ', ctl) →
  match ctl with
  | Continue r' =>
      r_await r' = AwaitNext ∨ r_await r' = AwaitThrottle ∨
      r_await r' = AwaitDrain ∧ r_input r = []
      ∧ iterator_end (r_stream r) = Normal ()
  | Return => False
  | Raise e =>
      (∃ value rest, r_input r = value :: rest
                     ∧ mapper (r_source r) value = Throw e) ∨
      r_input r = [] ∧ iterator_end (r_stream r) = Throw e
  end.
Proof.
  intros Haw. unfold IngestionService.ingestSource, ingestSource, submit.
  rewrite Haw. intros Hstep.
  repeat case_match; simplify_eq; simpl; eauto 6;
    match goal with a : () |- _ => destruct a end; auto.
Qed.

(** C7, as stated, fails.  The connection of source [D] breaks after one
    record: the pipeline reports the error and the iterator rejects.  The
    error is logged by the callback; then the loop ends without the stream
    having completed, the call throws and the source fails, its one record
    never written. *)
Lemma loop_ends_only_on_completion_counterexample :
  ∃ st,
    IngestionService.exec (Example.httpClient 2) Example.accepting
      (initial [Example.source_D])
      [Resume; PipelineDone 0 Example.hang_up; Resume; Resume] = Some st ∧
    log (store st)
    = [LogInfo "Starting ingestion for D";
       LogError "Stream error for D: socket hang up" None;
       LogError "Failed ingestion for D" (Some "at socket")] ∧
    outcomes st = [Throw Example.hang_up] ∧
    current st = None ∧ saves (store st) = [].
Proof. eexists. split; [vm_compute; reflexivity|]. by split_and!. Qed.

(** C7, amended.  When the pipeline reports a transport error, its callback
    logs it (one error entry naming the source, unless the value reported is
    [null] or [undefined]) and that is all: the writes, the frame of the
    running call, the loop over the sources and the outcomes are as before,
    the call can resume if it could before, and [ingestAll] still runs to its
    end with every source ending as its own stream and mapper determine.  So
    the callback by itself neither stops the loop nor fails the source.  The
    loop is left for the final flush only when the iterator has reported
    completion; it is left otherwise only by a throw of the mapper or of the
    iterator, which ends the call. *)
Theorem transport_error_is_only_logged httpClient repository sources evs st
    i err st' :
  IngestionService.exec httpClient repository (initial sources) evs = Some st →
  IngestionService.step httpClient repository st (PipelineDone i err)
  = Some st' →
  (∃ name,
     pipelines st !! i = Some name ∧
     log (store st') = log (store st) ++ pipelineCallback name err ∧
     (err ≠ JUndefined → err ≠ JNull →
      ∃ msg, pipelineCallback name err
             = [LogError ("Stream error for " +:+ name +:+ ": " +:+ msg)
                  None])) ∧
  saves (store st') = saves (store st) ∧ queue st' = queue st ∧
  current st' = current st ∧ outcomes st' = outcomes st ∧
  (is_Some (IngestionService.ingestAll httpClient repository st) →
   is_Some (IngestionService.ingestAll httpClient repository st')) ∧
  (∀ k σ r σ' ctl,
     r_await r = AwaitNext →
     IngestionService.ingestSource repository k σ r = Some (σ', ctl) →
     match ctl with
     | Continue r' =>
         r_await r' = AwaitNext ∨ r_await r' = AwaitThrottle ∨
         r_await r' = AwaitDrain ∧ r_input r = []
         ∧ iterator_end (r_stream r) = Normal ()
     | Return => False
     | Raise e =>
         (∃ value rest, r_input r = value :: rest
                        ∧ mapper (r_source r) value = Throw e) ∨
         r_input r = [] ∧ iterator_end (r_stream r) = Throw e
     end) ∧
  (∃ evs' st'',
     IngestionService.exec httpClient repository st' evs' = Some st'' ∧
     over st'' ∧
     (∀ k source o,
        sources !! k = Some source → outcomes st'' !! k = Some o →
        o = ingestSource_outcome httpClient source) ∧
     (Forall (loggable httpClient) sources →
      returned st'' ∧
      ∀ k source, sources !! k = Some source →
        outcomes st'' !! k = Some (ingestSource_outcome httpClient source))).
Proof.
  intros Hexec Hstep.
  pose proof (service_invariant _ _ _ _ _ Hexec) as Hinv.
  pose proof (invariant_pipelineDone _ _ _ _ _ BATCH_SIZE_pos
                MAX_CONCURRENT_BATCHES_pos _ _ _ _ Hinv Hstep) as Hinv'.
  simpl in Hstep.
  destruct (pipelineDone_only_logs _ _ _ _ Hstep)
    as (name & Hname & Hlog & Hsaves & Hqueue & Hcur & Hout).
  split_and!; try done.
  - exists name. split_and!; try done. intros Hu Hn.
    destruct err as [| |[]| | | | |[]|[]]; simpl; eauto; done.
  - unfold pipelineDone in Hstep. rewrite Hname in Hstep.
    injection Hstep as <-. unfold IngestionService.ingestAll, ingestAll. simpl.
    destruct (current st) as [r|].
    + intros Hsome.
      destruct (ingestSource_enabled IngestionService.BATCH_SIZE
                  IngestionService.MAX_CONCURRENT_BATCHES repository
                  (length (outcomes st)) (store st)
                  (logger (pipelineCallback name err) (store st)) r)
        as [[σ' ctl] ->]; [done| |by destruct ctl].
      destruct (ingestSource _ _ _ _ _ _) as [[? ?]|]; [done|].
      by destruct Hsome.
    + destruct (thrown st); [done|].
      destruct (queue st); [done|]. by destruct (httpClient _).
  - apply ingestSource_loop_exit.
  - destruct (service_ends _ _ _ _ Hinv')
      as (evs' & st'' & Hexec' & Hinv'' & Hover & Hret).
    exists evs', st''. split_and!; try done.
    + intros k source o. by eapply outcome_determined.
    + intros Hall. split; [by apply Hret|].
      intros k source. eapply returned_all; [done|by apply Hret].
Qed.

(** Source [B] after its first record, when the pipeline reports an error
    that the iterator does not pass on. *)
Lemma transport_error_is_only_logged_witness :
  let st := IngestionService.run (Example.httpClient 2) Example.accepting 2
              (initial [Example.source_B]) in
  IngestionService.exec (Example.httpClient 2) Example.accepting
    (initial [Example.source_B]) (repeat Resume 2) = Some st ∧
  ∃ st',
    IngestionService.step (Example.httpClient 2) Example.accepting st
      (PipelineDone 0 Example.hang_up) = Some st' ∧
    log (store st')
    = log (store st) ++ [LogError "Stream error for B: socket hang up" None] ∧
    current st' = current st ∧
    ∃ evs' st'',
      IngestionService.exec (Example.httpClient 2) Example.accepting st' evs'
      = Some st'' ∧ returned st'' ∧ outcomes st'' !! 0 = Some (Normal ()).
Proof.
  split; [vm_compute; reflexivity|].
  eexists. split; [vm_compute; reflexivity|].
  destruct (transport_error_is_only_logged (Example.httpClient 2)
              Example.accepting [Example.source_B] (repeat Resume 2) _ 0
              Example.hang_up _ eq_refl eq_refl)
    as (_ & _ & _ & Hcur & _ & _ & _ & evs' & st'' & Hexec & _ & _ & Hret).
  split; [vm_compute; reflexivity|]. split; [exact Hcur|].
  exists evs', st''. split; [exact Hexec|].
  destruct Hret as [Hret Hout].
  { repeat constructor. }
  split; [exact Hret|]. exact (Hout 0 Example.source_B eq_refl).
Defined.


(** * The loop on its own, the log, the order of the writes *)

(** ** The batches the loop cuts *)

Lemma batched_nil {A} size : batched size (@nil (list A)).
Proof. split; [constructor|]. intros i b Hi. by rewrite lookup_nil in Hi. Qed.

Lemma batched_cons {A} size (b : list A) bs :
  0 < size → length b = size → batched size bs → batched size (b :: bs).
Proof.
  intros Hsize Hb [Hall Hfull]. split.
  - constructor; [lia|done].
  - intros [|i] b' Hi Hlen; simpl in *; [by simplify_eq|].
    apply (Hfull i); [done|lia].
Qed.

(** What the loop hands over is the records it pushed, cut into batches, but
    for what is in the buffer when a throw ends it. *)
Lemma batches_spec BATCH_SIZE source stream input batch :
  0 < BATCH_SIZE → length batch < BATCH_SIZE →
  ∃ lost,
    batch ++ ingested source input
    = concat (batches BATCH_SIZE source stream input batch) ++ lost ∧
    length lost < BATCH_SIZE ∧
    batched BATCH_SIZE (batches BATCH_SIZE source stream input batch) ∧
    match iteration source stream input with
    | Normal _ => lost = []
    | Throw _ =>
        Forall (λ b, length b = BATCH_SIZE)
          (batches BATCH_SIZE source stream input batch)
    end.
Proof.
  intros Hsize. revert batch.
  induction input as [|value rest IH]; intros batch Hlen; simpl.
  - destruct (iterator_end stream) as [[]|e].
    + destruct (0 <? length batch) eqn:Hpos.
      * apply Nat.ltb_lt in Hpos. exists []. rewrite firstn_all. simpl.
        split_and!; [by rewrite !app_nil_r|lia| |done].
        apply (batched_snoc _ []); [constructor|lia].
      * apply Nat.ltb_ge in Hpos. destruct batch; [|simpl in Hpos; lia].
        exists []. split_and!; [done|lia|apply batched_nil|done].
    + exists batch. simpl. rewrite app_nil_r.
      split_and!; [done|lia|apply batched_nil|constructor].
  - destruct (mapper source value) as [mapped|e].
    + destruct (truthy mapped); simpl.
      * destruct (BATCH_SIZE <=? length (batch ++ [mapped])) eqn:Hfull.
        -- apply Nat.leb_le in Hfull.
           assert (length (batch ++ [mapped]) = BATCH_SIZE) as Heq
             by (rewrite length_app in *; simpl in *; lia).
           rewrite take_ge, drop_ge by lia.
           destruct (IH [] ltac:(simpl; lia)) as (lost & Hcat & Hlost & Hb & Hit).
           exists lost. simpl in Hcat. simpl.
           rewrite <- !app_assoc, <- Hcat. simpl.
           split_and!; [done|done|by apply batched_cons|].
           destruct (iteration source stream rest); [done|].
           by constructor.
        -- apply Nat.leb_gt in Hfull.
           destruct (IH (batch ++ [mapped]) Hfull)
             as (lost & Hcat & Hlost & Hb & Hit).
           exists lost. rewrite <- app_assoc in Hcat. by split_and!.
      * apply IH, Hlen.
    + exists batch. simpl. rewrite app_nil_r.
      split_and!; [done|lia|apply batched_nil|constructor].
Qed.

(** The number of batches, from the number of records pushed. *)
Lemma batches_length BATCH_SIZE source stream input :
  0 < BATCH_SIZE →
  length (batches BATCH_SIZE source stream input [])
  = match iteration source stream input with
    | Normal _ =>
        (length (ingested source input) + BATCH_SIZE - 1) / BATCH_SIZE
    | Throw _ => length (ingested source input) / BATCH_SIZE
    end.
Proof.
  intros Hsize.
  destruct (batches_spec BATCH_SIZE source stream input [] Hsize
              ltac:(simpl; lia)) as (lost & Hcat & Hlost & Hb & Hit).
  simpl in Hcat. rewrite Hcat.
  generalize dependent (batches BATCH_SIZE source stream input []).
  intros bs Hcat Hb Hit.
  destruct (iteration source stream input) as [[]|e].
  - subst lost. rewrite app_nil_r.
    destruct bs as [|b bs _] using rev_ind.
    { simpl. symmetry. apply Nat.div_small. lia. }
    rewrite (batched_length _ _ _ Hb), length_app. simpl.
    destruct Hb as [Hall _]. apply Forall_app in Hall as [_ Hlast].
    apply Forall_inv in Hlast. simpl in Hlast.
    apply (Nat.div_unique _ _ _ (length b - 1)); lia.
  - rewrite length_app.
    assert (length (concat bs) = BATCH_SIZE * length bs) as ->.
    { clear Hcat Hb. induction Hit as [|b bs Hb' _ IH]; simpl; [lia|].
      rewrite length_app, IH, Hb'. lia. }
    apply (Nat.div_unique _ _ _ (length lost)); lia.
Qed.

Lemma batches_nil BATCH_SIZE source stream input :
  0 < BATCH_SIZE → ingested source input = [] →
  batches BATCH_SIZE source stream input [] = [].
Proof.
  intros Hsize Hnil.
  destruct (batches_spec BATCH_SIZE source stream input [] Hsize
              ltac:(simpl; lia)) as (lost & Hcat & _ & [Hall _] & _).
  simpl in Hcat. rewrite Hnil in Hcat.
  destruct (batches _ _ _ _ _) as [|b bs]; [done|].
  apply Forall_inv in Hall. destruct b; simpl in *; [lia|done].
Qed.

Lemma iteration_Normal source stream input :
  iteration source stream input = Normal () ↔
  Forall (λ value, ∃ mapped, mapper source value = Normal mapped) input ∧
  iterator_end stream = Normal ().
Proof.
  induction input as [|value rest IH]; simpl.
  - split; [by intros ->|by intros [_ ->]].
  - destruct (mapper source value) as [mapped|e] eqn:Hmap.
    + rewrite IH, Forall_cons. split; [|tauto].
      intros (? & ?). split_and!; eauto.
    + split; [done|]. intros (Hall & _). apply Forall_cons in Hall.
      destruct Hall as [[mapped Hmapped] _]. by rewrite Hmap in Hmapped.
Qed.

(** When the mapper throws on no element, the records pushed are the records
    of the source. *)
Lemma ingested_records source input :
  Forall (λ value, ∃ mapped, mapper source value = Normal mapped) input →
  ingested source input = records source input.
Proof.
  induction 1 as [|value rest [mapped Hmap] _ IH]; [done|].
  simpl. unfold records in *. simpl. by rewrite Hmap, IH.
Qed.

(** ** Lists of writes *)

Lemma calls_app l1 l2 : calls (l1 ++ l2) = calls l1 ++ calls l2.
Proof. unfold calls. by rewrite filter_app, fmap_app. Qed.

Lemma calls_new (new : list Save) :
  Forall (λ s, is_Some (save_call s)) new → calls new = save_batch <$> new.
Proof.
  unfold calls. induction 1 as [|s new Hs _ IH]; [done|].
  by rewrite filter_cons_True, !fmap_cons, IH.
Qed.

Lemma calls_insert l id s s' :
  l !! id = Some s →
  save_batch s' = save_batch s → save_call s' = save_call s →
  calls (<[id := s']> l) = calls l.
Proof.
  intros Hid Hb Hc. revert id Hid.
  induction l as [|x l IH]; intros [|id] Hid; simplify_eq/=; [|].
  - unfold calls. rewrite !filter_cons, Hc.
    case_decide; simpl; by rewrite ?Hb.
  - unfold calls in *. rewrite !filter_cons.
    case_decide; simpl; by rewrite IH.
Qed.

Lemma written_new k (new : list Save) :
  Forall (λ s, save_source s = k ∧ is_Some (save_call s)) new →
  written k new = save_batch <$> new.
Proof.
  unfold written. induction 1 as [|s new Hs _ IH]; [done|].
  by rewrite filter_cons_True, !fmap_cons, IH.
Qed.

Lemma accepted_app l1 l2 : accepted (l1 ++ l2) = accepted l1 ++ accepted l2.
Proof. unfold accepted. by rewrite filter_app. Qed.

Lemma accepted_new (new : list Save) :
  Forall (λ s, ¬ (save_call s = Some SaveAllResolves
                  ∧ save_promise s = Fulfilled)) new →
  accepted new = [].
Proof.
  unfold accepted. induction 1 as [|s new Hs _ IH]; [done|].
  by rewrite filter_cons_False.
Qed.

(** Settling a write moves it among the accepted ones, or not. *)
Lemma accepted_insert l id s s' :
  l !! id = Some s → save_promise s = Pending →
  accepted (<[id := s']> l)
  ≡ₚ (if decide (save_call s' = Some SaveAllResolves
                 ∧ save_promise s' = Fulfilled) then [s'] else [])
     ++ accepted l.
Proof.
  intros Hid Hpending. revert id Hid.
  induction l as [|x l IH]; intros [|id] Hid; simplify_eq/=.
  - unfold accepted. rewrite !filter_cons.
    rewrite (decide_False (P := _ ∧ save_promise s = Fulfilled))
      by (rewrite Hpending; by intros [_ ?]).
    by case_decide.
  - unfold accepted in *. rewrite !filter_cons.
    destruct (decide (save_call x = Some SaveAllResolves
                      ∧ save_promise x = Fulfilled)).
    + rewrite (IH _ Hid). by rewrite Permutation_middle.
    + by apply IH.
Qed.


(** ** Writes not yet resolved *)

Lemma unobserved_app k l1 l2 :
  unobserved k (l1 ++ l2) = unobserved k l1 ++ unobserved k l2.
Proof. unfold unobserved. by rewrite filter_app. Qed.

Lemma unobserved_other k l :
  Forall (λ s, save_source s ≠ k) l → unobserved k l = [].
Proof.
  unfold unobserved. induction 1 as [|s l Hs _ IH]; [done|].
  rewrite filter_cons_False; [done|]. by intros [? _].
Qed.

Lemma unobserved_resolved k l : resolved k l → unobserved k l = [].
Proof.
  unfold unobserved, resolved. induction 1 as [|s l Hs _ IH]; [done|].
  rewrite filter_cons_False; [done|]. intros [Hk Hp]. by apply Hs.
Qed.

Lemma unobserved_insert k l id s' :
  save_promise s' ≠ Pending →
  length (unobserved k (<[id := s']> l)) ≤ length (unobserved k l).
Proof.
  intros Hful. unfold unobserved. revert id.
  induction l as [|x l IH]; intros [|id]; simpl; [done..| |].
  - rewrite filter_cons_False by (by intros [_ ?]).
    rewrite filter_cons. case_decide; simpl; lia.
  - rewrite !filter_cons. specialize (IH id).
    case_decide; simpl; lia.
Qed.

Lemma length_filter_ne (x : nat) (ids : list nat) :
  x ∈ ids → length (filter (λ id, id ≠ x) ids) < length ids.
Proof.
  induction ids as [|id ids IH]; intros Hin; [by apply elem_of_nil in Hin|].
  rewrite filter_cons. apply elem_of_cons in Hin as [->|Hin].
  - rewrite decide_False by (by intros ?). simpl.
    apply Nat.lt_succ_r, length_filter.
  - specialize (IH Hin). case_decide; simpl; lia.
Qed.

(** Writes whose promises are all in a list are no more than the list is
    long. *)
Lemma unobserved_length k (l : list Save) (ids : list nat) :
  (∀ id s, l !! id = Some s → save_source s = k →
           id ∈ ids ∨ save_promise s ≠ Pending) →
  length (unobserved k l) ≤ length ids.
Proof.
  revert ids. induction l as [|s l IH] using rev_ind; intros ids Hids.
  { simpl. lia. }
  rewrite unobserved_app, length_app.
  destruct (decide (save_source s = k ∧ save_promise s = Pending))
    as [[Hk Hp]|Hnot].
  - assert (length l ∈ ids) as Hin.
    { destruct (Hids (length l) s) as [?|Hful]; [|done|done|done].
      by apply list_lookup_middle. }
    pose proof (length_filter_ne _ _ Hin).
    specialize (IH (filter (λ id, id ≠ length l) ids)).
    unfold unobserved at 2. rewrite filter_cons_True by done. simpl.
    enough (length (unobserved k l)
            ≤ length (filter (λ id, id ≠ length l) ids)) by lia.
    apply IH. intros id s0 Hid Hk0.
    destruct (Hids id s0) as [?|?]; [by apply lookup_app_l_Some|done| |by right].
    left. apply list_elem_of_filter. split; [|done].
    apply lookup_lt_Some in Hid. lia.
  - unfold unobserved at 2. rewrite filter_cons_False by done. simpl.
    rewrite Nat.add_0_r. apply IH. intros id s0 Hid Hk0.
    apply (Hids id s0); [by apply lookup_app_l_Some|done].
Qed.


Section Runs.

Variable BATCH_SIZE : nat.
Variable MAX_CONCURRENT_BATCHES : nat.
Variable httpClient : string → Completion ResponseStream.
Variable repository : nat → list JsValue → SaveAll.
Variable sources : list IngestionSource.

Hypothesis BATCH_SIZE_pos : 0 < BATCH_SIZE.
Hypothesis MAX_CONCURRENT_BATCHES_pos : 0 < MAX_CONCURRENT_BATCHES.

Local Abbreviation saveBatch := (saveBatch repository).
Local Abbreviation ingestSource :=
  (ingestSource BATCH_SIZE MAX_CONCURRENT_BATCHES repository).
Local Abbreviation ingestAll :=
  (ingestAll BATCH_SIZE MAX_CONCURRENT_BATCHES httpClient repository).
Local Abbreviation step :=
  (step BATCH_SIZE MAX_CONCURRENT_BATCHES httpClient repository).
Local Abbreviation exec :=
  (exec BATCH_SIZE MAX_CONCURRENT_BATCHES httpClient repository).
Local Abbreviation invariant :=
  (invariant BATCH_SIZE MAX_CONCURRENT_BATCHES httpClient repository sources).
Local Abbreviation upcoming := (upcoming BATCH_SIZE).
Local Abbreviation saveAll_calls := (saveAll_calls BATCH_SIZE httpClient).

(** ** What one step is *)

(** The five kinds of step. *)
Lemma step_cases st ev st' :
  step st ev = Some st' →
  (∃ id s s' entries,
     ev = Settle id ∧ saves (store st) !! id = Some s ∧
     save_promise s = Pending ∧ saveBatch_resume s = Some (s', entries) ∧
     save_source s' = save_source s ∧ save_batch s' = save_batch s ∧
     save_call s' = save_call s ∧ save_promise s' ≠ Pending ∧
     st' = {| store := {| saves := <[id := s']> (saves (store st));
                          log := log (store st) ++ entries |};
              queue := queue st; current := current st;
              outcomes := outcomes st; pipelines := pipelines st;
              thrown := thrown st |}) ∨
  (∃ i err name,
     ev = PipelineDone i err ∧ pipelines st !! i = Some name ∧
     st' = {| store := logger (pipelineCallback name err) (store st);
              queue := queue st; current := current st;
              outcomes := outcomes st;
              pipelines := delete i (pipelines st);
              thrown := thrown st |}) ∨
  (∃ source rest e,
     ev = Resume ∧ current st = None ∧ queue st = source :: rest ∧
     httpClient (url source) = Throw e ∧
     st' = {| store := logger (caught_entries source e)
                         (logger [starting source] (store st));
              queue := rest; current := None;
              outcomes := outcomes st ++ [Throw e];
              pipelines := pipelines st;
              thrown := caught_thrown source e (thrown st) |}) ∨
  (∃ source rest responseStream,
     ev = Resume ∧ current st = None ∧ queue st = source :: rest ∧
     httpClient (url source) = Normal responseStream ∧
     st' = {| store := logger [starting source] (store st);
              queue := rest;
              current := Some (start source responseStream);
              outcomes := outcomes st;
              pipelines := pipelines st ++ [name source];
              thrown := thrown st |}) ∨
  (∃ r σ' ctl,
     ev = Resume ∧ current st = Some r ∧
     ingestSource (length (outcomes st)) (store st) r = Some (σ', ctl) ∧
     st' = match ctl with
           | Continue r' =>
               {| store := σ'; queue := queue st; current := Some r';
                  outcomes := outcomes st; pipelines := pipelines st;
                  thrown := thrown st |}
           | Return =>
               {| store := σ'; queue := queue st; current := None;
                  outcomes := outcomes st ++ [Normal ()];
                  pipelines := pipelines st; thrown := thrown st |}
           | Raise e =>
               {| store := logger (caught_entries (r_source r) e) σ';
                  queue := queue st; current := None;
                  outcomes := outcomes st ++ [Throw e];
                  pipelines := pipelines st;
                  thrown := caught_thrown (r_source r) e (thrown st) |}
           end).
Proof.
  destruct ev as [|id|i err]; simpl; intros Hstep.
  - right. right. unfold ingestAll in Hstep.
    destruct (current st) as [r|] eqn:Hcur.
    + right. right.
      destruct (ingestSource _ _ _) as [[σ' ctl]|] eqn:Hcall; [|done].
      exists r, σ', ctl. destruct ctl; simplify_eq; rewrite ?caught_eq; done.
    + destruct (thrown st) eqn:Hthrown; [done|].
      destruct (queue st) as [|source rest]; [done|].
      destruct (httpClient (url source)) as [responseStream|e] eqn:Hhttp;
        simplify_eq.
      * right. left. by exists source, rest, responseStream.
      * left. exists source, rest, e. by rewrite caught_eq, Hthrown.
  - left. apply settle_spec in Hstep
      as (s & s' & entries & ? & ? & ? & ? & ? & ? & ? & ?).
    by exists id, s, s', entries.
  - right. left. unfold pipelineDone in Hstep.
    destruct (pipelines st !! i) as [name|] eqn:Hname; [|done].
    simplify_eq. by exists i, err, name.
Qed.

(** A property that the initial state has and every step keeps holds in every
    state of every execution; the step may rely on the invariant. *)
Lemma reachable_ind (P : State → Prop) :
  P (initial sources) →
  (∀ st ev st',
     invariant st → invariant st' → P st → step st ev = Some st' → P st') →
  ∀ evs st, exec (initial sources) evs = Some st → P st.
Proof.
  intros Hinit Hstep evs st Hexec.
  assert (∀ evs st0 st,
            invariant st0 → P st0 → exec st0 evs = Some st → P st) as Hgen.
  { clear evs st Hexec.
    induction evs as [|ev evs IH]; intros st0 st Hinv HP Hexec; simpl in *.
    - by simplify_eq.
    - destruct (step st0 ev) as [st1|] eqn:Hst; [|done].
      assert (invariant st1)
        by (eapply (invariant_step BATCH_SIZE MAX_CONCURRENT_BATCHES);
            eauto).
      eapply IH; [| |done]; eauto. }
  eapply Hgen; [by apply invariant_initial|done|done].
Qed.

(** The source of the running call, and the one the loop takes next. *)
Lemma current_source st r :
  invariant st → current st = Some r →
  sources !! length (outcomes st) = Some (r_source r).
Proof.
  intros [(done & Hord & Hlen) _ _ _ _] Hcur. rewrite Hcur in Hord.
  rewrite Hord, <- Hlen. by apply list_lookup_middle.
Qed.

Lemma next_source st source rest :
  invariant st → current st = None → queue st = source :: rest →
  sources !! length (outcomes st) = Some source.
Proof.
  intros [(done & Hord & Hlen) _ _ _ _] Hcur Hq. rewrite Hcur, Hq in Hord.
  rewrite Hord, <- Hlen. by apply list_lookup_middle.
Qed.

(** A call that is over ended as its source determines. *)
Lemma outcome_over st k o source :
  invariant st → outcomes st !! k = Some o → sources !! k = Some source →
  ingestSource_outcome httpClient source = o.
Proof.
  intros Hinv Ho Hsource.
  destruct (inv_done _ _ _ _ _ _ Hinv _ _ Ho) as (source' & ? & -> & _).
  congruence.
Qed.

(** Between two calls nothing is written yet for the sources to come. *)
Lemma written_next st k :
  invariant st → length (outcomes st) + length (option_list (current st)) ≤ k →
  written k (saves (store st)) = [].
Proof.
  intros [_ Hsaves _ _ _] Hk. apply written_other. intros s Hs.
  apply list_elem_of_lookup in Hs as [id Hid].
  destruct (Hsaves _ _ Hid). lia.
Qed.

(** ** What one resumption of [ingestSource] does to the store *)

Lemma saveBatch_caught_silent error promise entries :
  saveBatch_caught error = (promise, entries) →
  Forall silent entries ∧ promise ≠ Pending ∧ length entries ≤ 1.
Proof.
  unfold saveBatch_caught.
  destruct (saveBatch_catch error) as [entry|reason] eqn:Hcatch;
    intros [= <- <-]; [|by split_and!; try constructor].
  split_and!; [|done|done]. repeat constructor;
    destruct error as [| |[]| | | | | |]; simpl in Hcatch; by simplify_eq.
Qed.

Lemma saveBatch_effect src b σ σ' id :
  saveBatch src b σ = (σ', id) → 0 < length b →
  id = length (saves σ) ∧
  ∃ s errors,
    saves σ' = saves σ ++ [s] ∧ log σ' = log σ ++ errors ∧
    Forall silent errors ∧
    save_source s = src ∧ save_batch s = b ∧ is_Some (save_call s) ∧
    ¬ (save_call s = Some SaveAllResolves ∧ save_promise s = Fulfilled).
Proof.
  unfold saveBatch. intros Hsave Hlen.
  destruct (length b =? 0) eqn:Hzero; [apply Nat.eqb_eq in Hzero; lia|].
  destruct (repository (length (saves σ)) b) as [error| |error] eqn:Hrepo.
  - destruct (saveBatch_caught error) as [promise entries] eqn:Hcaught.
    apply saveBatch_caught_silent in Hcaught as (Hsilent & _).
    simplify_eq. split; [done|].
    eexists _, entries. simpl. split_and!; try done. by intros [? _].
  - simplify_eq. split; [done|].
    eexists _, []. simpl. rewrite app_nil_r. split_and!; try done.
    by intros [_ ?].
  - simplify_eq. split; [done|].
    eexists _, []. simpl. rewrite app_nil_r. split_and!; try done.
    by intros [? _].
Qed.

Lemma ingestSource_effect k σ r σ' ctl :
  ingestSource k σ r = Some (σ', ctl) →
  ∃ new errors,
    saves σ' = saves σ ++ new ∧
    log σ' = log σ ++ errors
             ++ match ctl with
                | Return => [finishing (r_source r)]
                | _ => []
                end ∧
    Forall silent errors ∧ Forall (fresh k) new ∧
    upcoming r = (save_batch <$> new)
                 ++ match ctl with Continue r' => upcoming r' | _ => [] end ∧
    match ctl with Continue r' => r_source r' = r_source r | _ => True end.
Proof.
  unfold ingestSource, flushPending, submit, upcoming. intros Hcall.
  destruct (r_await r) eqn:Haw.
  - destruct (r_input r) as [|value rest] eqn:Hin; simpl.
    + destruct (iterator_end (r_stream r)) as [[]|e] eqn:Hend.
      * destruct (0 <? length (batch r)) eqn:Hpos.
        -- apply Nat.ltb_lt in Hpos.
           destruct (saveBatch _ _ _) as [σ1 id] eqn:Hsave.
           apply saveBatch_effect in Hsave
               as (-> & s & errors & Hsaves & Hlog & Herr & Hk & Hb & Hc & Hacc);
             [|by rewrite firstn_all].
           simplify_eq. exists [s], errors. simpl.
           rewrite Hb, app_nil_r. by split_and!; try done; repeat constructor.
        -- simplify_eq. exists [], []. simpl.
           rewrite !app_nil_r. by split_and!.
      * simplify_eq. exists [], []. simpl. rewrite !app_nil_r. by split_and!.
    + destruct (mapper (r_source r) value) as [mapped|e] eqn:Hmap.
      * destruct (truthy mapped) eqn:Htruthy; simpl in *.
        -- destruct (BATCH_SIZE <=? length (batch r ++ [mapped])) eqn:Hfull.
           ++ apply Nat.leb_le in Hfull.
              destruct (saveBatch _ _ _) as [σ1 id] eqn:Hsave.
              apply saveBatch_effect in Hsave
                  as (-> & s & errors & Hsaves & Hlog & Herr & Hk & Hb & Hc
                      & Hacc);
                [|rewrite length_take; lia].
              destruct (MAX_CONCURRENT_BATCHES <=? _); simplify_eq;
                exists [s], errors; simpl; rewrite Hb, app_nil_r;
                by split_and!; try done; repeat constructor.
           ++ simplify_eq. exists [], []. simpl. rewrite !app_nil_r.
              by split_and!.
        -- simplify_eq. exists [], []. simpl. rewrite !app_nil_r.
           by split_and!.
      * simplify_eq. exists [], []. simpl. rewrite !app_nil_r. by split_and!.
  - destruct (allSettled σ (pendingSaves r)); simplify_eq.
    exists [], []. simpl. rewrite !app_nil_r. by split_and!.
  - destruct (allSettled σ (pendingSaves r)); simplify_eq.
    exists [], []. simpl. rewrite !app_nil_r. by split_and!.
  - destruct (finished_result (r_stream r)) as [[]|e]; simplify_eq;
      exists [], []; simpl; rewrite ?app_nil_r; by split_and!.
Qed.

Lemma written_effect k n σ σ' new :
  saves σ' = saves σ ++ new → Forall (fresh n) new →
  written k (saves σ')
  = written k (saves σ) ++ if decide (k = n) then save_batch <$> new else [].
Proof.
  intros -> Hnew. rewrite written_app. f_equal. case_decide as Hk.
  - subst. apply written_new. eapply Forall_impl; [done|].
    by intros s (? & ? & _).
  - apply written_other. intros s Hs.
    rewrite Forall_forall in Hnew. destruct (Hnew _ Hs) as (? & _). congruence.
Qed.

Lemma calls_effect n σ σ' new :
  saves σ' = saves σ ++ new → Forall (fresh n) new →
  calls (saves σ') = calls (saves σ) ++ (save_batch <$> new).
Proof.
  intros -> Hnew. rewrite calls_app. f_equal. apply calls_new.
  eapply Forall_impl; [done|]. by intros s (? & ? & _).
Qed.

(** ** The batches handed over, against the loop run on its own *)

(** At every point of every execution: what the running call has written and
    what it has still to write are the batches of its source; a call that is
    over has written the batches of its source; and all the batches handed
    over, then those to come, are the batches of the sources one after the
    other. *)
Lemma plan_reachable evs st :
  exec (initial sources) evs = Some st →
  (∀ r, current st = Some r →
     written (length (outcomes st)) (saves (store st)) ++ upcoming r
     = saveAll_calls (r_source r)) ∧
  (∀ k source, k < length (outcomes st) → sources !! k = Some source →
     written k (saves (store st)) = saveAll_calls source) ∧
  calls (saves (store st)) ++ from_option upcoming [] (current st)
  ++ flat_map saveAll_calls (queue st)
  = flat_map saveAll_calls sources.
Proof.
  revert evs st. apply reachable_ind;
    [split_and!; simpl; [done|intros; lia|done]|].
  intros st ev st' Hinv Hinv' (Hcur & Hdone & Hcalls) Hstep.
  destruct (step_cases _ _ _ Hstep)
    as [(id & s & s' & entry & -> & Hid & _ & _ & Hk & Hb & Hc & _ & ->)
       |[(i & err & name & -> & _ & ->)
        |[(source & rest & e & -> & Hnone & Hq & Hhttp & ->)
         |[(source & rest & stream & -> & Hnone & Hq & Hhttp & ->)
          |(r & σ' & ctl & -> & Hr & Hcall & ->)]]]]; simpl in *.
  - split_and!.
    + intros r Hr. rewrite (written_insert _ _ _ s) by done. by apply Hcur.
    + intros k source Hlt Hsrc.
      rewrite (written_insert _ _ _ s) by done. by apply Hdone.
    + by rewrite (calls_insert _ _ s).
  - done.
  - assert (saveAll_calls source = []) as Hnil
      by (unfold saveAll_calls; by rewrite Hhttp).
    split_and!; [done| |].
    + intros k source' Hlt Hsrc. rewrite length_app in Hlt. simpl in Hlt.
      destruct (decide (k = length (outcomes st))) as [->|Hne];
        [|apply Hdone; [lia|done]].
      rewrite (next_source _ _ _ Hinv Hnone Hq) in Hsrc. simplify_eq.
      rewrite Hnil. apply written_next; [done|]. rewrite Hnone. simpl. lia.
    + rewrite Hnone, Hq in Hcalls. simpl in *. by rewrite Hnil in Hcalls.
  - assert (saveAll_calls source = upcoming (start source stream)) as Hplan
      by (unfold saveAll_calls; by rewrite Hhttp).
    split_and!; [|done|].
    + intros r [= <-]. simpl. rewrite Hplan.
      rewrite written_next; [done|done|]. rewrite Hnone. simpl. lia.
    + rewrite Hnone, Hq in Hcalls. simpl in *. by rewrite <- Hplan.
  - apply ingestSource_effect in Hcall
      as (new & errors & Hsaves & _ & _ & Hnew & Hup & Hsrc).
    specialize (Hcur r Hr). rewrite Hr in Hcalls. simpl in Hcalls.
    pose proof (current_source _ _ Hinv Hr) as Hsource.
    assert (∀ k source, k < S (length (outcomes st)) →
              sources !! k = Some source →
              written k (saves σ')
              ++ (if decide (k = length (outcomes st))
                  then match ctl with
                       | Continue r' => upcoming r'
                       | _ => []
                       end
                  else [])
              = saveAll_calls source) as Hover.
    { intros k source Hlt Hsrc'.
      rewrite (written_effect k _ _ _ _ Hsaves Hnew).
      case_decide as Hk.
      - subst k. rewrite Hsource in Hsrc'. simplify_eq.
        by rewrite <- app_assoc, <- Hup.
      - rewrite !app_nil_r. apply Hdone; [lia|done]. }
    assert (calls (saves σ')
            ++ match ctl with Continue r' => upcoming r' | _ => [] end
            ++ flat_map saveAll_calls (queue st)
            = flat_map saveAll_calls sources) as Hcalls'.
    { rewrite (calls_effect _ _ _ _ Hsaves Hnew), <- Hcalls, Hup.
      by rewrite <- !app_assoc. }
    destruct ctl as [r'| |e]; simpl in *.
    + split_and!; [|intros k source Hlt Hsrc'|done].
      * intros ? [= <-]. rewrite Hsrc.
        specialize (Hover _ _ (Nat.lt_succ_diag_r _) Hsource).
        by rewrite decide_True in Hover.
      * specialize (Hover k source ltac:(lia) Hsrc').
        rewrite decide_False, app_nil_r in Hover by lia. done.
    + split_and!; [done|intros k source Hlt Hsrc'|done].
      rewrite length_app in Hlt. simpl in Hlt.
      specialize (Hover k source ltac:(lia) Hsrc').
      by destruct (decide _); rewrite app_nil_r in Hover.
    + split_and!; [done|intros k source Hlt Hsrc'|done].
      rewrite length_app in Hlt. simpl in Hlt.
      specialize (Hover k source ltac:(lia) Hsrc').
      by destruct (decide _); rewrite app_nil_r in Hover.
Qed.

(** ** The writes of a call whose loop ran to completion *)

(** How a resumption throws: the mapper or the iterator in the loop, the
    response stream after the drain; never in [flushPending]. *)
Lemma ingestSource_Raise k σ r σ' e :
  ingestSource k σ r = Some (σ', Raise e) →
  σ' = σ ∧
  match r_await r with
  | AwaitNext => iteration (r_source r) (r_stream r) (r_input r) = Throw e
  | AwaitFinished => finished_result (r_stream r) = Throw e
  | _ => False
  end.
Proof.
  unfold ingestSource, flushPending, submit. intros Hcall.
  destruct (r_await r); repeat case_match; simplify_eq; simpl;
    repeat match goal with H : _ = _ |- _ => rewrite H end; done.
Qed.

Lemma iteration_app source stream consumed input :
  iteration source stream (consumed ++ input) = Normal () →
  iteration source stream input = Normal ().
Proof.
  rewrite !iteration_Normal, Forall_app. tauto.
Qed.

(** When the loop of a call ran to completion, the call ended, by a return or
    by a throw, with all its writes resolved. *)
Lemma drained_reachable evs st :
  exec (initial sources) evs = Some st →
  ∀ k source stream,
    k < length (outcomes st) → sources !! k = Some source →
    httpClient (url source) = Normal stream →
    iteration source stream (elements stream) = Normal () →
    resolved k (saves (store st)).
Proof.
  intros Hexec. pattern st. revert evs st Hexec.
  apply reachable_ind; cbv beta; [simpl; intros; lia|].
  intros st ev st' Hinv Hinv' Hres Hstep k source stream Hlt Hsrc Hstream Hit.
  destruct (step_cases _ _ _ Hstep)
    as [(id & s & s' & entry & -> & Hid & _ & _ & Hk & Hb & Hc & Hful & ->)
       |[(i & err & name & -> & _ & ->)
        |[(source' & rest & e & -> & Hnone & Hq & Hhttp & ->)
         |[(source' & rest & stream' & -> & Hnone & Hq & Hhttp & ->)
          |(r & σ' & ctl & -> & Hr & Hcall & ->)]]]]; simpl in *.
  - apply resolved_insert; eauto.
  - eauto.
  - rewrite length_app in Hlt. simpl in Hlt.
    destruct (decide (k = length (outcomes st))) as [->|Hne];
      [|eapply Hres; eauto; lia].
    rewrite (next_source _ _ _ Hinv Hnone Hq) in Hsrc. congruence.
  - eauto.
  - pose proof (current_source _ _ Hinv Hr) as Hsource.
    pose proof (ingestSource_effect _ _ _ _ _ Hcall)
      as (new & errors & Hsaves & _ & _ & Hnew & _ & _).
    assert (k < length (outcomes st) → resolved k (saves σ')) as Hold.
    { intros Hlt'. rewrite Hsaves. apply resolved_app; [eauto|].
      eapply Forall_impl; [done|]. intros s (? & _) ?. lia. }
    destruct ctl as [r'| |e]; simpl in *; [by apply Hold|..];
      rewrite length_app in Hlt; simpl in Hlt;
      (destruct (decide (k = length (outcomes st))) as [->|Hne];
       [|apply Hold; lia]);
      rewrite Hsource in Hsrc; simplify_eq.
    + destruct (inv_done _ _ _ _ _ _ Hinv' (length (outcomes st)) (Normal ()))
        as (source & Hsource' & Hout & stream' & _ & _ & _ & Hresolved);
        [simpl; by rewrite lookup_app_r, Nat.sub_diag|done].
    + apply ingestSource_Raise in Hcall as [-> Hwhere].
      destruct (inv_frame _ _ _ _ _ _ Hinv _ Hr) as (Hhttp & Hpend & Hawait).
      rewrite Hhttp in Hstream. simplify_eq.
      destruct (r_await r); try done.
      * destruct Hawait as (_ & consumed & Hel & _). rewrite Hel in Hit.
        apply iteration_app in Hit. by rewrite Hit in Hwhere.
      * destruct Hawait as [Hnil _]. rewrite Hnil in Hpend.
        apply Forall_lookup_2. intros id s Hid Hk.
        destruct (Hpend _ _ Hid Hk) as [Hin|]; [|done].
        by apply elem_of_nil in Hin.
Qed.

(** ** The log *)

Lemma filter_info_nil (entries : list LogEntry) :
  Forall (λ entry, is_info entry = false) entries →
  filter (λ entry, is_info entry) entries = [].
Proof.
  induction 1 as [|entry entries Hinfo _ IH]; [done|].
  rewrite filter_cons_False; [exact IH|]. rewrite Hinfo. by intros [].
Qed.

Lemma filter_debug_nil (entries : list LogEntry) :
  Forall (λ entry, is_debug entry = false) entries →
  filter (λ entry, is_debug entry) entries = [].
Proof.
  induction 1 as [|entry entries Hdebug _ IH]; [done|].
  rewrite filter_cons_False; [exact IH|]. rewrite Hdebug. by intros [].
Qed.

Lemma filter_silent_info (entries : list LogEntry) :
  Forall silent entries → filter (λ entry, is_info entry) entries = [].
Proof.
  intros Hsilent. apply filter_info_nil.
  eapply Forall_impl; [done|]. by intros entry [? _].
Qed.

Lemma filter_silent_debug (entries : list LogEntry) :
  Forall silent entries → filter (λ entry, is_debug entry) entries = [].
Proof.
  intros Hsilent. apply filter_debug_nil.
  eapply Forall_impl; [done|]. by intros entry [_ ?].
Qed.

Lemma pipelineCallback_silent name err :
  Forall silent (pipelineCallback name err).
Proof. destruct err as [| |[]| | | | |[]|[]]; by repeat constructor. Qed.

Lemma caught_entries_silent source e : Forall silent (caught_entries source e).
Proof.
  unfold caught_entries.
  destruct (ingestAll_catch source e) as [entry|] eqn:Hcatch; [|constructor].
  repeat constructor;
    destruct e as [| |[]| | | | | |]; simpl in Hcatch; by simplify_eq.
Qed.

(** What [saveBatch] logs when its write settles: the batch saved, at level
    [debug], or the failure if it logs it. *)
Lemma saveBatch_resume_effect s s' entries :
  saveBatch_resume s = Some (s', entries) →
  save_call s = Some SaveAllResolves ∧ entries = [saved_entry s]
  ∧ save_promise s' = Fulfilled ∨
  (∃ e, save_call s = Some (SaveAllRejects e)) ∧ Forall silent entries.
Proof.
  unfold saveBatch_resume. intros Hres.
  destruct (save_promise s); try done.
  destruct (save_call s) as [[error| |error]|]; simplify_eq.
  - by left.
  - right. split; [by exists error|].
    destruct (saveBatch_caught error) as [promise entries'] eqn:Hcaught.
    apply saveBatch_caught_silent in Hcaught as (? & _). by simplify_eq.
Qed.

(** At level [log] the log holds, source after source: the start of the
    call, and its end if the call returned. *)
Lemma info_reachable evs st :
  exec (initial sources) evs = Some st →
  filter (λ entry, is_info entry) (log (store st))
  = flat_map (info_entries httpClient) (take (length (outcomes st)) sources)
    ++ from_option (λ r, [starting (r_source r)]) [] (current st).
Proof.
  intros Hexec. pattern st. revert evs st Hexec.
  apply reachable_ind; cbv beta; [done|].
  intros st ev st' Hinv Hinv' Hlog Hstep.
  destruct (step_cases _ _ _ Hstep)
    as [(id & s & s' & entry & -> & _ & _ & Hentry & _ & _ & _ & _ & ->)
       |[(i & err & name & -> & _ & ->)
        |[(source & rest & e & -> & Hnone & Hq & Hhttp & ->)
         |[(source & rest & stream & -> & Hnone & Hq & Hhttp & ->)
          |(r & σ' & ctl & -> & Hr & Hcall & ->)]]]]; simpl in *.
  - rewrite filter_app, Hlog.
    rewrite (filter_info_nil entry), app_nil_r; [done|].
    apply saveBatch_resume_effect in Hentry as [(_ & -> & _)|[_ Hsilent]];
      [by repeat constructor|].
    eapply Forall_impl; [done|]. by intros ? [? _].
  - rewrite filter_app, Hlog.
    by rewrite (filter_silent_info _ (pipelineCallback_silent _ _)), app_nil_r.
  - rewrite Hnone in Hlog. simpl in Hlog. rewrite app_nil_r in *.
    rewrite !filter_app, Hlog, length_app. simpl.
    rewrite Nat.add_1_r, (take_S_r _ _ source)
      by (by eapply next_source).
    rewrite flat_map_app. simpl. rewrite app_nil_r.
    rewrite (filter_silent_info (caught_entries _ _)), app_nil_r
      by apply caught_entries_silent.
    unfold info_entries, ingestSource_outcome. by rewrite Hhttp.
  - rewrite Hnone in Hlog. simpl in Hlog. rewrite app_nil_r in *.
    by rewrite !filter_app, Hlog.
  - rewrite Hr in Hlog. simpl in Hlog.
    pose proof (current_source _ _ Hinv Hr) as Hsource.
    pose proof (ingestSource_effect _ _ _ _ _ Hcall)
      as (new & errors & _ & Hlog' & Herr & _ & _ & Hsrc).
    destruct ctl as [r'| |e]; simpl in *.
    + rewrite Hlog', !filter_app, Hlog, Hsrc.
      by rewrite (filter_silent_info _ Herr), !app_nil_r.
    + rewrite Hlog', !filter_app, Hlog, length_app. simpl.
      rewrite Nat.add_1_r, (take_S_r _ _ _ Hsource), flat_map_app. simpl.
      rewrite (filter_silent_info _ Herr), !app_nil_r.
      unfold info_entries.
      rewrite (outcome_over _ _ _ _ Hinv' (list_lookup_middle _ [] _ _ eq_refl) Hsource).
      by rewrite <- app_assoc.
    + rewrite !filter_app, Hlog', !filter_app, Hlog, length_app. simpl.
      rewrite Nat.add_1_r, (take_S_r _ _ _ Hsource), flat_map_app. simpl.
      rewrite (filter_silent_info _ Herr), !app_nil_r.
      rewrite (filter_silent_info (caught_entries _ _)), app_nil_r
        by apply caught_entries_silent.
      unfold info_entries.
      by rewrite (outcome_over _ _ _ _ Hinv' (list_lookup_middle _ [] _ _ eq_refl) Hsource).
Qed.

(** At level [debug] the log holds one entry for each write the repository
    has fulfilled. *)
Lemma debug_reachable evs st :
  exec (initial sources) evs = Some st →
  filter (λ entry, is_debug entry) (log (store st))
  ≡ₚ saved_entry <$> accepted (saves (store st)).
Proof.
  intros Hexec. pattern st. revert evs st Hexec.
  apply reachable_ind; cbv beta; [done|].
  intros st ev st' Hinv Hinv' Hlog Hstep.
  destruct (step_cases _ _ _ Hstep)
    as [(id & s & s' & entry & -> & Hid & Hpend & Hentry & _ & Hb & Hc & Hful
         & ->)
       |[(i & err & name & -> & _ & ->)
        |[(source & rest & e & -> & Hnone & Hq & Hhttp & ->)
         |[(source & rest & stream & -> & Hnone & Hq & Hhttp & ->)
          |(r & σ' & ctl & -> & Hr & Hcall & ->)]]]]; simpl in *.
  - rewrite filter_app, Hlog, (accepted_insert _ _ s) by done.
    apply saveBatch_resume_effect in Hentry
      as [(Hcall & -> & Hful')|[[e Hcall] Hsil]].
    + rewrite decide_True by (by rewrite Hc, Hcall).
      assert (filter (λ entry, is_debug entry) [saved_entry s]
              = [saved_entry s']) as ->
        by (unfold saved_entry; by rewrite Hb).
      simpl. by rewrite <- Permutation_cons_append.
    + rewrite decide_False by (rewrite Hc, Hcall; by intros [? _]).
      by rewrite (filter_silent_debug entry), app_nil_r.
  - rewrite filter_app, Hlog.
    by rewrite (filter_silent_debug _ (pipelineCallback_silent _ _)),
      app_nil_r.
  - rewrite !filter_app, Hlog.
    rewrite (filter_silent_debug (caught_entries _ _)), app_nil_r
      by apply caught_entries_silent.
    by rewrite (filter_debug_nil [starting _]), app_nil_r
      by (by constructor).
  - rewrite !filter_app, Hlog.
    by rewrite (filter_debug_nil [starting _]), app_nil_r
      by (by constructor).
  - pose proof (ingestSource_effect _ _ _ _ _ Hcall)
      as (new & errors & Hsaves & Hlog' & Herr & Hnew & _ & _).
    assert (filter (λ entry, is_debug entry) (log σ')
            ≡ₚ saved_entry <$> accepted (saves σ')) as Hlog''.
    { assert (accepted new = []) as Hacc.
      { apply accepted_new. eapply Forall_impl; [done|].
        by intros s (_ & _ & ?). }
      rewrite Hlog', Hsaves, !filter_app, accepted_app, Hlog, Hacc.
      rewrite (filter_silent_debug _ Herr), app_nil_r. simpl.
      destruct ctl; rewrite ?(filter_debug_nil [finishing _]), ?app_nil_r;
        by repeat constructor. }
    destruct ctl as [r'| |e]; simpl; [done..|].
    rewrite filter_app, Hlog''.
    by rewrite (filter_silent_debug (caught_entries _ _)), app_nil_r
      by apply caught_entries_silent.
Qed.

(** ** The order of the writes *)

(** The writes follow the order of the sources. *)
Lemma tags_reachable evs st :
  exec (initial sources) evs = Some st →
  ∀ i j a b, i ≤ j →
    (save_source <$> saves (store st)) !! i = Some a →
    (save_source <$> saves (store st)) !! j = Some b → a ≤ b.
Proof.
  intros Hexec. pattern st. revert evs st Hexec.
  apply reachable_ind; cbv beta; [by intros [] [] ? ? ? ? ?|].
  intros st ev st' Hinv Hinv' Htags Hstep.
  destruct (step_cases _ _ _ Hstep)
    as [(id & s & s' & entry & -> & Hid & _ & _ & Hk & _ & _ & _ & ->)
       |[(i' & err & name & -> & _ & ->)
        |[(source & rest & e & -> & Hnone & Hq & Hhttp & ->)
         |[(source & rest & stream & -> & Hnone & Hq & Hhttp & ->)
          |(r & σ' & ctl & -> & Hr & Hcall & ->)]]]]; simpl in *;
    [|done..|].
  - rewrite list_fmap_insert, Hk, list_insert_id; [done|].
    by rewrite list_lookup_fmap, Hid.
  - pose proof (ingestSource_effect _ _ _ _ _ Hcall)
      as (new & errors & Hsaves & _ & _ & Hnew & _ & _).
    assert (∀ i j a b, i ≤ j →
              (save_source <$> saves σ') !! i = Some a →
              (save_source <$> saves σ') !! j = Some b → a ≤ b) as Htags'.
    { rewrite Hsaves, fmap_app. intros i j a b Hij Hi Hj.
      assert (∀ n c, (save_source <$> new) !! n = Some c →
                c = length (outcomes st)) as Hnew'.
      { intros n c Hn. apply list_lookup_fmap_Some in Hn as (s & -> & Hs).
        rewrite Forall_lookup in Hnew. by destruct (Hnew _ _ Hs). }
      assert (∀ n c, (save_source <$> saves (store st)) !! n = Some c →
                c ≤ length (outcomes st)) as Hold.
      { intros n c Hn. apply list_lookup_fmap_Some in Hn as (s & -> & Hs).
        destruct (inv_saves _ _ _ _ _ _ Hinv _ _ Hs) as [_ Hlt].
        rewrite Hr in Hlt. simpl in Hlt. lia. }
      apply lookup_app_Some in Hi as [Hi|[Hlen Hi]];
        apply lookup_app_Some in Hj as [Hj|[Hlen' Hj]].
      - eauto.
      - apply Hold in Hi. apply Hnew' in Hj. lia.
      - apply lookup_lt_Some in Hj. lia.
      - apply Hnew' in Hi. apply Hnew' in Hj. lia. }
    by destruct ctl.
Qed.

(** ** The waves of writes *)

(** What a resumption that goes on does to [pendingSaves]: in the loop a
    batch written adds one promise, and the call waits next in [flushPending]
    if that makes [MAX_CONCURRENT_BATCHES]; [flushPending] empties the list. *)
Lemma ingestSource_pending k σ r σ' r' :
  ingestSource k σ r = Some (σ', Continue r') →
  match r_await r with
  | AwaitNext =>
      r_await r' = AwaitDrain ∨
      length (saves σ') = length (saves σ) ∧
      pendingSaves r' = pendingSaves r ∧ r_await r' = AwaitNext ∨
      length (saves σ') = S (length (saves σ)) ∧
      length (pendingSaves r') = S (length (pendingSaves r)) ∧
      r_await r' = (if MAX_CONCURRENT_BATCHES <=? S (length (pendingSaves r))
                    then AwaitThrottle else AwaitNext)
  | AwaitThrottle =>
      saves σ' = saves σ ∧ pendingSaves r' = [] ∧ r_await r' = AwaitNext
  | AwaitDrain => r_await r' = AwaitFinished
  | AwaitFinished => False
  end.
Proof.
  unfold ingestSource, flushPending, submit. intros Hcall.
  destruct (r_await r).
  - destruct (r_input r) as [|value rest].
    + destruct (iterator_end (r_stream r)) as [[]|e]; [|done].
      left. destruct (0 <? length (batch r)); [|by simplify_eq].
      destruct (saveBatch _ _ _). by simplify_eq.
    + right. destruct (mapper (r_source r) value) as [mapped|e]; [|done].
      destruct (negb (truthy mapped)); [left; by simplify_eq|].
      destruct (BATCH_SIZE <=? _); [|left; by simplify_eq].
      destruct (saveBatch _ _ _) as [σ1 id] eqn:Hsave.
      apply saveBatch_spec in Hsave as (_ & s & ? & Hsaves & _).
      right. rewrite length_app in Hcall. simpl in Hcall.
      rewrite Nat.add_1_r in Hcall.
      destruct (MAX_CONCURRENT_BATCHES <=? S (length (pendingSaves r)));
        simplify_eq; simpl; rewrite Hsaves, !length_app; simpl;
        by rewrite !Nat.add_1_r.
  - destruct (allSettled _ _); by simplify_eq.
  - destruct (allSettled _ _); by simplify_eq.
  - by destruct (finished_result _) as [[]|].
Qed.

(** While the loop runs, [pendingSaves] holds the promises of the batches
    written since the last [flushPending]: as many as batches written, modulo
    [MAX_CONCURRENT_BATCHES]. *)
Lemma waves_reachable evs st :
  exec (initial sources) evs = Some st →
  ∀ r, current st = Some r →
    match r_await r with
    | AwaitNext =>
        length (pendingSaves r)
        = length (written (length (outcomes st)) (saves (store st)))
          `mod` MAX_CONCURRENT_BATCHES
    | AwaitThrottle =>
        length (written (length (outcomes st)) (saves (store st)))
        `mod` MAX_CONCURRENT_BATCHES = 0
        ∧ 0 < length (written (length (outcomes st)) (saves (store st)))
    | _ => True
    end.
Proof.
  intros Hexec. pattern st. revert evs st Hexec.
  apply reachable_ind; cbv beta; [done|].
  intros st ev st' Hinv Hinv' Hwave Hstep.
  destruct (step_cases _ _ _ Hstep)
    as [(id & s & s' & entry & -> & Hid & _ & _ & Hk & Hb & Hc & _ & ->)
       |[(i' & err & name & -> & _ & ->)
        |[(source & rest & e & -> & Hnone & Hq & Hhttp & ->)
         |[(source & rest & stream & -> & Hnone & Hq & Hhttp & ->)
          |(r & σ' & ctl & -> & Hr & Hcall & ->)]]]]; simpl in *;
    [|done..| |].
  - intros r Hr. rewrite (written_insert _ _ _ s) by done. by apply Hwave.
  - intros ? [= <-]. simpl.
    rewrite written_next; [|done|rewrite Hnone; simpl; lia].
    simpl. by rewrite Nat.Div0.mod_0_l.
  - specialize (Hwave r Hr).
    destruct (inv_frame _ _ _ _ _ _ Hinv _ Hr) as (_ & _ & Hawait).
    pose proof (ingestSource_effect _ _ _ _ _ Hcall)
      as (new & errors & Hsaves & _ & _ & Hnew & _ & _).
    pose proof (written_effect (length (outcomes st)) _ _ _ _ Hsaves Hnew)
      as Hwritten.
    rewrite decide_True in Hwritten by done.
    destruct ctl as [r'| |e]; [|done..]. intros ? [= <-].
    cbn [store outcomes]. rewrite Hwritten, length_app, length_fmap.
    clear Hwritten.
    apply ingestSource_pending in Hcall.
    apply (f_equal length) in Hsaves. rewrite length_app in Hsaves.
    generalize dependent (length (written (length (outcomes st))
                                    (saves (store st)))).
    intros w Hwave.
    pose proof (Nat.div_mod_eq w MAX_CONCURRENT_BATCHES) as Hw.
    destruct (r_await r).
    + destruct Hawait as [Hlt _].
      destruct Hcall as [->|[(Hlen & -> & ->)|(Hlen & Hp & ->)]]; [done|..].
      * replace (length new) with 0 by lia. by rewrite Nat.add_0_r.
      * replace (length new) with 1 by lia.
        destruct (MAX_CONCURRENT_BATCHES <=? _) eqn:Hmax.
        -- apply Nat.leb_le in Hmax. split; [|lia]. symmetry.
           apply (Nat.mod_unique _ _ (S (w / MAX_CONCURRENT_BATCHES)));
             lia.
        -- apply Nat.leb_gt in Hmax. rewrite Hp.
           apply (Nat.mod_unique _ _ (w / MAX_CONCURRENT_BATCHES)); lia.
    + destruct Hcall as (Hsame & -> & ->). rewrite Hsame in Hsaves.
      replace (length new) with 0 by lia. rewrite Nat.add_0_r. simpl.
      by destruct Hwave.
    + by rewrite Hcall.
    + done.
Qed.

(** ** What the running call holds *)

Lemma held_reachable evs st r :
  exec (initial sources) evs = Some st → current st = Some r →
  length (batch r) < BATCH_SIZE ∧
  (r_await r = AwaitDrain ∨ r_await r = AwaitFinished → batch r = []) ∧
  held (store st) r < (MAX_CONCURRENT_BATCHES + 1) * BATCH_SIZE.
Proof.
  intros Hexec Hr.
  assert (invariant st) as Hinv.
  { eapply (invariant_exec BATCH_SIZE MAX_CONCURRENT_BATCHES); eauto.
    by apply invariant_initial. }
  destruct (inv_frame _ _ _ _ _ _ Hinv _ Hr) as (_ & _ & Hawait).
  assert (length (batch r) < BATCH_SIZE
          ∧ (r_await r = AwaitDrain ∨ r_await r = AwaitFinished → batch r = [])
          ∧ length (pendingSaves r) ≤ MAX_CONCURRENT_BATCHES)
    as (Hbatch & Hnil & Hpending).
  { destruct (r_await r).
    - destruct Hawait as (? & ? & _ & _ & _ & ? & _).
      split_and!; [done|by intros [|]|lia].
    - destruct Hawait as (? & ? & _ & _ & _ & ? & _).
      split_and!; [done|by intros [|]|lia].
    - destruct Hawait as (? & _ & Hb & _). rewrite Hb. by split_and!.
    - destruct Hawait as (Hp & _ & Hb & _). rewrite Hb, Hp. simpl.
      split_and!; [done|done|lia]. }
  split; [done|]. split; [done|]. unfold held.
  assert (sum_list ((λ id, from_option (λ s, length (save_batch s)) 0
                             (saves (store st) !! id)) <$> pendingSaves r)
          ≤ length (pendingSaves r) * BATCH_SIZE) as Hsum.
  { clear Hpending Hawait.
    induction (pendingSaves r) as [|id ids IH]; simpl in *; [lia|].
    destruct (saves (store st) !! id) as [s|] eqn:Hid; simpl;
      [|etrans; [exact IH|lia]].
    destruct (inv_saves _ _ _ _ _ _ Hinv _ _ Hid) as [([_ ?] & _) _].
    apply Nat.add_le_mono; [lia|exact IH]. }
  nia.
Qed.

(** ** The length of the executions *)

Lemma step_work st ev st' :
  step st ev = Some st' → work httpClient st' < work httpClient st.
Proof.
  intros Hstep. unfold work.
  destruct (step_cases _ _ _ Hstep)
    as [(id & s & s' & entry & -> & Hid & Hpend & _ & _ & _ & _ & Hful & ->)
       |[(i' & err & name & -> & Hname & ->)
        |[(source & rest & e & -> & Hnone & Hq & Hhttp & ->)
         |[(source & rest & stream & -> & Hnone & Hq & Hhttp & ->)
          |(r & σ' & ctl & -> & Hr & Hcall & ->)]]]]; simpl in Hstep.
  - unfold fuel. simpl.
    pose proof (in_flight_insert _ _ BATCH_SIZE_pos MAX_CONCURRENT_BATCHES_pos
                  (saves (store st)) id s s' Hid) as Hin.
    unfold is_pending in Hin. rewrite Hpend in Hin.
    destruct (save_promise s'); [done|..];
      specialize (Hin eq_refl eq_refl); lia.
  - unfold fuel. simpl. rewrite length_delete by done.
    apply lookup_lt_Some in Hname. lia.
  - apply (resume_fuel BATCH_SIZE MAX_CONCURRENT_BATCHES) in Hstep; [|done..].
    simpl. rewrite Hq. simpl. lia.
  - apply (resume_fuel BATCH_SIZE MAX_CONCURRENT_BATCHES) in Hstep; [|done..].
    simpl. rewrite Hq, length_app. simpl. lia.
  - apply (resume_fuel BATCH_SIZE MAX_CONCURRENT_BATCHES) in Hstep; [|done..].
    destruct ctl; simpl; lia.
Qed.

(** Every event uses up some of the work left. *)
Lemma exec_work st evs st' :
  exec st evs = Some st' →
  length evs + work httpClient st' ≤ work httpClient st.
Proof.
  revert st. induction evs as [|ev evs IH]; intros st Hexec; simpl in *.
  - simplify_eq. lia.
  - destruct (step st ev) as [st1|] eqn:Hstep; [|done].
    apply IH in Hexec. apply step_work in Hstep. lia.
Qed.

(** ** The writes a call leaves unresolved *)

(** A call that is over has left fewer than [MAX_CONCURRENT_BATCHES] of its
    writes unresolved. *)
Lemma unobserved_reachable evs st :
  exec (initial sources) evs = Some st →
  ∀ k, k < length (outcomes st) →
    length (unobserved k (saves (store st))) < MAX_CONCURRENT_BATCHES.
Proof.
  intros Hexec. pattern st. revert evs st Hexec.
  apply reachable_ind; cbv beta; [simpl; intros; lia|].
  intros st ev st' Hinv Hinv' Hleft Hstep k Hlt.
  destruct (step_cases _ _ _ Hstep)
    as [(id & s & s' & entry & -> & Hid & _ & _ & _ & _ & _ & Hful & ->)
       |[(i' & err & name & -> & _ & ->)
        |[(source & rest & e & -> & Hnone & Hq & Hhttp & ->)
         |[(source & rest & stream & -> & Hnone & Hq & Hhttp & ->)
          |(r & σ' & ctl & -> & Hr & Hcall & ->)]]]]; simpl in *.
  - eapply Nat.le_lt_trans; [by apply unobserved_insert|]. by apply Hleft.
  - by apply Hleft.
  - rewrite length_app in Hlt. simpl in Hlt.
    destruct (decide (k = length (outcomes st))) as [->|Hne];
      [|apply Hleft; lia].
    rewrite unobserved_other; [done|].
    apply Forall_forall. intros s Hs.
    apply list_elem_of_lookup in Hs as [id Hid].
    destruct (inv_saves _ _ _ _ _ _ Hinv _ _ Hid) as [_ Htag].
    rewrite Hnone in Htag. simpl in Htag. lia.
  - by apply Hleft.
  - pose proof (ingestSource_effect _ _ _ _ _ Hcall)
      as (new & errors & Hsaves & _ & _ & Hnew & _ & _).
    assert (k < length (outcomes st) →
            length (unobserved k (saves σ')) < MAX_CONCURRENT_BATCHES)
      as Hold.
    { intros Hlt'. rewrite Hsaves, unobserved_app, (unobserved_other _ new).
      - rewrite app_nil_r. by apply Hleft.
      - eapply Forall_impl; [done|]. intros s (? & _). lia. }
    destruct ctl as [r'| |e]; simpl in *; [by apply Hold|..];
      rewrite length_app in Hlt; simpl in Hlt;
      (destruct (decide (k = length (outcomes st))) as [->|Hne];
       [|apply Hold; lia]).
    + destruct (inv_done _ _ _ _ _ _ Hinv' (length (outcomes st)) (Normal ()))
        as (source & _ & _ & stream' & _ & _ & _ & Hresolved);
        [simpl; by apply list_lookup_middle|].
      simpl in Hresolved. by rewrite unobserved_resolved.
    + apply ingestSource_Raise in Hcall as [-> Hwhere].
      destruct (inv_frame _ _ _ _ _ _ Hinv _ Hr) as (_ & Hpend & Hawait).
      eapply Nat.le_lt_trans; [by apply unobserved_length|].
      destruct (r_await r); try done.
      * by destruct Hawait.
      * destruct Hawait as [-> _]. done.
Qed.

End Runs.


(** * The service as configured: runs, logs and bounds *)

Lemma iteration_outcome source stream input :
  iteration source stream input = Normal () →
  ingest_outcome source stream input = finished_result stream.
Proof.
  induction input as [|value rest IH]; simpl.
  - by intros ->.
  - by destruct (mapper source value).
Qed.

Lemma sum_list_S {A} (f : A → nat) (l : list A) :
  sum_list ((λ x, S (f x)) <$> l) = sum_list (f <$> l) + length l.
Proof.
  induction l as [|x l IH]; [done|].
  rewrite !fmap_cons.
  change (S (f x) + sum_list ((λ x, S (f x)) <$> l)
          = f x + sum_list (f <$> l) + S (length l)).
  rewrite IH. lia.
Qed.

(** An execution gets to the end of the call for a source when the
    failures of the sources registered before it can be logged. *)
Lemma service_reaches httpClient repository sources k :
  k < length sources → Forall (loggable httpClient) (take k sources) →
  ∃ evs st,
    IngestionService.exec httpClient repository (initial sources) evs
    = Some st ∧ over st ∧ k < length (outcomes st).
Proof.
  intros Hk Hall.
  destruct (service_ends httpClient repository sources (initial sources))
    as (evs & st & Hexec & Hinv & Hover & _).
  { apply invariant_initial;
      auto using BATCH_SIZE_pos, MAX_CONCURRENT_BATCHES_pos. }
  exists evs, st. split; [done|]. split; [done|].
  destruct Hover as [Hret|[e' [Hcur Hrej]]].
  - by rewrite (returned_outcomes _ _ _ _ _ _ Hinv Hret).
  - pose proof (inv_thrown _ _ _ _ _ _ Hinv) as Hthrown.
    rewrite Hrej in Hthrown.
    destruct Hthrown as (_ & k' & source & e & -> & Hk' & Hout & Hcatch & _).
    destruct (decide (k' < k)) as [Hlt|]; [|lia].
    rewrite Forall_lookup in Hall.
    specialize (Hall k' source). rewrite lookup_take_lt in Hall by done.
    specialize (Hall Hk'). unfold loggable in Hall.
    by rewrite Hout, Hcatch in Hall.
Qed.

(** ** C1: the records of a source reach the repository in batches *)

(** C1, as stated, fails.  The mapper of source [A] throws on the third
    element, after two records.  The call for [A] is over and [ingestAll] has
    returned; nothing was handed to [saveAll] for [A]: the two records were
    in the buffer when the loop was left, and they are lost. *)
Lemma buffered_records_are_lost_counterexample :
  ∃ st,
    Example.httpClient 2 (url Example.source_A)
    = Normal (Example.stream [Example.record; Example.record; JNull]) ∧
    mapper Example.source_A JNull = Throw (JError "bad record" "at map") ∧
    IngestionService.exec (Example.httpClient 2) Example.accepting
      (initial [Example.source_A]) (repeat Resume 4) = Some st ∧
    returned st ∧
    records Example.source_A [Example.record; Example.record; JNull]
    = [Example.record; Example.record] ∧
    written 0 (saves (store st)) = [] ∧
    ¬ cut_into IngestionService.BATCH_SIZE
        (records Example.source_A [Example.record; Example.record; JNull])
        (written 0 (saves (store st))).
Proof.
  eexists. split; [reflexivity|]. split; [reflexivity|].
  split; [vm_compute; reflexivity|].
  split; [by split_and!|]. split; [reflexivity|]. split; [reflexivity|].
  intros (Hconcat & _). discriminate Hconcat.
Qed.

(** C1, amended.  For every source whose loop runs to completion (its mapper
    throws on no element and the iterator reports completion, whatever
    [finished] does afterwards), the batches handed to [saveAll] for it, in
    call order, are exactly its records (the truthy values of the mapper, in
    stream order) cut into batches of [BATCH_SIZE]: every batch but possibly
    the last has [BATCH_SIZE] records, and the last is short exactly when the
    number of records is not a multiple of [BATCH_SIZE].  This holds in every
    execution once the call for the source is over; and an execution gets
    there when the failures of the sources registered before can be
    logged. *)
Theorem records_written_in_batches httpClient repository sources k source
    stream :
  sources !! k = Some source →
  httpClient (url source) = Normal stream →
  iteration source stream (elements stream) = Normal () →
  (Forall (loggable httpClient) (take k sources) →
   ∃ evs st,
     IngestionService.exec httpClient repository (initial sources) evs
     = Some st ∧ over st ∧ k < length (outcomes st)) ∧
  ∀ evs st,
    IngestionService.exec httpClient repository (initial sources) evs
    = Some st →
    k < length (outcomes st) →
    cut_into IngestionService.BATCH_SIZE (records source (elements stream))
      (written k (saves (store st))).
Proof.
  intros Hk Hhttp Hit. split.
  - apply service_reaches. by eapply lookup_lt_Some.
  - intros evs st Hexec Hover.
    pose proof (plan_reachable _ _ _ _ _ BATCH_SIZE_pos
                  MAX_CONCURRENT_BATCHES_pos _ _ Hexec) as (_ & Hdone & _).
    rewrite (Hdone _ _ Hover Hk). unfold saveAll_calls. rewrite Hhttp.
    destruct (batches_spec IngestionService.BATCH_SIZE source stream
                (elements stream) [] BATCH_SIZE_pos BATCH_SIZE_pos)
      as (lost & Hcat & _ & Hbatched & Hlost).
    rewrite Hit in Hlost. subst lost. rewrite app_nil_r in Hcat.
    simpl in Hcat.
    rewrite ingested_records in Hcat
      by (by apply iteration_Normal in Hit as [? _]).
    destruct (batched_sizes _ _ Hbatched) as [Hmult Hshort].
    rewrite <- Hcat in Hmult, Hshort. destruct Hbatched. by split_and!.
Qed.

(** Source [E]: two records, then the iterator reports completion and
    [finished] rejects. *)
Lemma records_written_in_batches_witness :
  let stream := {| elements := [Example.record; Example.record];
                   iterator_end := Normal ();
                   finished_result := Throw Example.hang_up |} in
  [Edge.source_E] !! 0 = Some Edge.source_E ∧
  Edge.httpClient "e" = Normal stream ∧
  iteration Edge.source_E stream (elements stream) = Normal () ∧
  (∃ evs st,
     IngestionService.exec Edge.httpClient Example.accepting
       (initial [Edge.source_E]) evs = Some st
     ∧ over st ∧ 0 < length (outcomes st)) ∧
  ∀ evs st,
    IngestionService.exec Edge.httpClient Example.accepting
      (initial [Edge.source_E]) evs = Some st →
    0 < length (outcomes st) →
    cut_into IngestionService.BATCH_SIZE [Example.record; Example.record]
      (written 0 (saves (store st))).
Proof.
  split; [reflexivity|]. split; [reflexivity|]. split; [reflexivity|].
  destruct (records_written_in_batches Edge.httpClient Example.accepting
              [Edge.source_E] 0 Edge.source_E
              {| elements := [Example.record; Example.record];
                 iterator_end := Normal ();
                 finished_result := Throw Example.hang_up |})
    as [Hreach Hcut]; [reflexivity..|].
  split; [|exact Hcut]. apply Hreach. constructor.
Defined.

(** ** X1: the batches handed over do not depend on the schedule *)

(** X1.  The sequence of batches handed to [saveAll] in a complete run of
    [ingestAll] is the same in all executions: it depends neither on the
    order in which the writes settle and the pipelines report, nor on what
    the repository answers (it may accept, reject or throw).  At any point of
    any execution the batches handed over so far are a prefix of it. *)
Theorem calls_do_not_depend_on_schedule httpClient repository repository'
    sources evs st evs' st' :
  IngestionService.exec httpClient repository (initial sources) evs
  = Some st →
  IngestionService.exec httpClient repository' (initial sources) evs'
  = Some st' →
  returned st' →
  calls (saves (store st)) `prefix_of` calls (saves (store st')) ∧
  (returned st → calls (saves (store st)) = calls (saves (store st'))).
Proof.
  intros Hexec Hexec' (Hcur' & Hq' & _).
  pose proof (plan_reachable _ _ _ _ _ BATCH_SIZE_pos
                MAX_CONCURRENT_BATCHES_pos _ _ Hexec) as (_ & _ & Hcalls).
  pose proof (plan_reachable _ _ _ _ _ BATCH_SIZE_pos
                MAX_CONCURRENT_BATCHES_pos _ _ Hexec') as (_ & _ & Hcalls').
  rewrite Hcur', Hq' in Hcalls'. simpl in Hcalls'.
  rewrite app_nil_r in Hcalls'. rewrite Hcalls'. split.
  - eexists. by rewrite <- Hcalls.
  - intros (Hcur & Hq & _). rewrite Hcur, Hq in Hcalls. simpl in Hcalls.
    by rewrite app_nil_r in Hcalls.
Qed.

(** Sources [A] and [B]: a run that stops when the batch of [B] is written,
    with a repository that accepts, and a complete run with a repository
    that refuses the first write. *)
Lemma calls_do_not_depend_on_schedule_witness :
  let sources := [Example.source_A; Example.source_B] in
  let st := IngestionService.run (Example.httpClient 2) Example.accepting 9
              (initial sources) in
  let st' := IngestionService.run (Example.httpClient 2) Example.refusing 20
               (initial sources) in
  IngestionService.exec (Example.httpClient 2) Example.accepting
    (initial sources) (repeat Resume 9) = Some st ∧
  IngestionService.exec (Example.httpClient 2) Example.refusing
    (initial sources) (repeat Resume 9 ++ [Settle 0] ++ repeat Resume 2)
  = Some st' ∧
  returned st' ∧
  calls (saves (store st')) = [[Example.record; Example.record]] ∧
  calls (saves (store st)) `prefix_of` calls (saves (store st')).
Proof.
  split; [vm_compute; reflexivity|]. split; [vm_compute; reflexivity|].
  split; [vm_compute; by split_and!|]. split; [vm_compute; reflexivity|].
  apply (calls_do_not_depend_on_schedule (Example.httpClient 2)
           Example.accepting Example.refusing
           [Example.source_A; Example.source_B] (repeat Resume 9) _
           (repeat Resume 9 ++ [Settle 0] ++ repeat Resume 2) _);
    vm_compute; (reflexivity || by split_and!).
Defined.

(** ** X2: registering one more source *)

(** X2.  [registerSource] puts the source after those registered before.
    The batches a complete run of [ingestAll] hands to [saveAll] are then
    those of a complete run without that source, followed by those of a
    complete run on that source alone: what is written for a source does not
    depend on the sources registered before or after it. *)
Theorem registerSource_appends_calls httpClient repository sources source
    evs st evs1 st1 evs2 st2 :
  IngestionService.exec httpClient repository
    (initial (registerSource source sources)) evs = Some st →
  returned st →
  IngestionService.exec httpClient repository (initial sources) evs1
  = Some st1 →
  returned st1 →
  IngestionService.exec httpClient repository (initial [source]) evs2
  = Some st2 →
  returned st2 →
  calls (saves (store st))
  = calls (saves (store st1)) ++ calls (saves (store st2)).
Proof.
  intros Hexec (Hcur & Hq & _) Hexec1 (Hcur1 & Hq1 & _) Hexec2 (Hcur2 & Hq2 & _).
  pose proof (plan_reachable _ _ _ _ _ BATCH_SIZE_pos
                MAX_CONCURRENT_BATCHES_pos _ _ Hexec) as (_ & _ & Hcalls).
  pose proof (plan_reachable _ _ _ _ _ BATCH_SIZE_pos
                MAX_CONCURRENT_BATCHES_pos _ _ Hexec1) as (_ & _ & Hcalls1).
  pose proof (plan_reachable _ _ _ _ _ BATCH_SIZE_pos
                MAX_CONCURRENT_BATCHES_pos _ _ Hexec2) as (_ & _ & Hcalls2).
  rewrite Hcur, Hq in Hcalls. rewrite Hcur1, Hq1 in Hcalls1.
  rewrite Hcur2, Hq2 in Hcalls2. simpl in *.
  rewrite app_nil_r in *.
  rewrite Hcalls, Hcalls1, Hcalls2. unfold registerSource.
  rewrite flat_map_app. simpl. by rewrite app_nil_r.
Qed.

(** Source [B] registered after source [A]. *)
Lemma registerSource_appends_calls_witness :
  let st := IngestionService.run (Example.httpClient 2) Example.accepting 20
              (initial (registerSource Example.source_B [Example.source_A])) in
  let st1 := IngestionService.run (Example.httpClient 2) Example.accepting 20
               (initial [Example.source_A]) in
  let st2 := IngestionService.run (Example.httpClient 2) Example.accepting 20
               (initial [Example.source_B]) in
  IngestionService.exec (Example.httpClient 2) Example.accepting
    (initial (registerSource Example.source_B [Example.source_A]))
    (repeat Resume 9 ++ [Settle 0] ++ repeat Resume 2) = Some st ∧
  returned st ∧
  IngestionService.exec (Example.httpClient 2) Example.accepting
    (initial [Example.source_A]) (repeat Resume 4) = Some st1 ∧
  returned st1 ∧
  IngestionService.exec (Example.httpClient 2) Example.accepting
    (initial [Example.source_B])
    (repeat Resume 5 ++ [Settle 0] ++ repeat Resume 2) = Some st2 ∧
  returned st2 ∧
  calls (saves (store st))
  = calls (saves (store st1)) ++ calls (saves (store st2)).
Proof.
  split; [vm_compute; reflexivity|]. split; [vm_compute; by split_and!|].
  split; [vm_compute; reflexivity|]. split; [vm_compute; by split_and!|].
  split; [vm_compute; reflexivity|]. split; [vm_compute; by split_and!|].
  apply (registerSource_appends_calls (Example.httpClient 2)
           Example.accepting [Example.source_A] Example.source_B
           (repeat Resume 9 ++ [Settle 0] ++ repeat Resume 2) _
           (repeat Resume 4) _
           (repeat Resume 5 ++ [Settle 0] ++ repeat Resume 2) _);
    vm_compute; (reflexivity || by split_and!).
Defined.

(** ** X3: what a call has written when it is over *)

(** X3.  When the call for a source is over, however it ended, the batches
    it handed to [saveAll] are, in order, a cut of the records the loop pushed
    (the truthy values of the mapper on the elements before its first throw):
    nothing written twice or out of order, every batch but possibly the last
    of [BATCH_SIZE] records.  If the loop ran to completion nothing is
    missing, even when [finished] rejects afterwards.  If the loop was left by
    a throw of the mapper or of the iterator, every batch written is full and
    the records in the buffer, fewer than [BATCH_SIZE], were never written. *)
Theorem ended_call_has_written_the_full_batches httpClient repository sources
    evs st k source stream :
  IngestionService.exec httpClient repository (initial sources) evs
  = Some st →
  sources !! k = Some source →
  httpClient (url source) = Normal stream →
  k < length (outcomes st) →
  ∃ lost,
    ingested source (elements stream)
    = concat (written k (saves (store st))) ++ lost ∧
    length lost < IngestionService.BATCH_SIZE ∧
    batched IngestionService.BATCH_SIZE (written k (saves (store st))) ∧
    match iteration source stream (elements stream) with
    | Normal _ => lost = []
    | Throw _ =>
        Forall (λ b, length b = IngestionService.BATCH_SIZE)
          (written k (saves (store st)))
    end.
Proof.
  intros Hexec Hsource Hstream Hover.
  pose proof (plan_reachable _ _ _ _ _ BATCH_SIZE_pos
                MAX_CONCURRENT_BATCHES_pos _ _ Hexec) as (_ & Hdone & _).
  rewrite (Hdone _ _ Hover Hsource). unfold saveAll_calls. rewrite Hstream.
  apply (batches_spec _ _ _ _ [] BATCH_SIZE_pos). simpl.
  apply BATCH_SIZE_pos.
Qed.

(** Source [A]: the mapper throws on the third element, with two records in
    the buffer. *)
Lemma ended_call_has_written_the_full_batches_witness :
  let st := IngestionService.run (Example.httpClient 2) Example.accepting 20
              (initial [Example.source_A]) in
  let stream := Example.stream [Example.record; Example.record; JNull] in
  IngestionService.exec (Example.httpClient 2) Example.accepting
    (initial [Example.source_A]) (repeat Resume 4) = Some st ∧
  [Example.source_A] !! 0 = Some Example.source_A ∧
  Example.httpClient 2 (url Example.source_A) = Normal stream ∧
  0 < length (outcomes st) ∧
  iteration Example.source_A stream (elements stream)
  = Throw (JError "bad record" "at map") ∧
  ∃ lost,
    [Example.record; Example.record]
    = concat (written 0 (saves (store st))) ++ lost ∧
    Forall (λ b, length b = IngestionService.BATCH_SIZE)
      (written 0 (saves (store st))).
Proof.
  split; [vm_compute; reflexivity|]. split; [reflexivity|].
  split; [reflexivity|]. split; [vm_compute; lia|]. split; [reflexivity|].
  destruct (ended_call_has_written_the_full_batches (Example.httpClient 2)
              Example.accepting [Example.source_A] (repeat Resume 4)
              (IngestionService.run (Example.httpClient 2) Example.accepting
                 20 (initial [Example.source_A]))
              0 Example.source_A
              (Example.stream [Example.record; Example.record; JNull]))
    as (lost & Hcat & _ & _ & Hfull);
    [vm_compute; reflexivity|reflexivity|reflexivity|vm_compute; lia|].
  exists lost. split; [exact Hcat|exact Hfull].
Defined.

(** ** X4: the number of [saveAll] calls *)

(** X4.  When the call for a source is over, the number of [saveAll] calls
    it made is the number [n] of records the loop pushed divided by
    [BATCH_SIZE]: rounded up if the loop ran to completion, rounded down if
    it was left by a throw. *)
Theorem number_of_saveAll_calls httpClient repository sources evs st k source
    stream :
  IngestionService.exec httpClient repository (initial sources) evs
  = Some st →
  sources !! k = Some source →
  httpClient (url source) = Normal stream →
  k < length (outcomes st) →
  length (written k (saves (store st)))
  = match iteration source stream (elements stream) with
    | Normal _ =>
        (length (ingested source (elements stream))
         + IngestionService.BATCH_SIZE - 1) / IngestionService.BATCH_SIZE
    | Throw _ =>
        length (ingested source (elements stream))
        / IngestionService.BATCH_SIZE
    end.
Proof.
  intros Hexec Hsource Hstream Hover.
  pose proof (plan_reachable _ _ _ _ _ BATCH_SIZE_pos
                MAX_CONCURRENT_BATCHES_pos _ _ Hexec) as (_ & Hdone & _).
  rewrite (Hdone _ _ Hover Hsource). unfold saveAll_calls. rewrite Hstream.
  apply batches_length, BATCH_SIZE_pos.
Qed.

(** Source [B]: two records, one call. *)
Lemma number_of_saveAll_calls_witness :
  let st := IngestionService.run (Example.httpClient 2) Example.accepting 20
              (initial [Example.source_B]) in
  let stream :=
    Example.stream [Example.record; JStr "skip"; Example.record] in
  IngestionService.exec (Example.httpClient 2) Example.accepting
    (initial [Example.source_B])
    (repeat Resume 5 ++ [Settle 0] ++ repeat Resume 2) = Some st ∧
  [Example.source_B] !! 0 = Some Example.source_B ∧
  Example.httpClient 2 (url Example.source_B) = Normal stream ∧
  0 < length (outcomes st) ∧
  iteration Example.source_B stream (elements stream) = Normal () ∧
  length (ingested Example.source_B (elements stream)) = 2 ∧
  length (written 0 (saves (store st)))
  = (2 + IngestionService.BATCH_SIZE - 1) / IngestionService.BATCH_SIZE.
Proof.
  split; [vm_compute; reflexivity|]. split; [reflexivity|].
  split; [reflexivity|]. split; [vm_compute; lia|]. split; [reflexivity|].
  split; [reflexivity|].
  apply (number_of_saveAll_calls (Example.httpClient 2) Example.accepting
           [Example.source_B]
           (repeat Resume 5 ++ [Settle 0] ++ repeat Resume 2)
           (IngestionService.run (Example.httpClient 2) Example.accepting 20
              (initial [Example.source_B]))
           0 Example.source_B
           (Example.stream [Example.record; JStr "skip"; Example.record]));
    [vm_compute; reflexivity|reflexivity|reflexivity|vm_compute; lia].
Defined.

(** ** X5: a loop that ran to completion *)

(** X5.  When the loop over the stream of a source ran to completion (the
    mapper threw on no element and the iterator reported completion), the
    call ends as [finished(responseStream)] settles, and whether it returns
    or throws: every write of the source is resolved by then, and all the
    records of the source have been handed to [saveAll].  So a source logged
    as failed because [finished] rejected has all its records written. *)
Theorem completed_loop_drains_its_writes httpClient repository sources evs st
    k source stream :
  IngestionService.exec httpClient repository (initial sources) evs
  = Some st →
  sources !! k = Some source →
  httpClient (url source) = Normal stream →
  iteration source stream (elements stream) = Normal () →
  k < length (outcomes st) →
  outcomes st !! k = Some (finished_result stream) ∧
  resolved k (saves (store st)) ∧
  concat (written k (saves (store st))) = records source (elements stream).
Proof.
  intros Hexec Hsource Hstream Hit Hover.
  pose proof (service_invariant _ _ _ _ _ Hexec) as Hinv.
  split_and!.
  - apply lookup_lt_is_Some in Hover as [o Ho]. rewrite Ho. f_equal.
    rewrite <- (outcome_over _ _ _ _ _ _ _ _ _ Hinv Ho Hsource).
    unfold ingestSource_outcome. rewrite Hstream.
    by apply iteration_outcome.
  - by eapply (drained_reachable _ _ _ _ _ BATCH_SIZE_pos
                 MAX_CONCURRENT_BATCHES_pos).
  - pose proof (plan_reachable _ _ _ _ _ BATCH_SIZE_pos
                  MAX_CONCURRENT_BATCHES_pos _ _ Hexec) as (_ & Hdone & _).
    rewrite (Hdone _ _ Hover Hsource). unfold saveAll_calls. rewrite Hstream.
    destruct (batches_spec IngestionService.BATCH_SIZE source stream
                (elements stream) [] BATCH_SIZE_pos BATCH_SIZE_pos)
      as (lost & Hcat & _ & _ & Hlost).
    rewrite Hit in Hlost. subst lost. rewrite app_nil_r in Hcat.
    simpl in Hcat. rewrite <- Hcat. apply ingested_records.
    by apply iteration_Normal in Hit as [? _].
Qed.

(** Source [E]: two records, then [finished] rejects. *)
Lemma completed_loop_drains_its_writes_witness :
  let st := IngestionService.run Edge.httpClient Example.accepting 20
              (initial [Edge.source_E]) in
  IngestionService.exec Edge.httpClient Example.accepting
    (initial [Edge.source_E])
    (repeat Resume 4 ++ [Settle 0] ++ repeat Resume 2) = Some st ∧
  outcomes st = [Throw Example.hang_up] ∧
  resolved 0 (saves (store st)) ∧
  concat (written 0 (saves (store st))) = [Example.record; Example.record].
Proof.
  split; [vm_compute; reflexivity|]. split; [vm_compute; reflexivity|].
  refine (proj2 (completed_loop_drains_its_writes Edge.httpClient
                   Example.accepting [Edge.source_E]
                   (repeat Resume 4 ++ [Settle 0] ++ repeat Resume 2)
                   (IngestionService.run Edge.httpClient Example.accepting 20
                      (initial [Edge.source_E]))
                   0 Edge.source_E
                   {| elements := [Example.record; Example.record];
                      iterator_end := Normal ();
                      finished_result := Throw Example.hang_up |}
                   _ _ _ _ _));
    [vm_compute; reflexivity|reflexivity|reflexivity|reflexivity
    |vm_compute; lia].
Defined.

(** ** X6: the log at level [log] *)

(** X6.  At level [log] the service logs, for each source in registration
    order, [Starting ingestion for] and its name when the call for it starts
    and, right after it, [Finished ingestion for] and its name exactly when
    that call ended without error; nothing else is logged at this level.
    After a complete run the log at this level is determined by the sources
    and their streams alone. *)
Theorem info_log_lists_the_sources httpClient repository sources evs st :
  IngestionService.exec httpClient repository (initial sources) evs
  = Some st →
  filter (λ entry, is_info entry) (log (store st))
  = flat_map (info_entries httpClient) (take (length (outcomes st)) sources)
    ++ from_option (λ r, [starting (r_source r)]) [] (current st) ∧
  (returned st →
   filter (λ entry, is_info entry) (log (store st))
   = flat_map (info_entries httpClient) sources).
Proof.
  intros Hexec.
  pose proof (info_reachable _ _ _ _ _ BATCH_SIZE_pos
                MAX_CONCURRENT_BATCHES_pos _ _ Hexec) as Hlog.
  split; [done|]. intros Hret. rewrite Hlog.
  apply service_invariant in Hexec.
  rewrite (returned_outcomes _ _ _ _ _ _ Hexec Hret), take_ge by done.
  destruct Hret as [-> _]. simpl. by rewrite app_nil_r.
Qed.

(** Sources [A], which fails, and [B], which does not. *)
Lemma info_log_lists_the_sources_witness :
  let sources := [Example.source_A; Example.source_B] in
  let st := IngestionService.run (Example.httpClient 2) Example.accepting 20
              (initial sources) in
  IngestionService.exec (Example.httpClient 2) Example.accepting
    (initial sources) (repeat Resume 9 ++ [Settle 0] ++ repeat Resume 2)
  = Some st ∧
  returned st ∧
  filter (λ entry, is_info entry) (log (store st))
  = [LogInfo "Starting ingestion for A"; LogInfo "Starting ingestion for B";
     LogInfo "✅ Finished ingestion for B"].
Proof.
  split; [vm_compute; reflexivity|]. split; [vm_compute; by split_and!|].
  etrans; [|reflexivity].
  apply (proj2 (info_log_lists_the_sources (Example.httpClient 2)
                  Example.accepting [Example.source_A; Example.source_B]
                  (repeat Resume 9 ++ [Settle 0] ++ repeat Resume 2)
                  (IngestionService.run (Example.httpClient 2)
                     Example.accepting 20
                     (initial [Example.source_A; Example.source_B]))
                  ltac:(vm_compute; reflexivity))).
  vm_compute; by split_and!.
Defined.

(** ** X7: the log at level [debug] *)

(** X7.  At level [debug] the log holds one entry [Saved batch of n records]
    for each write that the repository has fulfilled, with [n] the number of
    records of that batch, and nothing else: a write still pending, refused
    or thrown by the repository has no such entry. *)
Theorem debug_log_lists_the_saved_batches httpClient repository sources evs
    st :
  IngestionService.exec httpClient repository (initial sources) evs
  = Some st →
  filter (λ entry, is_debug entry) (log (store st))
  ≡ₚ saved_entry <$> accepted (saves (store st)).
Proof.
  apply (debug_reachable _ _ _ _ _ BATCH_SIZE_pos MAX_CONCURRENT_BATCHES_pos).
Qed.

(** Source [B] once its write has settled. *)
Lemma debug_log_lists_the_saved_batches_witness :
  let st := IngestionService.run (Example.httpClient 2) Example.accepting 6
              (initial [Example.source_B]) in
  IngestionService.exec (Example.httpClient 2) Example.accepting
    (initial [Example.source_B]) (repeat Resume 5 ++ [Settle 0]) = Some st ∧
  saved_entry <$> accepted (saves (store st))
  = [LogDebug "Saved batch of 2 records"] ∧
  filter (λ entry, is_debug entry) (log (store st))
  ≡ₚ saved_entry <$> accepted (saves (store st)).
Proof.
  split; [vm_compute; reflexivity|]. split; [vm_compute; reflexivity|].
  apply (debug_log_lists_the_saved_batches (Example.httpClient 2)
           Example.accepting [Example.source_B]
           (repeat Resume 5 ++ [Settle 0])).
  vm_compute; reflexivity.
Defined.

(** ** X8: the records a call holds *)

(** X8.  At every point the buffer of the running call holds fewer than
    [BATCH_SIZE] records, and none once the loop is over; with the batches of
    the writes registered in [pendingSaves], the call holds fewer than
    [(MAX_CONCURRENT_BATCHES + 1) * BATCH_SIZE] records, however long the
    stream is. *)
Theorem running_call_holds_bounded_records httpClient repository sources evs
    st r :
  IngestionService.exec httpClient repository (initial sources) evs
  = Some st →
  current st = Some r →
  length (batch r) < IngestionService.BATCH_SIZE ∧
  (r_await r = AwaitDrain ∨ r_await r = AwaitFinished → batch r = []) ∧
  held (store st) r
  < (IngestionService.MAX_CONCURRENT_BATCHES + 1)
    * IngestionService.BATCH_SIZE.
Proof.
  apply (held_reachable _ _ _ _ _ BATCH_SIZE_pos MAX_CONCURRENT_BATCHES_pos).
Qed.

(** Source [B] when its two records have been flushed. *)
Lemma running_call_holds_bounded_records_witness :
  let st := IngestionService.run (Example.httpClient 2) Example.accepting 5
              (initial [Example.source_B]) in
  let r := {| r_source := Example.source_B;
              r_stream := Example.stream
                            [Example.record; JStr "skip"; Example.record];
              r_input := []; batch := []; pendingSaves := [0];
              r_await := AwaitDrain |} in
  IngestionService.exec (Example.httpClient 2) Example.accepting
    (initial [Example.source_B]) (repeat Resume 5) = Some st ∧
  current st = Some r ∧
  held (store st) r = 2 ∧
  held (store st) r
  < (IngestionService.MAX_CONCURRENT_BATCHES + 1)
    * IngestionService.BATCH_SIZE.
Proof.
  split; [vm_compute; reflexivity|]. split; [vm_compute; reflexivity|].
  split; [vm_compute; reflexivity|].
  apply (running_call_holds_bounded_records (Example.httpClient 2)
           Example.accepting [Example.source_B] (repeat Resume 5));
    vm_compute; reflexivity.
Defined.

(** ** X9: the writes go in waves *)

(** X9.  While the loop of a call reads elements, [pendingSaves] holds as
    many promises as the call has written batches, modulo
    [MAX_CONCURRENT_BATCHES].  A resumption after which the loop goes on
    writes no batch and stays in the loop, or writes one batch, and then the
    call waits in the [flushPending] of the loop exactly when the number of
    batches written has become a multiple of [MAX_CONCURRENT_BATCHES].  When
    the call waits there, that number is such a multiple, and not zero,
    [pendingSaves] holds [MAX_CONCURRENT_BATCHES] promises, and the call does
    not resume before all of them have settled.  So the loop pauses after each
    [MAX_CONCURRENT_BATCHES]-th batch, and only then. *)
Theorem writes_go_in_waves httpClient repository sources evs st r :
  IngestionService.exec httpClient repository (initial sources) evs
  = Some st →
  current st = Some r →
  (r_await r = AwaitNext →
   length (pendingSaves r)
   = length (written (length (outcomes st)) (saves (store st)))
     `mod` IngestionService.MAX_CONCURRENT_BATCHES ∧
   ∀ st' r',
     IngestionService.ingestAll httpClient repository st = Some st' →
     current st' = Some r' → r_await r' ≠ AwaitDrain →
     length (written (length (outcomes st)) (saves (store st')))
     = length (written (length (outcomes st)) (saves (store st)))
     ∧ r_await r' = AwaitNext ∨
     length (written (length (outcomes st)) (saves (store st')))
     = S (length (written (length (outcomes st)) (saves (store st))))
     ∧ r_await r'
       = (if length (written (length (outcomes st)) (saves (store st')))
             `mod` IngestionService.MAX_CONCURRENT_BATCHES =? 0
          then AwaitThrottle else AwaitNext)) ∧
  (r_await r = AwaitThrottle →
   length (written (length (outcomes st)) (saves (store st)))
   `mod` IngestionService.MAX_CONCURRENT_BATCHES = 0 ∧
   0 < length (written (length (outcomes st)) (saves (store st))) ∧
   length (pendingSaves r) = IngestionService.MAX_CONCURRENT_BATCHES ∧
   (is_Some (IngestionService.ingestAll httpClient repository st) →
    unresolved (store st) (pendingSaves r) = [])).
Proof.
  intros Hexec Hr.
  pose proof (waves_reachable _ _ _ _ _ BATCH_SIZE_pos
                MAX_CONCURRENT_BATCHES_pos _ _ Hexec _ Hr) as Hwave.
  pose proof (service_invariant _ _ _ _ _ Hexec) as Hinv.
  pose proof (inv_frame _ _ _ _ _ _ Hinv _ Hr) as (_ & _ & Hawait).
  split; intros Haw; rewrite Haw in Hwave, Hawait.
  - split; [done|]. intros st' r' Hres Hr' Hloop.
    assert (IngestionService.exec httpClient repository (initial sources)
              (evs ++ [Resume]) = Some st') as Hexec'.
    { unfold IngestionService.exec. rewrite exec_app.
      fold (IngestionService.exec httpClient repository (initial sources) evs).
      rewrite Hexec. simpl.
      fold (IngestionService.ingestAll httpClient repository st).
      by rewrite Hres. }
    pose proof (waves_reachable _ _ _ _ _ BATCH_SIZE_pos
                  MAX_CONCURRENT_BATCHES_pos _ _ Hexec' _ Hr') as Hwave'.
    unfold IngestionService.ingestAll, ingestAll in Hres. rewrite Hr in Hres.
    destruct (ingestSource _ _ _ _ _ _) as [[σ' ctl]|] eqn:Hcall; [|done].
    destruct ctl as [r0| |e]; injection Hres as <-; simpl in Hr';
      [|done|by rewrite current_caught in Hr'].
    injection Hr' as ->. cbn [store outcomes] in *.
    destruct (ingestSource_loop _ _ _ BATCH_SIZE_pos
                MAX_CONCURRENT_BATCHES_pos _ _ _ _ _ Haw Hcall Hloop)
      as [(Hsaves & Hp & Hnext)|((s & Hsaves & Hk & Hc) & Hp & Hnext)].
    + left. by rewrite Hsaves.
    + right. rewrite Hsaves, written_app, written_singleton, length_app
        by done.
      simpl. rewrite Nat.add_1_r. split; [done|].
      rewrite Hsaves, written_app, written_singleton, length_app in Hwave'
        by done.
      simpl in Hwave'. rewrite Nat.add_1_r in Hwave'.
      rewrite Hnext in Hwave' |- *.
      destruct (IngestionService.MAX_CONCURRENT_BATCHES
                <=? length (pendingSaves r')).
      * destruct Hwave' as [-> _]. done.
      * rewrite <- Hwave', Hp, length_app. simpl. by rewrite Nat.add_1_r.
  - destruct Hwave as [Hmod Hpos]. destruct Hawait as [Hlen _].
    split_and!; try done.
    unfold IngestionService.ingestAll, ingestAll, ingestSource, flushPending.
    rewrite Hr, Haw. rewrite <- allSettled_unresolved.
    destruct (allSettled _ _); [done|by intros []].
Qed.

(** Source [C] with its three first batches written. *)
Lemma writes_go_in_waves_witness :
  let st := Example.throttled IngestionService.BATCH_SIZE in
  IngestionService.exec (Example.httpClient IngestionService.BATCH_SIZE)
    Example.accepting (initial [Example.source_C])
    (Example.three_batches IngestionService.BATCH_SIZE) = Some st ∧
  (∃ r, current st = Some r ∧ r_await r = AwaitThrottle) ∧
  length (written 0 (saves (store st))) = 3 ∧
  length (written 0 (saves (store st)))
  `mod` IngestionService.MAX_CONCURRENT_BATCHES = 0.
Proof.
  pose proof (three_batches_throttled IngestionService.BATCH_SIZE
                BATCH_SIZE_pos) as Hexec.
  split; [exact Hexec|]. split; [eexists; split; reflexivity|].
  split; [reflexivity|].
  destruct (writes_go_in_waves
              (Example.httpClient IngestionService.BATCH_SIZE)
              Example.accepting [Example.source_C]
              (Example.three_batches IngestionService.BATCH_SIZE)
              (Example.throttled IngestionService.BATCH_SIZE) _ Hexec eq_refl)
    as [_ Hthrottle].
  exact (proj1 (Hthrottle eq_refl)).
Defined.

(** ** X10: every execution is finite *)

(** X10.  No execution goes on for ever: whatever the order of the events,
    an execution from the initial state has at most two events for a source
    whose stream cannot be obtained and six events plus three for each element
    of its stream for any other source. *)
Theorem executions_are_bounded httpClient repository sources evs st :
  IngestionService.exec httpClient repository (initial sources) evs
  = Some st →
  length evs
  ≤ sum_list ((λ source,
                 match httpClient (url source) with
                 | Throw _ => 2
                 | Normal stream => 6 + 3 * length (elements stream)
                 end) <$> sources).
Proof.
  intros Hexec.
  apply (exec_work _ _ _ _ BATCH_SIZE_pos MAX_CONCURRENT_BATCHES_pos)
    in Hexec.
  unfold work, fuel in Hexec. simpl in Hexec.
  change (in_flight []) with 0 in Hexec.
  assert (sum_list (source_cost httpClient <$> sources) + length sources
          = sum_list ((λ source,
                         match httpClient (url source) with
                         | Throw _ => 2
                         | Normal stream => 6 + 3 * length (elements stream)
                         end) <$> sources)) as <-; [|lia].
  rewrite <- sum_list_S. f_equal. apply list_fmap_ext. intros _ source _.
  unfold source_cost. by destruct (httpClient (url source)).
Qed.

(** A complete run on source [B]: eight events. *)
Lemma executions_are_bounded_witness :
  IngestionService.exec (Example.httpClient 2) Example.accepting
    (initial [Example.source_B])
    (repeat Resume 5 ++ [Settle 0] ++ repeat Resume 2)
  = Some (IngestionService.run (Example.httpClient 2) Example.accepting 20
            (initial [Example.source_B])) ∧
  length (repeat Resume 5 ++ [Settle 0] ++ repeat Resume 2) ≤ 15.
Proof.
  split; [vm_compute; reflexivity|].
  apply (executions_are_bounded (Example.httpClient 2) Example.accepting
           [Example.source_B]
           (repeat Resume 5 ++ [Settle 0] ++ repeat Resume 2)
           (IngestionService.run (Example.httpClient 2) Example.accepting 20
              (initial [Example.source_B]))).
  vm_compute; reflexivity.
Defined.

(** ** X11: a source whose stream cannot be obtained *)

(** X11.  When [getStream] rejects for a source, nothing is ever handed to
    [saveAll] for it, and its call ends with that very error.  [ingestAll]
    logs the error under the name of the source: with its stack when it is an
    [Error], with what [String] makes of it otherwise.  When [String] throws
    on the value, [ingestAll] rejects with what [String] threw. *)
Theorem source_without_stream_writes_nothing httpClient repository sources
    evs st k source e :
  IngestionService.exec httpClient repository (initial sources) evs
  = Some st →
  sources !! k = Some source →
  httpClient (url source) = Throw e →
  written k (saves (store st)) = [] ∧
  (k < length (outcomes st) →
   outcomes st !! k = Some (Throw e) ∧
   match e with
   | JError _ stack =>
       LogError ("Failed ingestion for " +:+ name source) (Some stack)
       ∈ log (store st)
   | _ =>
       match ToString e with
       | Normal str =>
           LogError ("Failed ingestion for " +:+ name source +:+ ": "
                     +:+ str) None ∈ log (store st)
       | Throw e' => rejected st e'
       end
   end).
Proof.
  intros Hexec Hsource Hhttp.
  pose proof (service_invariant _ _ _ _ _ Hexec) as Hinv.
  split.
  - destruct (decide (k < length (outcomes st))) as [Hover|Hnot].
    + pose proof (plan_reachable _ _ _ _ _ BATCH_SIZE_pos
                    MAX_CONCURRENT_BATCHES_pos _ _ Hexec) as (_ & Hdone & _).
      rewrite (Hdone _ _ Hover Hsource). unfold saveAll_calls.
      by rewrite Hhttp.
    + destruct (current st) as [r|] eqn:Hr.
      * destruct (decide (k = length (outcomes st))) as [->|Hne].
        -- rewrite (current_source _ _ _ _ _ _ _ Hinv Hr) in Hsource.
           destruct (inv_frame _ _ _ _ _ _ Hinv _ Hr) as (Hstream & _).
           congruence.
        -- apply (written_next _ _ _ _ _ BATCH_SIZE_pos
                    MAX_CONCURRENT_BATCHES_pos _ _ Hinv).
           rewrite Hr. simpl. lia.
      * apply (written_next _ _ _ _ _ BATCH_SIZE_pos
                 MAX_CONCURRENT_BATCHES_pos _ _ Hinv).
        rewrite Hr. simpl. lia.
  - intros Hover. apply lookup_lt_is_Some in Hover as [o Ho].
    pose proof (outcome_determined _ _ _ _ _ _ _ Hinv Hsource Ho) as ->.
    unfold ingestSource_outcome in Ho. rewrite Hhttp in Ho.
    split; [done|].
    pose proof (failure_is_reported _ _ _ _ _ _ _ Hinv Hsource Ho) as Hrep.
    destruct e as [| |[]| | | | | |json e']; try done. by destruct Hrep.
Qed.

(** Source [F], behind whose URL there is nothing. *)
Lemma source_without_stream_writes_nothing_witness :
  let st := IngestionService.run Edge.httpClient Example.accepting 20
              (initial [Edge.source_F]) in
  IngestionService.exec Edge.httpClient Example.accepting
    (initial [Edge.source_F]) [Resume] = Some st ∧
  [Edge.source_F] !! 0 = Some Edge.source_F ∧
  Edge.httpClient (url Edge.source_F)
  = Throw (JError "no such host" "at getStream") ∧
  written 0 (saves (store st)) = [] ∧
  LogError "Failed ingestion for F" (Some "at getStream") ∈ log (store st).
Proof.
  split; [vm_compute; reflexivity|]. split; [reflexivity|].
  split; [reflexivity|].
  destruct (source_without_stream_writes_nothing Edge.httpClient
              Example.accepting [Edge.source_F] [Resume]
              (IngestionService.run Edge.httpClient Example.accepting 20
                 (initial [Edge.source_F]))
              0 Edge.source_F (JError "no such host" "at getStream"))
    as [Hwritten Hover];
    [vm_compute; reflexivity|reflexivity|reflexivity|].
  split; [exact Hwritten|].
  refine (proj2 (Hover _)). vm_compute. lia.
Defined.

(** ** X12: the writes follow the order of the sources *)

(** X12.  The [saveAll] calls are made source by source, in registration
    order: a write made after another is for the same source or for one
    registered later, and every write is for a registered source. *)
Theorem writes_follow_the_sources httpClient repository sources evs st i j
    s s' :
  IngestionService.exec httpClient repository (initial sources) evs
  = Some st →
  i ≤ j →
  saves (store st) !! i = Some s →
  saves (store st) !! j = Some s' →
  save_source s ≤ save_source s' ∧ save_source s' < length sources.
Proof.
  intros Hexec Hij Hi Hj. split.
  - eapply (tags_reachable _ _ _ _ _ BATCH_SIZE_pos
              MAX_CONCURRENT_BATCHES_pos _ _ Hexec i j); [done|..];
      by rewrite list_lookup_fmap, ?Hi, ?Hj.
  - apply service_invariant in Hexec
      as [(done & Hord & Hlen) Hsaves _ _ _].
    destruct (Hsaves _ _ Hj) as [_ Hlt].
    rewrite Hord, !length_app, Hlen.
    destruct (current st); simpl in *; lia.
Qed.

(** Source [B] registered twice. *)
Lemma writes_follow_the_sources_witness :
  let sources := [Example.source_B; Example.source_B] in
  let st := IngestionService.run (Example.httpClient 2) Example.accepting 30
              (initial sources) in
  let s := {| save_source := 0;
              save_batch := [Example.record; Example.record];
              save_call := Some SaveAllResolves;
              save_promise := Fulfilled |} in
  let s' := {| save_source := 1;
               save_batch := [Example.record; Example.record];
               save_call := Some SaveAllResolves;
               save_promise := Fulfilled |} in
  IngestionService.exec (Example.httpClient 2) Example.accepting
    (initial sources)
    (repeat Resume 5 ++ [Settle 0] ++ repeat Resume 7 ++ [Settle 1]
     ++ repeat Resume 2) = Some st ∧
  saves (store st) = [s; s'] ∧
  save_source s ≤ save_source s' ∧ save_source s' < length sources.
Proof.
  split; [vm_compute; reflexivity|]. split; [vm_compute; reflexivity|].
  apply (writes_follow_the_sources (Example.httpClient 2) Example.accepting
           [Example.source_B; Example.source_B]
           (repeat Resume 5 ++ [Settle 0] ++ repeat Resume 7 ++ [Settle 1]
            ++ repeat Resume 2)
           (IngestionService.run (Example.httpClient 2) Example.accepting 30
              (initial [Example.source_B; Example.source_B]))
           0 1);
    [vm_compute; reflexivity|lia|vm_compute; reflexivity..].
Defined.

(** ** X13: a source without records *)

(** X13.  A source whose stream yields no record before the loop ends (the
    stream is empty, or the mapper returns a falsy value on every element
    before its first throw) never has [saveAll] called: the flush after the
    loop is skipped on an empty buffer. *)
Theorem source_without_records_writes_nothing httpClient repository sources
    evs st k source stream :
  IngestionService.exec httpClient repository (initial sources) evs
  = Some st →
  sources !! k = Some source →
  httpClient (url source) = Normal stream →
  ingested source (elements stream) = [] →
  written k (saves (store st)) = [].
Proof.
  intros Hexec Hsource Hstream Hnil.
  pose proof (service_invariant _ _ _ _ _ Hexec) as Hinv.
  pose proof (plan_reachable _ _ _ _ _ BATCH_SIZE_pos
                MAX_CONCURRENT_BATCHES_pos _ _ Hexec) as (Hcur & Hdone & _).
  assert (saveAll_calls IngestionService.BATCH_SIZE httpClient source = [])
    as Hplan.
  { unfold saveAll_calls. rewrite Hstream.
    by apply batches_nil; [apply BATCH_SIZE_pos|]. }
  destruct (decide (k < length (outcomes st))) as [Hover|Hnot].
  { by rewrite (Hdone _ _ Hover Hsource). }
  destruct (current st) as [r|] eqn:Hr.
  - destruct (decide (k = length (outcomes st))) as [->|Hne].
    + rewrite (current_source _ _ _ _ _ _ _ Hinv Hr) in Hsource.
      simplify_eq. specialize (Hcur r eq_refl). rewrite Hplan in Hcur.
      by apply app_eq_nil in Hcur as [? _].
    + apply (written_next _ _ _ _ _ BATCH_SIZE_pos
               MAX_CONCURRENT_BATCHES_pos _ _ Hinv).
      rewrite Hr. simpl. lia.
  - apply (written_next _ _ _ _ _ BATCH_SIZE_pos
             MAX_CONCURRENT_BATCHES_pos _ _ Hinv).
    rewrite Hr. simpl. lia.
Qed.

(** Source [G], whose two elements are skipped. *)
Lemma source_without_records_writes_nothing_witness :
  let st := IngestionService.run Edge.httpClient Example.accepting 20
              (initial [Edge.source_G]) in
  IngestionService.exec Edge.httpClient Example.accepting
    (initial [Edge.source_G]) (repeat Resume 6) = Some st ∧
  returned st ∧ outcomes st = [Normal ()] ∧
  ingested Edge.source_G [JStr "x"; JStr "y"] = [] ∧
  written 0 (saves (store st)) = [].
Proof.
  split; [vm_compute; reflexivity|]. split; [vm_compute; by split_and!|].
  split; [vm_compute; reflexivity|]. split; [reflexivity|].
  apply (source_without_records_writes_nothing Edge.httpClient
           Example.accepting [Edge.source_G] (repeat Resume 6)
           (IngestionService.run Edge.httpClient Example.accepting 20
              (initial [Edge.source_G]))
           0 Edge.source_G (Example.stream [JStr "x"; JStr "y"]));
    [vm_compute; reflexivity|reflexivity..].
Defined.

(** ** X14: the writes a call leaves unresolved *)

Lemma written_nil_tags k l :
  written k l = [] → Forall (λ s, is_Some (save_call s)) l →
  Forall (λ s, save_source s ≠ k) l.
Proof.
  unfold written. intros Hnil Hcalls.
  induction Hcalls as [|s l Hs _ IH]; [done|].
  rewrite filter_cons in Hnil.
  destruct (decide (save_source s = k ∧ is_Some (save_call s))) as [|Hnot];
    [done|].
  constructor; [|by apply IH]. intros Hk. by apply Hnot.
Qed.

(** X14.  When the call for a source is over, fewer than
    [MAX_CONCURRENT_BATCHES] of its writes are still unresolved, and there is
    none unless the loop of the call was left by a throw of the mapper or of
    the iterator: these are the only writes that nothing awaits. *)
Theorem ended_call_leaves_few_writes_unresolved httpClient repository sources
    evs st k source :
  IngestionService.exec httpClient repository (initial sources) evs
  = Some st →
  sources !! k = Some source →
  k < length (outcomes st) →
  length (unobserved k (saves (store st)))
  < IngestionService.MAX_CONCURRENT_BATCHES ∧
  (unobserved k (saves (store st)) ≠ [] →
   ∃ stream e,
     httpClient (url source) = Normal stream ∧
     iteration source stream (elements stream) = Throw e).
Proof.
  intros Hexec Hsource Hover. split.
  { by apply (unobserved_reachable _ _ _ _ _ BATCH_SIZE_pos
                MAX_CONCURRENT_BATCHES_pos _ _ Hexec). }
  intros Hleft.
  destruct (httpClient (url source)) as [stream|e] eqn:Hstream.
  - destruct (iteration source stream (elements stream)) as [[]|e] eqn:Hit;
      [|by eauto].
    destruct Hleft. apply unobserved_resolved.
    by eapply (drained_reachable _ _ _ _ _ BATCH_SIZE_pos
                 MAX_CONCURRENT_BATCHES_pos).
  - destruct Hleft. apply unobserved_other, written_nil_tags.
    + pose proof (plan_reachable _ _ _ _ _ BATCH_SIZE_pos
                    MAX_CONCURRENT_BATCHES_pos _ _ Hexec) as (_ & Hdone & _).
      rewrite (Hdone _ _ Hover Hsource). unfold saveAll_calls.
      by rewrite Hstream.
    + apply Forall_lookup_2. intros id s Hid.
      apply service_invariant in Hexec as [_ Hsaves _ _ _].
      destruct (Hsaves _ _ Hid) as [(_ & -> & _) _]. done.
Qed.

(** Source [A] when its mapper has thrown after a first full batch: the
    write of that batch is unresolved. *)
Lemma ended_call_leaves_few_writes_unresolved_witness :
  let st := Example.abandoned IngestionService.BATCH_SIZE in
  IngestionService.exec (Example.httpClient IngestionService.BATCH_SIZE)
    Example.accepting (initial [Example.source_A; Example.source_B])
    (Example.mapper_throws IngestionService.BATCH_SIZE) = Some st ∧
  [Example.source_A; Example.source_B] !! 0 = Some Example.source_A ∧
  0 < length (outcomes st) ∧
  length (unobserved 0 (saves (store st))) = 1 ∧
  length (unobserved 0 (saves (store st)))
  < IngestionService.MAX_CONCURRENT_BATCHES.
Proof.
  pose proof (mapper_throws_abandoned IngestionService.BATCH_SIZE
                BATCH_SIZE_pos) as Hexec.
  split; [exact Hexec|]. split; [reflexivity|]. split; [simpl; lia|].
  split; [reflexivity|].
  refine (proj1 (ended_call_leaves_few_writes_unresolved
                   (Example.httpClient IngestionService.BATCH_SIZE)
                   Example.accepting [Example.source_A; Example.source_B]
                   (Example.mapper_throws IngestionService.BATCH_SIZE)
                   (Example.abandoned IngestionService.BATCH_SIZE)
                   0 Example.source_A Hexec eq_refl _)).
  simpl. lia.
Defined.

(** ** X15: what is written is always a prefix of the records *)

(** X15.  At every point of every execution, also while the call for the
    source is running, the records handed to [saveAll] for a source are a
    prefix of the records its loop pushes: they are written in stream order,
    none twice, and none that the mapper did not return. *)
Theorem written_records_are_a_prefix httpClient repository sources evs st k
    source stream :
  IngestionService.exec httpClient repository (initial sources) evs
  = Some st →
  sources !! k = Some source →
  httpClient (url source) = Normal stream →
  concat (written k (saves (store st)))
  `prefix_of` ingested source (elements stream).
Proof.
  intros Hexec Hsource Hstream.
  pose proof (service_invariant _ _ _ _ _ Hexec) as Hinv.
  pose proof (plan_reachable _ _ _ _ _ BATCH_SIZE_pos
                MAX_CONCURRENT_BATCHES_pos _ _ Hexec) as (Hcur & Hdone & _).
  destruct (batches_spec IngestionService.BATCH_SIZE source stream
              (elements stream) [] BATCH_SIZE_pos BATCH_SIZE_pos)
    as (lost & Hcat & _). simpl in Hcat.
  assert (saveAll_calls IngestionService.BATCH_SIZE httpClient source
          = batches IngestionService.BATCH_SIZE source stream
              (elements stream) []) as Hplan
    by (unfold saveAll_calls; by rewrite Hstream).
  destruct (decide (k < length (outcomes st))) as [Hover|Hnot].
  { rewrite (Hdone _ _ Hover Hsource), Hplan, Hcat. by eexists. }
  assert (length (outcomes st) + length (option_list (current st)) ≤ k
          → written k (saves (store st)) = []) as Hnext
    by apply (written_next _ _ _ _ _ BATCH_SIZE_pos
                MAX_CONCURRENT_BATCHES_pos _ _ Hinv).
  destruct (current st) as [r|] eqn:Hr; simpl in Hnext;
    [|rewrite Hnext by lia; apply prefix_nil].
  destruct (decide (k = length (outcomes st))) as [->|Hne];
    [|rewrite Hnext by lia; apply prefix_nil].
  rewrite (current_source _ _ _ _ _ _ _ Hinv Hr) in Hsource. simplify_eq.
  specialize (Hcur r eq_refl). rewrite Hplan in Hcur.
  rewrite Hcat, <- Hcur, concat_app, <- app_assoc. by eexists.
Qed.

(** Source [B] while its call waits for its one write. *)
Lemma written_records_are_a_prefix_witness :
  let st := IngestionService.run (Example.httpClient 2) Example.accepting 5
              (initial [Example.source_B]) in
  let stream :=
    Example.stream [Example.record; JStr "skip"; Example.record] in
  IngestionService.exec (Example.httpClient 2) Example.accepting
    (initial [Example.source_B]) (repeat Resume 5) = Some st ∧
  [Example.source_B] !! 0 = Some Example.source_B ∧
  Example.httpClient 2 (url Example.source_B) = Normal stream ∧
  outcomes st = [] ∧
  concat (written 0 (saves (store st)))
  `prefix_of` ingested Example.source_B (elements stream).
Proof.
  split; [vm_compute; reflexivity|]. split; [reflexivity|].
  split; [reflexivity|]. split; [vm_compute; reflexivity|].
  apply (written_records_are_a_prefix (Example.httpClient 2)
           Example.accepting [Example.source_B] (repeat Resume 5)
           (IngestionService.run (Example.httpClient 2) Example.accepting 5
              (initial [Example.source_B]))
           0 Example.source_B
           (Example.stream [Example.record; JStr "skip"; Example.record]));
    [vm_compute; reflexivity|reflexivity|reflexivity].
Defined.

(** ** X16: the failure of a source and the sources after it *)

(** X16.  In every execution the sources are taken one at a time in
    registration order: those whose call is over, the one whose call is
    awaited, and those still to come make up the list of sources.  Every call
    that is over ended as its own source determines, whatever the other
    sources did.  A call that threw was caught by [ingestAll] and logged
    under the name of its source, with the stack of an [Error] and with what
    [String] makes of another value; if [String] throws on the value,
    [ingestAll] has rejected with what [String] threw, that call being the
    last one.  A call that returned has written all the records of its source
    and seen all its writes resolved, and these records are stored if the
    repository accepted the writes.  From wherever it is [ingestAll] can run
    to its end; when the failure of every source can be logged, it returns,
    and every source has had its call. *)
Theorem ingestAll_isolates_logged_failures httpClient repository sources evs
    st :
  IngestionService.exec httpClient repository (initial sources) evs = Some st →
  (∃ done,
     sources = done ++ option_list (r_source <$> current st) ++ queue st ∧
     length done = length (outcomes st)) ∧
  (∀ k source o,
     sources !! k = Some source → outcomes st !! k = Some o →
     o = ingestSource_outcome httpClient source ∧
     match o with
     | Throw (JError _ stack) =>
         LogError ("Failed ingestion for " +:+ name source) (Some stack)
         ∈ log (store st)
     | Throw e =>
         match ToString e with
         | Normal str =>
             LogError ("Failed ingestion for " +:+ name source +:+ ": "
                       +:+ str) None ∈ log (store st)
         | Throw e' => rejected st e' ∧ length (outcomes st) = S k
         end
     | Normal _ =>
         ∃ stream,
           httpClient (url source) = Normal stream ∧
           concat (written k (saves (store st)))
           = records source (elements stream) ∧
           resolved k (saves (store st)) ∧
           (Forall (λ s, save_source s = k →
                         save_call s = Some SaveAllResolves)
              (saves (store st)) →
            concat (stored k (saves (store st)))
            = records source (elements stream))
     end) ∧
  (∃ evs' st',
     IngestionService.exec httpClient repository st evs' = Some st' ∧
     over st' ∧
     (Forall (loggable httpClient) sources →
      returned st' ∧ length (outcomes st') = length sources)).
Proof.
  intros Hexec. pose proof (service_invariant _ _ _ _ _ Hexec) as Hinv.
  split_and!.
  - by destruct Hinv.
  - intros k source o Hk Ho.
    pose proof (outcome_determined _ _ _ _ _ _ _ Hinv Hk Ho) as Hout.
    split; [done|]. destruct o as [[]|e].
    + destruct (inv_done _ _ _ _ _ _ Hinv _ _ Ho)
        as (source' & Hk' & _ & stream & Hhttp & Hrec & _ & Hres).
      simplify_eq. exists stream. split_and!; try done.
      intros Hacc. rewrite stored_written; try done.
      apply Forall_lookup_2. intros id s Hid.
      by destruct (inv_saves _ _ _ _ _ _ Hinv _ _ Hid) as [(_ & _ & ?) _].
    + pose proof (failure_is_reported _ _ _ _ _ _ _ Hinv Hk Ho) as Hrep.
      by destruct e.
  - destruct (service_ends _ _ _ _ Hinv)
      as (evs' & st' & Hexec' & Hinv' & Hover & Hret).
    exists evs', st'. split_and!; try done.
    intros Hall. split; [by apply Hret|].
    eapply returned_outcomes; [done|by apply Hret].
Qed.

(** Sources [A] and [B] registered in this order; the mapper throws on the
    third element of [A].  At the end [B] has run and its records are
    stored. *)
Lemma ingestAll_isolates_logged_failures_witness :
  let sources := registerSource Example.source_B
                   (registerSource Example.source_A []) in
  let st := IngestionService.run (Example.httpClient 2) Example.accepting 20
              (initial sources) in
  IngestionService.exec (Example.httpClient 2) Example.accepting
    (initial sources)
    (repeat Resume 9 ++ [Settle 0] ++ repeat Resume 2) = Some st ∧
  returned st ∧
  outcomes st = [Throw (JError "bad record" "at map"); Normal ()] ∧
  LogError "Failed ingestion for A" (Some "at map") ∈ log (store st) ∧
  concat (stored 1 (saves (store st))) = [Example.record; Example.record].
Proof.
  assert (IngestionService.exec (Example.httpClient 2) Example.accepting
            (initial [Example.source_A; Example.source_B])
            (repeat Resume 9 ++ [Settle 0] ++ repeat Resume 2)
          = Some (IngestionService.run (Example.httpClient 2)
                    Example.accepting 20
                    (initial [Example.source_A; Example.source_B])))
    as Hexec by (vm_compute; reflexivity).
  split; [exact Hexec|].
  split; [vm_compute; by split_and!|]. split; [vm_compute; reflexivity|].
  destruct (ingestAll_isolates_logged_failures _ _ _ _ _ Hexec)
    as (_ & Hdone & _).
  split.
  - refine (proj2 (Hdone 0 Example.source_A
                     (Throw (JError "bad record" "at map")) _ _));
      vm_compute; reflexivity.
  - destruct (Hdone 1 Example.source_B (Normal ()))
      as (_ & stream & Hhttp & _ & _ & Hstored);
      [vm_compute; reflexivity..|].
    injection Hhttp as <-.
    apply Hstored. vm_compute. repeat constructor; reflexivity.
Defined.

(** ** X17: a write that the repository rejects *)

(** What the [catch] clause of [saveBatch] makes of the error of
    [saveAll]. *)
Lemma saveBatch_caught_spec error promise entries :
  saveBatch_caught error = (promise, entries) →
  match error with
  | JError message _ =>
      promise = Fulfilled ∧
      entries = [LogError ("Failed to save batch: " +:+ message) None]
  | _ =>
      match ToString error with
      | Normal str =>
          promise = Fulfilled ∧
          entries = [LogError ("Failed to save batch: " +:+ str) None]
      | Throw reason => promise = Rejected reason ∧ entries = []
      end
  end.
Proof.
  unfold saveBatch_caught.
  destruct error as [| |[]| | | | | |]; simpl; by intros [= <- <-].
Qed.

(** X17.  When the repository rejects the write of a batch, settling it runs
    the [catch] clause of [saveBatch]: the failure is logged, with the
    message of an [Error] and with what [String] makes of another value, and
    the promise of that [saveBatch] call is fulfilled; if [String] throws on
    the value, nothing is logged and the promise is rejected with what
    [String] threw.  Nothing else changes.  The running call is not aborted:
    it can resume afterwards if it could before, the other writes are as
    before, and [ingestAll] can run to its end, where every call that is over
    ended as its own source determines; for a source that returned, all
    its records were written and all its writes resolved, and what is stored
    of it is what the repository accepted. *)
Theorem rejected_write_is_isolated httpClient repository sources evs st id s
    error :
  IngestionService.exec httpClient repository (initial sources) evs = Some st →
  saves (store st) !! id = Some s →
  save_promise s = Pending →
  repository id (save_batch s) = SaveAllRejects error →
  ∃ st' promise entries,
    IngestionService.step httpClient repository st (Settle id) = Some st' ∧
    store st'
    = {| saves := <[id := {| save_source := save_source s;
                             save_batch := save_batch s;
                             save_call := save_call s;
                             save_promise := promise |}]> (saves (store st));
         log := log (store st) ++ entries |} ∧
    match error with
    | JError message _ =>
        promise = Fulfilled ∧
        entries = [LogError ("Failed to save batch: " +:+ message) None]
    | _ =>
        match ToString error with
        | Normal str =>
            promise = Fulfilled ∧
            entries = [LogError ("Failed to save batch: " +:+ str) None]
        | Throw reason => promise = Rejected reason ∧ entries = []
        end
    end ∧
    queue st' = queue st ∧ current st' = current st ∧
    outcomes st' = outcomes st ∧
    (is_Some (IngestionService.ingestAll httpClient repository st) →
     is_Some (IngestionService.ingestAll httpClient repository st')) ∧
    (∀ id', id' ≠ id →
       saves (store st') !! id' = saves (store st) !! id') ∧
    ∃ evs' st'',
      IngestionService.exec httpClient repository st' evs' = Some st'' ∧
      over st'' ∧
      (Forall (loggable httpClient) sources → returned st'') ∧
      ∀ k source o,
        sources !! k = Some source → outcomes st'' !! k = Some o →
        o = ingestSource_outcome httpClient source ∧
        (o = Normal () →
           ∃ stream,
             httpClient (url source) = Normal stream ∧
             concat (written k (saves (store st'')))
             = records source (elements stream) ∧
             resolved k (saves (store st'')) ∧
             stored k (saves (store st''))
             = save_batch <$>
                 filter (λ s, save_source s = k
                              ∧ save_call s = Some SaveAllResolves)
                   (saves (store st''))).
Proof.
  intros Hexec Hid Hpending Hrej.
  pose proof (service_invariant _ _ _ _ _ Hexec) as Hinv.
  destruct (inv_saves _ _ _ _ _ _ Hinv _ _ Hid) as [(_ & Hcall & _) _].
  rewrite Hrej in Hcall.
  destruct (saveBatch_caught error) as [promise entries] eqn:Hcaught.
  assert (settle id st
          = Some {| store :=
                      {| saves := <[id := {| save_source := save_source s;
                                             save_batch := save_batch s;
                                             save_call := save_call s;
                                             save_promise := promise |}]>
                                    (saves (store st));
                         log := log (store st) ++ entries |};
                    queue := queue st; current := current st;
                    outcomes := outcomes st; pipelines := pipelines st;
                    thrown := thrown st |})
    as Hsettle.
  { unfold settle, saveBatch_resume.
    by rewrite Hid, Hpending, Hcall, Hcaught. }
  eexists _, promise, entries. split; [exact Hsettle|]. simpl.
  split; [done|]. split; [by apply saveBatch_caught_spec|].
  split_and!; try done.
  - by apply resume_after_settle with id.
  - intros id' Hne. by apply list_lookup_insert_ne.
  - pose proof (invariant_step _ _ _ _ _ BATCH_SIZE_pos
                  MAX_CONCURRENT_BATCHES_pos _ (Settle id) _ Hinv Hsettle)
      as Hinv'.
    destruct (service_ends _ _ _ _ Hinv')
      as (evs' & st'' & Hexec' & Hinv'' & Hover & Hret).
    exists evs', st''. split_and!; try done.
    intros k source o Hk Ho.
    pose proof (outcome_determined _ _ _ _ _ _ _ Hinv'' Hk Ho) as Hout.
    split; [done|]. intros ->.
    destruct (inv_done _ _ _ _ _ _ Hinv'' _ _ Ho)
      as (source' & Hk' & _ & stream & Hhttp & Hrec & _ & Hres).
    simplify_eq. exists stream. split_and!; try done.
    apply stored_resolved; [|done].
    apply Forall_lookup_2. intros id' s' Hid'.
    by destruct (inv_saves _ _ _ _ _ _ Hinv'' _ _ Hid') as [(_ & _ & ?) _].
Qed.

(** Source [B] after its two records went to a repository that refuses
    them. *)
Lemma rejected_write_is_isolated_witness :
  let st := IngestionService.run (Example.httpClient 2) Example.refusing 5
              (initial [Example.source_B]) in
  let s := {| save_source := 0;
              save_batch := [Example.record; Example.record];
              save_call := Some (SaveAllRejects (JStr "write refused"));
              save_promise := Pending |} in
  IngestionService.exec (Example.httpClient 2) Example.refusing
    (initial [Example.source_B]) (repeat Resume 5) = Some st ∧
  saves (store st) !! 0 = Some s ∧
  save_promise s = Pending ∧
  Example.refusing 0 (save_batch s) = SaveAllRejects (JStr "write refused") ∧
  ∃ st',
    IngestionService.step (Example.httpClient 2) Example.refusing st
      (Settle 0) = Some st' ∧
    log (store st')
    = log (store st) ++ [LogError "Failed to save batch: write refused" None].
Proof.
  split; [vm_compute; reflexivity|]. split; [vm_compute; reflexivity|].
  split; [reflexivity|]. split; [reflexivity|].
  destruct (rejected_write_is_isolated (Example.httpClient 2)
              Example.refusing [Example.source_B] (repeat Resume 5)
              (IngestionService.run (Example.httpClient 2) Example.refusing 5
                 (initial [Example.source_B])) 0
              {| save_source := 0;
                 save_batch := [Example.record; Example.record];
                 save_call := Some (SaveAllRejects (JStr "write refused"));
                 save_promise := Pending |} (JStr "write refused"))
    as (st' & promise & entries & Hstep & Hstore & [_ Hentries] & _);
    [vm_compute; reflexivity..|].
  exists st'. split; [exact Hstep|]. rewrite Hstore, Hentries. reflexivity.
Defined.

(** ** X18: when the promise of [saveBatch] rejects *)

(** X18.  The promise returned by a [saveBatch] call is rejected only when
    [saveAll] threw or rejected with a value on which [String] throws, and
    then with what [String] threw; whatever else the repository does (it may
    throw, or reject with an [Error] or with any value that [String]
    converts), the promise is pending or fulfilled.  A pending one can be
    settled, which leaves it fulfilled or rejected, adds at most one entry to
    the log and touches neither the running call nor the outcomes of the
    sources.  And [flushPending] has no way to throw: whatever the state of
    the promises in the store, a call waiting in it does not raise. *)
Theorem saveBatch_promise_rejects_only_from_catch httpClient repository
    sources evs st id s :
  IngestionService.exec httpClient repository (initial sources) evs = Some st →
  saves (store st) !! id = Some s →
  (∀ reason, save_promise s = Rejected reason →
     ∃ json,
       repository id (save_batch s) = SaveAllThrows (JOpaque json reason) ∨
       repository id (save_batch s) = SaveAllRejects (JOpaque json reason)) ∧
  (save_promise s = Pending →
     ∃ st' s' entries,
       IngestionService.step httpClient repository st (Settle id) = Some st' ∧
       saves (store st') !! id = Some s' ∧ save_promise s' ≠ Pending ∧
       log (store st') = log (store st) ++ entries ∧ length entries ≤ 1 ∧
       queue st' = queue st ∧ current st' = current st ∧
       outcomes st' = outcomes st ∧ thrown st' = thrown st) ∧
  (∀ k σ σ' r e,
     r_await r = AwaitThrottle ∨ r_await r = AwaitDrain →
     IngestionService.ingestSource repository k σ r ≠ Some (σ', Raise e)).
Proof.
  intros Hexec Hid. pose proof (service_invariant _ _ _ _ _ Hexec) as Hinv.
  destruct (inv_saves _ _ _ _ _ _ Hinv _ _ Hid) as [(_ & Hcall & Hprom) _].
  unfold promise_wf in Hprom. split_and!.
  - intros reason Hrej. rewrite Hrej in Hprom.
    destruct Hprom as (error & Hc & Hcatch).
    apply saveBatch_catch_Throw in Hcatch as [json ->]. exists json.
    rewrite Hcall in Hc. destruct Hc as [[= ->]|[= ->]]; auto.
  - intros Hpending.
    destruct (settle_fuel IngestionService.BATCH_SIZE
                IngestionService.MAX_CONCURRENT_BATCHES httpClient repository
                sources BATCH_SIZE_pos MAX_CONCURRENT_BATCHES_pos id st)
      as (st' & Hsettle & _); [done| |].
    { unfold settled. by rewrite Hid, Hpending. }
    apply settle_spec in Hsettle as Hspec.
    destruct Hspec
      as (s0 & s' & entries & Hid0 & _ & Hres & _ & _ & _ & Hful & ->).
    eexists _, s', entries. split; [exact Hsettle|]. simpl.
    split_and!; try done.
    + apply list_lookup_insert_eq. by eapply lookup_lt_Some.
    + unfold saveBatch_resume in Hres.
      destruct (save_promise s0); try done.
      destruct (save_call s0) as [[error| |error]|]; simplify_eq; [done|].
      destruct (saveBatch_caught error) as [promise entries'] eqn:Hcaught.
      apply saveBatch_caught_silent in Hcaught as (_ & _ & ?).
      by simplify_eq.
  - intros k σ σ' r e Haw.
    unfold IngestionService.ingestSource, ingestSource, flushPending.
    destruct Haw as [-> | ->]; by destruct (allSettled _ _).
Qed.

(** Source [B] after its two records went to a repository that refuses
    them. *)
Lemma saveBatch_promise_rejects_only_from_catch_witness :
  let st := IngestionService.run (Example.httpClient 2) Example.refusing 5
              (initial [Example.source_B]) in
  let s := {| save_source := 0;
              save_batch := [Example.record; Example.record];
              save_call := Some (SaveAllRejects (JStr "write refused"));
              save_promise := Pending |} in
  IngestionService.exec (Example.httpClient 2) Example.refusing
    (initial [Example.source_B]) (repeat Resume 5) = Some st ∧
  saves (store st) !! 0 = Some s ∧
  (∀ reason, save_promise s ≠ Rejected reason) ∧
  ∃ st' s',
    IngestionService.step (Example.httpClient 2) Example.refusing st
      (Settle 0) = Some st' ∧
    saves (store st') !! 0 = Some s' ∧ save_promise s' ≠ Pending ∧
    current st' = current st.
Proof.
  split; [vm_compute; reflexivity|]. split; [vm_compute; reflexivity|].
  split; [discriminate|].
  destruct (saveBatch_promise_rejects_only_from_catch (Example.httpClient 2)
              Example.refusing [Example.source_B] (repeat Resume 5)
              (IngestionService.run (Example.httpClient 2) Example.refusing 5
                 (initial [Example.source_B])) 0
              {| save_source := 0;
                 save_batch := [Example.record; Example.record];
                 save_call := Some (SaveAllRejects (JStr "write refused"));
                 save_promise := Pending |})
    as (_ & Hsettle & _); [vm_compute; reflexivity..|].
  destruct (Hsettle eq_refl)
    as (st' & s' & entries & Hstep & Hid & Hprom & _ & _ & _ & Hcur & _).
  exists st', s'. split; [exact Hstep|]. split; [exact Hid|].
  split; [exact Hprom|exact Hcur].
Defined.
